(** * Celestia: universal coordinates, reference frames, rotation models
      and timeline phases

    A shallow embedding of the coordinate and frame core of Celestia
    (src/celengine/univcoord.h, src/celengine/frame.cpp,
    src/celephem/rotation.cpp, src/celengine/timelinephase.cpp) and the
    properties of it that the specification states.

    Conventions of the embedding.
    - A C++ [double] is modelled by a real number: the arithmetic of the
      code is read as exact arithmetic, so rounding, infinities and NaN
      are outside the model.  Comparisons of doubles become the decidable
      comparisons of [R].  Where a property would rest on a product or a
      quotient being exact, the rounding is written out: the unit
      conversions of a universal coordinate are given a second time with
      a rounding product, and the spin of a uniform rotation as a
      function of the quotient that its division has given.
    - An [unsigned int] is a number of type [N] with the wrap-around at
      2^32 written out.
    - An R128 (64.64 fixed point) is the 128-bit pattern as a number of
      type [Z] in the range 0 .. 2^128 - 1, with wrap-around written out.
    - Mutable members of an object ([mutable] cache fields, the frame
      trees of the universe) become an explicit state that every
      operation takes and returns. *)

From stdpp Require Import gmap list.
From Stdlib Require Import Reals Lra Lia ZArith R_Ifp RNsatz.

Local Open Scope R_scope.

Abbreviation double := R.

(** [a != b] on doubles. *)
Definition double_neb (a b : double) : bool :=
  if Req_dec_T a b then false else true.

(** ** The operations of Eigen that the code uses

    Eigen is a library outside the repository; vectors, quaternions and
    matrices of doubles are given here with the operations that the code
    calls, after their definitions in Eigen. *)

Module Eigen.

Record Vector3d := mkVector3d { vx : double; vy : double; vz : double }.

Definition Zero : Vector3d := mkVector3d 0 0 0.
Definition UnitX : Vector3d := mkVector3d 1 0 0.
Definition UnitY : Vector3d := mkVector3d 0 1 0.

Definition vadd (a b : Vector3d) : Vector3d :=
  mkVector3d (vx a + vx b) (vy a + vy b) (vz a + vz b).

Definition vsub (a b : Vector3d) : Vector3d :=
  mkVector3d (vx a - vx b) (vy a - vy b) (vz a - vz b).

Definition vneg (a : Vector3d) : Vector3d :=
  mkVector3d (- vx a) (- vy a) (- vz a).

(** [v * s] *)
Definition vscale (a : Vector3d) (s : double) : Vector3d :=
  mkVector3d (vx a * s) (vy a * s) (vz a * s).

(** [v / s] *)
Definition vdiv (a : Vector3d) (s : double) : Vector3d :=
  mkVector3d (vx a / s) (vy a / s) (vz a / s).

Definition cross (a b : Vector3d) : Vector3d :=
  mkVector3d (vy a * vz b - vz a * vy b)
             (vz a * vx b - vx a * vz b)
             (vx a * vy b - vy a * vx b).

Definition squaredNorm (a : Vector3d) : double :=
  vx a * vx a + vy a * vy a + vz a * vz a.

Definition norm (a : Vector3d) : double := sqrt (squaredNorm a).

(** [normalize()] and [normalized()] leave a vector of squared norm zero
    as it is. *)
Definition normalized (a : Vector3d) : Vector3d :=
  let z := squaredNorm a in
  if Rlt_dec 0 z then vdiv a (sqrt z) else a.

(** Quaternions, in the order of the constructor [Quaterniond(w, x, y, z)]. *)
Record Quaterniond :=
  mkQuaterniond { qw : double; qx : double; qy : double; qz : double }.

Definition Identity : Quaterniond := mkQuaterniond 1 0 0 0.

Definition conjugate (q : Quaterniond) : Quaterniond :=
  mkQuaterniond (qw q) (- qx q) (- qy q) (- qz q).

(** [a * b], the Hamilton product. *)
Definition qmul (a b : Quaterniond) : Quaterniond :=
  mkQuaterniond
    (qw a * qw b - qx a * qx b - qy a * qy b - qz a * qz b)
    (qw a * qx b + qx a * qw b + qy a * qz b - qz a * qy b)
    (qw a * qy b + qy a * qw b + qz a * qx b - qx a * qz b)
    (qw a * qz b + qz a * qw b + qx a * qy b - qy a * qx b).

(** [q.vec()] *)
Definition qvec (q : Quaterniond) : Vector3d :=
  mkVector3d (qx q) (qy q) (qz q).

(** [q * v]: the vector [v] rotated by [q]. *)
Definition rotate (q : Quaterniond) (v : Vector3d) : Vector3d :=
  let uv := cross (qvec q) v in
  let uv2 := vadd uv uv in
  vadd (vadd v (vscale uv2 (qw q))) (cross (qvec q) uv2).

(** [Quaterniond(AngleAxisd(angle, UnitX()))] and the same about y. *)
Definition AngleAxisX (angle : double) : Quaterniond :=
  mkQuaterniond (cos (angle / 2)) (sin (angle / 2)) 0 0.

Definition AngleAxisY (angle : double) : Quaterniond :=
  mkQuaterniond (cos (angle / 2)) 0 (sin (angle / 2)) 0.

(** [Matrix3d], by rows. *)
Record Matrix3d :=
  mkMatrix3d { row0 : Vector3d; row1 : Vector3d; row2 : Vector3d }.

(** A matrix is declared without initial value and then filled row by
    row; the model starts from the zero matrix. *)
Definition zeroMatrix : Matrix3d := mkMatrix3d Zero Zero Zero.

(** [m.row(i) = v] *)
Definition setRow (m : Matrix3d) (i : Z) (v : Vector3d) : Matrix3d :=
  if (i =? 0)%Z then mkMatrix3d v (row1 m) (row2 m)
  else if (i =? 1)%Z then mkMatrix3d (row0 m) v (row2 m)
  else if (i =? 2)%Z then mkMatrix3d (row0 m) (row1 m) v
  else m.

Definition coeff (m : Matrix3d) (i j : nat) : double :=
  let r := match i with O => row0 m | S O => row1 m | _ => row2 m end in
  match j with O => vx r | S O => vy r | _ => vz r end.

Definition trace (m : Matrix3d) : double :=
  coeff m 0 0 + coeff m 1 1 + coeff m 2 2.

(** [Quaterniond(m)], the quaternion of a rotation matrix. *)
Definition ofRotationMatrix (m : Matrix3d) : Quaterniond :=
  let t := trace m in
  if Rlt_dec 0 t then
    let t := sqrt (t + 1) in
    let w := 0.5 * t in
    let t := 0.5 / t in
    mkQuaterniond w
                  ((coeff m 2 1 - coeff m 1 2) * t)
                  ((coeff m 0 2 - coeff m 2 0) * t)
                  ((coeff m 1 0 - coeff m 0 1) * t)
  else
    let i := if Rlt_dec (coeff m 0 0) (coeff m 1 1) then 1%nat else 0%nat in
    let i := if Rlt_dec (coeff m i i) (coeff m 2 2) then 2%nat else i in
    let j := ((i + 1) mod 3)%nat in
    let k := ((j + 1) mod 3)%nat in
    let t := sqrt (coeff m i i - coeff m j j - coeff m k k + 1) in
    let ci := 0.5 * t in
    let t := 0.5 / t in
    let w := (coeff m k j - coeff m j k) * t in
    let cj := (coeff m j i + coeff m i j) * t in
    let ck := (coeff m k i + coeff m i k) * t in
    let c (n : nat) :=
      if (n =? i)%nat then ci else if (n =? j)%nat then cj else ck in
    mkQuaterniond w (c 0%nat) (c 1%nat) (c 2%nat).

(** [a.dot(b)] *)
Definition dot (a b : Vector3d) : double :=
  vx a * vx b + vy a * vy b + vz a * vz b.

(** [m.row(i)] *)
Definition row (m : Matrix3d) (i : Z) : Vector3d :=
  if (i =? 0)%Z then row0 m else if (i =? 1)%Z then row1 m else row2 m.

(** [m.determinant()] *)
Definition determinant (m : Matrix3d) : double :=
  dot (row0 m) (cross (row1 m) (row2 m)).

(** [q.squaredNorm()] *)
Definition qsquaredNorm (q : Quaterniond) : double :=
  qw q * qw q + qx q * qx q + qy q * qy q + qz q * qz q.

(** A unit quaternion, which stands for a rotation. *)
Definition isUnit (q : Quaterniond) : Prop := qsquaredNorm q = 1.

(** [-q], the other quaternion of the same rotation. *)
Definition qneg (q : Quaterniond) : Quaterniond :=
  mkQuaterniond (- qw q) (- qx q) (- qy q) (- qz q).

(** [q'] is [q] or [-q]: the two quaternions give the same orientation. *)
Definition sameOrientation (q q' : Quaterniond) : Prop :=
  q' = q \/ q' = qneg q.

End Eigen.

Import Eigen.

(** ** celutil/r128.h: 64.64 fixed point numbers *)

Module R128.

(** Modelled from the spec: celutil/r128.h is not among the sources.  The
    specification describes the components of a coordinate as 128-bit
    fixed point numbers made of a 64-bit integer part and a 64-bit
    fractional part, whose addition and subtraction are exact and closed
    under the type, and whose conversion from a double is only meaningful
    for bounded magnitudes.  A value is the 128-bit two's complement
    pattern [r], standing for [signed r / 2^64]. *)
Definition R128 := Z.

Definition modulus : Z := 2 ^ 128.

Definition wf (r : R128) : Prop := (0 <= r < modulus)%Z.

Definition wrap (z : Z) : R128 := (z mod modulus)%Z.

Definition zero : R128 := 0%Z.

(** Largest and smallest value. *)
Definition R128_max : R128 := (2 ^ 127 - 1)%Z.
Definition R128_min : R128 := (2 ^ 127)%Z.

Definition add (a b : R128) : R128 := wrap (a + b).
Definition sub (a b : R128) : R128 := wrap (a - b).
Definition neg (a : R128) : R128 := wrap (- a).

Definition signed (r : R128) : Z :=
  if (r <? 2 ^ 127)%Z then r else (r - modulus)%Z.

(** 2^64 as a double. *)
Definition two64 : double := 18446744073709551616.

(** [R128(double)]: the integer and the fractional part of the magnitude
    are kept (truncation toward zero), the sign is applied afterwards, and
    a double outside the 64-bit integer range saturates. *)
Definition fromDouble (v : double) : R128 :=
  if Rlt_dec v (- 9223372036854775808) then R128_min
  else if Rle_dec 9223372036854775808 v then R128_max
  else if Rlt_dec v 0 then neg (Int_part (- v * two64))
  else wrap (Int_part (v * two64)).

(** [static_cast<double>(R128)] *)
Definition toDouble (r : R128) : double := IZR (signed r) / two64.

End R128.

(** ** celastro/astro.h: unit conversions *)

Module astro.

(** Modelled from the spec: celastro/astro.h is not among the sources.
    The specification names the units (kilometers, light years and the
    internal micro light year); the number of kilometers in a light year
    is the speed of light, 299792.458 km/s, times the 86400 * 365.25
    seconds of a Julian year. *)
Definition KM_PER_LY : double := 9460730472580.8.

Definition microLightYearsToKilometers (uly : double) : double :=
  uly * (1e-6 * KM_PER_LY).

Definition kilometersToMicroLightYears (km : double) : double :=
  km / (1e-6 * KM_PER_LY).

End astro.

(** ** celengine/univcoord.h *)

Module UniversalCoord.

Record UniversalCoord :=
  mkUniversalCoord { x : R128.R128; y : R128.R128; z : R128.R128 }.

(** The components are 128-bit patterns. *)
Definition wf (uc : UniversalCoord) : Prop :=
  R128.wf (x uc) /\ R128.wf (y uc) /\ R128.wf (z uc).

(** [UniversalCoord(double, double, double)] *)
Definition ofDoubles (_x _y _z : double) : UniversalCoord :=
  mkUniversalCoord (R128.fromDouble _x) (R128.fromDouble _y) (R128.fromDouble _z).

(** [explicit UniversalCoord(const Eigen::Vector3d&)] *)
Definition ofVector (v : Vector3d) : UniversalCoord :=
  ofDoubles (vx v) (vy v) (vz v).

(** [operator+] *)
Definition plus (uc0 uc1 : UniversalCoord) : UniversalCoord :=
  mkUniversalCoord (R128.add (x uc0) (x uc1))
                   (R128.add (y uc0) (y uc1))
                   (R128.add (z uc0) (z uc1)).

(** [operator-] *)
Definition minus (uc0 uc1 : UniversalCoord) : UniversalCoord :=
  mkUniversalCoord (R128.sub (x uc0) (x uc1))
                   (R128.sub (y uc0) (y uc1))
                   (R128.sub (z uc0) (z uc1)).

Definition offsetKm (this : UniversalCoord) (v : Vector3d) : UniversalCoord :=
  let vUly := vscale v (astro.kilometersToMicroLightYears 1) in
  plus this (ofVector vUly).

Definition offsetUly (this : UniversalCoord) (vUly : Vector3d) : UniversalCoord :=
  plus this (ofVector vUly).

Definition offsetFromKm (this uc : UniversalCoord) : Vector3d :=
  vscale (mkVector3d (R128.toDouble (R128.sub (x this) (x uc)))
                     (R128.toDouble (R128.sub (y this) (y uc)))
                     (R128.toDouble (R128.sub (z this) (z uc))))
         (astro.microLightYearsToKilometers 1).

Definition offsetFromUly (this uc : UniversalCoord) : Vector3d :=
  mkVector3d (R128.toDouble (R128.sub (x this) (x uc)))
             (R128.toDouble (R128.sub (y this) (y uc)))
             (R128.toDouble (R128.sub (z this) (z uc))).

Definition toLy (this : UniversalCoord) : Vector3d :=
  vscale (mkVector3d (R128.toDouble (x this))
                     (R128.toDouble (y this))
                     (R128.toDouble (z this)))
         1e-6.

Definition distanceFromKm (this uc : UniversalCoord) : double :=
  norm (offsetFromKm this uc).

(** [Zero()]: the default constructor, every component [R128 { 0 }]. *)
Definition Zero : UniversalCoord :=
  mkUniversalCoord R128.zero R128.zero R128.zero.

Definition CreateKm (v : Vector3d) : UniversalCoord :=
  let vUly := vscale v (astro.microLightYearsToKilometers 1) in
  ofDoubles (vx vUly) (vy vUly) (vz vUly).

Definition CreateLy (v : Vector3d) : UniversalCoord :=
  let vUly := vscale v 1e6 in
  ofDoubles (vx vUly) (vy vUly) (vz vUly).

Definition CreateUly (v : Vector3d) : UniversalCoord :=
  let vUly := v in
  ofDoubles (vx vUly) (vy vUly) (vz vUly).

(** *** The conversions with rounded products

    The products of [offsetKm], [offsetFromKm], [CreateLy] and [toLy] are
    products of doubles, which round to a double; above they are exact
    products of real numbers.  Below [fmul a b] stands for the double
    that the product of the doubles [a] and [b] gives, and the four
    functions are the same line by line. *)
Section Rounded.

Variable fmul : double -> double -> double.

(** [v * s] *)
Definition vscale_rounded (a : Vector3d) (s : double) : Vector3d :=
  mkVector3d (fmul (vx a) s) (fmul (vy a) s) (fmul (vz a) s).

Definition offsetKm_rounded (this : UniversalCoord) (v : Vector3d)
  : UniversalCoord :=
  let vUly := vscale_rounded v (astro.kilometersToMicroLightYears 1) in
  plus this (ofVector vUly).

Definition offsetFromKm_rounded (this uc : UniversalCoord) : Vector3d :=
  vscale_rounded (mkVector3d (R128.toDouble (R128.sub (x this) (x uc)))
                             (R128.toDouble (R128.sub (y this) (y uc)))
                             (R128.toDouble (R128.sub (z this) (z uc))))
                 (astro.microLightYearsToKilometers 1).

Definition CreateLy_rounded (v : Vector3d) : UniversalCoord :=
  let vUly := vscale_rounded v 1e6 in
  ofDoubles (vx vUly) (vy vUly) (vz vUly).

Definition toLy_rounded (this : UniversalCoord) : Vector3d :=
  vscale_rounded (mkVector3d (R128.toDouble (x this))
                             (R128.toDouble (y this))
                             (R128.toDouble (z this)))
                 1e-6.

End Rounded.

End UniversalCoord.

(** ** celmath/geomutil.h *)

Module math.

(** Modelled from the spec: celmath/geomutil.h is not among the sources.
    [XRotation] and [YRotation] give the quaternion of the rotation by an
    angle about the x axis and about the y axis. *)
Definition XRotation (angle : double) : Quaterniond := AngleAxisX angle.

Definition YRotation (angle : double) : Quaterniond := AngleAxisY angle.

End math.

(** ** celephem/rotation.cpp *)

Module Rotation.

Definition ANGULAR_VELOCITY_DIFF_DELTA : double := 1 / 1440.

(** The virtual methods of a rotation model that the default angular
    velocity reads. *)
Record RotationModel := mkRotationModel {
  isPeriodic : bool;
  getPeriod : double;
  orientationAtTime : double -> Quaterniond
}.

(** [chooseDiffTimeDelta(rm)] reads [rm.isPeriodic()] and
    [rm.getPeriod()]. *)
Definition chooseDiffTimeDelta (rm_isPeriodic : bool) (rm_getPeriod : double)
  : double :=
  if rm_isPeriodic then rm_getPeriod / 10000
  else ANGULAR_VELOCITY_DIFF_DELTA.

(** [RotationModel::angularVelocityAtTime], the default implementation. *)
Definition RotationModel_angularVelocityAtTime
    (rm : RotationModel) (tdb : double) : Vector3d :=
  let dt := chooseDiffTimeDelta (isPeriodic rm) (getPeriod rm) in
  let q0 := orientationAtTime rm tdb in
  let q1 := orientationAtTime rm (tdb + dt) in
  let dq := qmul (conjugate q1) q0 in
  if Rlt_dec 0.99999999 (Rabs (qw dq)) then Eigen.Zero
  else vscale (normalized (qvec dq)) (2 * acos (qw dq) / dt).

(** [CachingRotationModel]: its mutable members.  The cached values are
    left without initial value by the constructor; the model starts them
    at the identity and at zero. *)
Record RotationCache := mkRotationCache {
  lastTime : double;
  lastSpin : Quaterniond;
  lastEquator : Quaterniond;
  lastAngularVelocity : Vector3d;
  spinCacheValid : bool;
  equatorCacheValid : bool;
  angularVelocityCacheValid : bool
}.

Definition CachingRotationModel_new : RotationCache :=
  mkRotationCache 365 Identity Identity Eigen.Zero false false false.

Section CachingRotationModel.

(** The virtual methods of the subclass. *)
Variable computeSpin : double -> Quaterniond.
Variable computeEquatorOrientation : double -> Quaterniond.
Variable periodic : bool.
Variable thePeriod : double.

Definition CachingRotationModel_spin (tjd : double) (c : RotationCache)
  : Quaterniond * RotationCache :=
  if double_neb tjd (lastTime c) then
    let c := mkRotationCache tjd (computeSpin tjd) (lastEquator c)
                             (lastAngularVelocity c) true false false in
    (lastSpin c, c)
  else if negb (spinCacheValid c) then
    let c := mkRotationCache (lastTime c) (computeSpin tjd) (lastEquator c)
                             (lastAngularVelocity c) true
                             (equatorCacheValid c) (angularVelocityCacheValid c) in
    (lastSpin c, c)
  else (lastSpin c, c).

Definition CachingRotationModel_equatorOrientationAtTime
    (tjd : double) (c : RotationCache) : Quaterniond * RotationCache :=
  if double_neb tjd (lastTime c) then
    let c := mkRotationCache tjd (lastSpin c) (computeEquatorOrientation tjd)
                             (lastAngularVelocity c) false true false in
    (lastEquator c, c)
  else if negb (equatorCacheValid c) then
    let c := mkRotationCache (lastTime c) (lastSpin c)
                             (computeEquatorOrientation tjd)
                             (lastAngularVelocity c) (spinCacheValid c) true
                             (angularVelocityCacheValid c) in
    (lastEquator c, c)
  else (lastEquator c, c).

(** [orientationAtTime] of the base class, which the caching model keeps:
    [spin(tjd) * equatorOrientationAtTime(tjd)], through the two cached
    methods, the spin first. *)
Definition CachingRotationModel_orientationAtTime
    (tjd : double) (c : RotationCache) : Quaterniond * RotationCache :=
  let (s, c) := CachingRotationModel_spin tjd c in
  let (e, c) := CachingRotationModel_equatorOrientationAtTime tjd c in
  (qmul s e, c).

Definition CachingRotationModel_computeAngularVelocity
    (tjd : double) (c : RotationCache) : Vector3d * RotationCache :=
  let dt := chooseDiffTimeDelta periodic thePeriod in
  let (q0, c) := CachingRotationModel_orientationAtTime tjd c in
  (* Call computeSpin/computeEquatorOrientation instead of
     orientationAtTime in order to avoid affecting the cache. *)
  let spin := computeSpin (tjd + dt) in
  let equator := computeEquatorOrientation (tjd + dt) in
  let q1 := qmul spin equator in
  let dq := qmul (conjugate q1) q0 in
  if Rlt_dec 0.99999999 (Rabs (qw dq)) then (Eigen.Zero, c)
  else (vscale (normalized (qvec dq)) (2 * acos (qw dq) / dt), c).

Definition CachingRotationModel_angularVelocityAtTime
    (tjd : double) (c : RotationCache) : Vector3d * RotationCache :=
  if double_neb tjd (lastTime c) then
    let (w, c) := CachingRotationModel_computeAngularVelocity tjd c in
    let c := mkRotationCache tjd (lastSpin c) (lastEquator c) w
                             false false true in
    (lastAngularVelocity c, c)
  else if negb (angularVelocityCacheValid c) then
    let (w, c) := CachingRotationModel_computeAngularVelocity tjd c in
    let c := mkRotationCache (lastTime c) (lastSpin c) (lastEquator c) w
                             (spinCacheValid c) (equatorCacheValid c) true in
    (lastAngularVelocity c, c)
  else (lastAngularVelocity c, c).

(** The calls a client of a caching rotation model makes. *)
Inductive Call :=
| Spin (tjd : double)
| EquatorOrientationAtTime (tjd : double)
| OrientationAtTime (tjd : double)
| AngularVelocityAtTime (tjd : double).

Definition perform (call : Call) (c : RotationCache) : RotationCache :=
  match call with
  | Spin tjd => snd (CachingRotationModel_spin tjd c)
  | EquatorOrientationAtTime tjd =>
      snd (CachingRotationModel_equatorOrientationAtTime tjd c)
  | OrientationAtTime tjd => snd (CachingRotationModel_orientationAtTime tjd c)
  | AngularVelocityAtTime tjd =>
      snd (CachingRotationModel_angularVelocityAtTime tjd c)
  end.

(** The cache of a model after a sequence of calls, the first call first. *)
Definition after (calls : list Call) : RotationCache :=
  fold_left (fun c call => perform call c) calls CachingRotationModel_new.

End CachingRotationModel.

(** [ConstantOrientation] *)
Definition ConstantOrientation_spin (orientation : Quaterniond) (_ : double)
  : Quaterniond := orientation.

Definition ConstantOrientation_angularVelocityAtTime (_ : double) : Vector3d :=
  Eigen.Zero.

(** [UniformRotationModel]; the [float] members are read as doubles. *)
Record UniformRotationModel := mkUniformRotationModel {
  period : double;
  offset : double;
  epoch : double;
  inclination : double;
  ascendingNode : double
}.

Definition UniformRotationModel_isPeriodic (_ : UniformRotationModel) : bool :=
  true.

Definition UniformRotationModel_getPeriod (u : UniformRotationModel) : double :=
  period u.

(** [std::floor] *)
Definition floor (x : double) : double := IZR (Int_part x).

Definition UniformRotationModel_spin
    (u : UniformRotationModel) (tjd : double) : Quaterniond :=
  let rotations := (tjd - epoch u) / period u in
  let wholeRotations := floor rotations in
  let remainder := rotations - wholeRotations in
  let remainder := remainder + 0.5 in
  math.YRotation (- remainder * 2 * PI - offset u).

(** [UniformRotationModel::spin] from its second line on: what it returns
    for the value [rotations] that the division of its first line has
    given, which is a rounded quotient in the source. *)
Definition UniformRotationModel_spinOfRotations
    (u : UniformRotationModel) (rotations : double) : Quaterniond :=
  let wholeRotations := floor rotations in
  let remainder := rotations - wholeRotations in
  let remainder := remainder + 0.5 in
  math.YRotation (- remainder * 2 * PI - offset u).

Definition UniformRotationModel_equatorOrientationAtTime
    (u : UniformRotationModel) (_ : double) : Quaterniond :=
  qmul (math.XRotation (- inclination u)) (math.YRotation (- ascendingNode u)).

Definition UniformRotationModel_angularVelocityAtTime
    (u : UniformRotationModel) (tdb : double) : Vector3d :=
  let v := rotate (conjugate (UniformRotationModel_equatorOrientationAtTime u tdb))
                  UnitY in
  vscale v (2 * PI / period u).

(** The orientation of a model is its spin after its equator orientation
    ([spin(t) * equatorOrientationAtTime(t)]). *)
Definition UniformRotationModel_orientationAtTime
    (u : UniformRotationModel) (tjd : double) : Quaterniond :=
  qmul (UniformRotationModel_spin u tjd)
       (UniformRotationModel_equatorOrientationAtTime u tjd).

(** A uniform rotation model seen through the base class. *)
Definition UniformRotationModel_base (u : UniformRotationModel) : RotationModel :=
  mkRotationModel (UniformRotationModel_isPeriodic u)
                  (UniformRotationModel_getPeriod u)
                  (UniformRotationModel_orientationAtTime u).

(** [PrecessingRotationModel]; the [float] members are read as doubles. *)
Record PrecessingRotationModel := mkPrecessingRotationModel {
  p_period : double;
  p_offset : double;
  p_epoch : double;
  p_inclination : double;
  p_ascendingNode : double;
  precessionPeriod : double
}.

Definition PrecessingRotationModel_isPeriodic (_ : PrecessingRotationModel)
  : bool := true.

Definition PrecessingRotationModel_getPeriod (p : PrecessingRotationModel)
  : double := p_period p.

Definition PrecessingRotationModel_spin
    (p : PrecessingRotationModel) (tjd : double) : Quaterniond :=
  let rotations := (tjd - p_epoch p) / p_period p in
  let wholeRotations := floor rotations in
  let remainder := rotations - wholeRotations in
  let remainder := remainder + 0.5 in
  math.YRotation (- remainder * 2 * PI - p_offset p).

Definition PrecessingRotationModel_equatorOrientationAtTime
    (p : PrecessingRotationModel) (tjd : double) : Quaterniond :=
  let nodeOfDate :=
    (* A precession rate of zero indicates no precession *)
    if Req_dec_T (precessionPeriod p) 0 then p_ascendingNode p
    else p_ascendingNode p - (2 * PI / precessionPeriod p) * (tjd - p_epoch p) in
  qmul (math.XRotation (- p_inclination p)) (math.YRotation (- nodeOfDate)).

(** The angular velocity as the specification words it: the axis times
    the angle over the time step, both read off a relative quaternion
    [dq], the axis being zero when the scalar part of [dq] is above the
    tolerance in magnitude. *)
Definition rotationAxis (dq : Quaterniond) : Vector3d :=
  if Rlt_dec 0.99999999 (Rabs (qw dq)) then Eigen.Zero
  else normalized (qvec dq).

Definition rotationAngle (dq : Quaterniond) : double := 2 * acos (qw dq).

Definition axisAngleRate (dq : Quaterniond) (delta : double) : Vector3d :=
  vscale (rotationAxis dq) (rotationAngle dq / delta).

(** The time step as the specification words it. *)
Definition specTimeStep (rm : RotationModel) : double :=
  if isPeriodic rm then getPeriod rm / 10000 else 1 / 1440.

(** The relative quaternion [q(t)^-1 * q(t + delta)] of the specification
    (orientations are unit quaternions, whose inverse is the conjugate),
    and the one with the two orientations exchanged. *)
Definition relativeForward (rm : RotationModel) (t : double) : Quaterniond :=
  qmul (conjugate (orientationAtTime rm t))
       (orientationAtTime rm (t + specTimeStep rm)).

Definition relativeBackward (rm : RotationModel) (t : double) : Quaterniond :=
  qmul (conjugate (orientationAtTime rm (t + specTimeStep rm)))
       (orientationAtTime rm t).

End Rotation.

(** ** celengine/selection.h *)

Module Selection.

(** Modelled from the spec: celengine/selection.h is not among the
    sources.  The specification describes a selection as a discriminated
    reference to one of None, Star, Body, Location and DeepSkyObject that
    does not own the object; the frame code reads its type and its
    [body()], [star()] and [location()] pointers.  Objects of the catalogs
    are named by their addresses. *)
Definition Star := nat.
Definition Body := nat.
Definition DeepSkyObject := nat.
Definition Location := nat.

Inductive SelectionType :=
| Type_None
| Type_Star
| Type_Body
| Type_DeepSky
| Type_Location.

(** A selection refers to at most one object, of one of four kinds. *)
Inductive Selection :=
| Sel_None
| Sel_Star (s : Star)
| Sel_Body (b : Body)
| Sel_DeepSky (d : DeepSkyObject)
| Sel_Location (l : Location).

Definition getType (sel : Selection) : SelectionType :=
  match sel with
  | Sel_None => Type_None
  | Sel_Star _ => Type_Star
  | Sel_Body _ => Type_Body
  | Sel_DeepSky _ => Type_DeepSky
  | Sel_Location _ => Type_Location
  end.

(** [body()], [star()] and [location()] give a null pointer unless the
    selection is of that kind. *)
Definition body (sel : Selection) : option Body :=
  match sel with Sel_Body b => Some b | _ => None end.

Definition star (sel : Selection) : option Star :=
  match sel with Sel_Star s => Some s | _ => None end.

Definition location (sel : Selection) : option Location :=
  match sel with Sel_Location l => Some l | _ => None end.

End Selection.

Import Selection.

(** ** celengine/frame.cpp *)

Module Frame.

(** Velocity for two-vector frames is computed by differentiation; units
    are Julian days. *)
Definition ANGULAR_VELOCITY_DIFF_DELTA : double := 1 / 1440.

Inductive FrameType := PositionFrame | OrientationFrame.

Inductive FrameVectorType := RelativePosition | RelativeVelocity | ConstantVector.

(** The frame classes, each with its members, and the frame vectors of a
    two-vector frame.  The frame of a constant vector may be null. *)
Inductive ReferenceFrame :=
| J2000EclipticFrame (centerObject : Selection)
| J2000EquatorFrame (centerObject : Selection)
| BodyFixedFrame (centerObject fixObject : Selection)
| BodyMeanEquatorFrame (centerObject equatorObject : Selection)
                       (freezeEpoch : double) (isFrozen : bool)
| TwoVectorFrame (centerObject : Selection)
                 (primaryVector : FrameVector) (primaryAxis : Z)
                 (secondaryVector : FrameVector) (secondaryAxis : Z)
                 (tertiaryAxis : Z)
with FrameVector :=
| mkFrameVector (vecType : FrameVectorType) (observer target : Selection)
                (vec : Vector3d) (frame : option ReferenceFrame).

Definition getCenter (f : ReferenceFrame) : Selection :=
  match f with
  | J2000EclipticFrame c => c
  | J2000EquatorFrame c => c
  | BodyFixedFrame c _ => c
  | BodyMeanEquatorFrame c _ _ _ => c
  | TwoVectorFrame c _ _ _ _ _ => c
  end.

(** The constructor of a two-vector frame chooses the tertiary axis.  It
    asserts that the two axes are among 1, 2, 3 in magnitude and differ in
    magnitude. *)
Definition TwoVectorFrame_new (center : Selection)
    (prim : FrameVector) (primAxis : Z) (sec : FrameVector) (secAxis : Z)
  : ReferenceFrame :=
  let tertiaryAxis :=
    if negb (Z.abs primAxis =? 1)%Z && negb (Z.abs secAxis =? 1)%Z then 1%Z
    else if negb (Z.abs primAxis =? 2)%Z && negb (Z.abs secAxis =? 2)%Z then 2%Z
    else 3%Z in
  TwoVectorFrame center prim primAxis sec secAxis tertiaryAxis.

(** The tertiary axis that the constructor of a two-vector frame
    chooses. *)
Definition TwoVectorFrame_tertiaryAxis (primAxis secAxis : Z) : Z :=
  if negb (Z.abs primAxis =? 1)%Z && negb (Z.abs secAxis =? 1)%Z then 1%Z
  else if negb (Z.abs primAxis =? 2)%Z && negb (Z.abs secAxis =? 2)%Z then 2%Z
  else 3%Z.

(** What the constructor of a two-vector frame asserts of its axes. *)
Definition validAxes (primAxis secAxis : Z) : Prop :=
  (primAxis <> 0 /\ secAxis <> 0
   /\ Z.abs primAxis <= 3 /\ Z.abs secAxis <= 3
   /\ Z.abs primAxis <> Z.abs secAxis)%Z.

Definition createRelativePositionVector (_observer _target : Selection)
  : FrameVector :=
  mkFrameVector RelativePosition _observer _target Eigen.Zero None.

Definition createRelativeVelocityVector (_observer _target : Selection)
  : FrameVector :=
  mkFrameVector RelativeVelocity _observer _target Eigen.Zero None.

Definition createConstantVector (_vec : Vector3d) (_frame : option ReferenceFrame)
  : FrameVector :=
  mkFrameVector ConstantVector Sel_None Sel_None _vec _frame.

(** What the frame code asks of the stars, bodies and locations of the
    catalogs (celengine/body.h, location.h, selection.h, which are not
    among the sources). *)
Record Catalog := mkCatalog {
  getPosition : Selection -> double -> UniversalCoord.UniversalCoord;
  getVelocity : Selection -> double -> Vector3d;
  getAstrocentricPosition : Body -> double -> Vector3d;
  getParentBody : Location -> option Body;
  getOrbitFrame : Body -> double -> option ReferenceFrame;
  getBodyFrame : Body -> double -> option ReferenceFrame
}.

(** *** ReferenceFrame *)

Section Orientation.

Variable catalog : Catalog.

(** The virtual [getOrientation] of the frames. *)
Variable getOrientation : ReferenceFrame -> double -> Quaterniond.

Definition convertFromAstrocentric
    (this : ReferenceFrame) (p : Vector3d) (tjd : double) : Vector3d :=
  let centerObject := getCenter this in
  match getType centerObject with
  | Type_Body =>
      match body centerObject with
      | Some b =>
          let center := getAstrocentricPosition catalog b tjd in
          rotate (getOrientation this tjd) (vsub p center)
      | None => Eigen.Zero (* no such selection: its type is Body *)
      end
  | Type_Star =>
      rotate (getOrientation this tjd) p
  | _ =>
      (* bad if the center object is a galaxy; what about locations? *)
      Eigen.Zero
  end.

Definition convertToAstrocentric
    (this : ReferenceFrame) (p : Vector3d) (tjd : double) : Vector3d :=
  let centerObject := getCenter this in
  match getType centerObject with
  | Type_Body =>
      match body centerObject with
      | Some b =>
          let center := getAstrocentricPosition catalog b tjd in
          vadd center (rotate (conjugate (getOrientation this tjd)) p)
      | None => Eigen.Zero (* no such selection: its type is Body *)
      end
  | Type_Star =>
      rotate (conjugate (getOrientation this tjd)) p
  | _ =>
      (* bad if the center object is a galaxy; what about locations? *)
      Eigen.Zero
  end.

(** The quaternion overloads of [convertFromUniversal] and
    [convertToUniversal]. *)
Definition convertFromUniversal_q
    (this : ReferenceFrame) (q : Quaterniond) (tjd : double) : Quaterniond :=
  qmul q (conjugate (getOrientation this tjd)).

Definition convertToUniversal_q
    (this : ReferenceFrame) (q : Quaterniond) (tjd : double) : Quaterniond :=
  qmul q (getOrientation this tjd).

(** [ReferenceFrame::getAngularVelocity], the default. *)
Definition getAngularVelocity (this : ReferenceFrame) (tjd : double) : Vector3d :=
  let q0 := getOrientation this tjd in
  let q1 := getOrientation this (tjd + ANGULAR_VELOCITY_DIFF_DELTA) in
  let dq := qmul (conjugate q0) q1 in
  if Rlt_dec 0.99999999 (Rabs (qw dq)) then Eigen.Zero
  else vscale (normalized (qvec dq))
              (2 * acos (qw dq) / ANGULAR_VELOCITY_DIFF_DELTA).

(** [FrameVector::direction] *)
Definition direction (fv : FrameVector) (tjd : double) : Vector3d :=
  match fv with
  | mkFrameVector vecType observer target vec frame =>
      match vecType with
      | RelativePosition =>
          UniversalCoord.offsetFromKm (getPosition catalog target tjd)
                                      (getPosition catalog observer tjd)
      | RelativeVelocity =>
          let v0 := getVelocity catalog observer tjd in
          let v1 := getVelocity catalog target tjd in
          vsub v1 v0
      | ConstantVector =>
          match frame with
          | None => vec
          | Some f => rotate (conjugate (getOrientation f tjd)) vec
          end
      end
  end.

(** *** TwoVectorFrame *)

(** Minimum angle permitted between primary and secondary axes of a
    two-vector frame. *)
Definition Tolerance : double := 1e-6.

(** [TwoVectorFrame::computeOrientation], on the members of the frame. *)
Definition TwoVectorFrame_computeOrientation
    (primaryVector : FrameVector) (primaryAxis : Z)
    (secondaryVector : FrameVector) (secondaryAxis : Z)
    (tertiaryAxis : Z) (tjd : double) : Quaterniond :=
  let v0 := direction primaryVector tjd in
  let v1 := direction secondaryVector tjd in
  let v0 := normalized v0 in
  let v1 := normalized v1 in
  let v0 := if (primaryAxis <? 0)%Z then vneg v0 else v0 in
  let v1 := if (secondaryAxis <? 0)%Z then vneg v1 else v1 in
  let v2 := cross v0 v1 in
  let length := norm v2 in
  if Rlt_dec length Tolerance then
    (* Just return identity . . . *)
    Identity
  else
    let v2 := vdiv v2 length in
    let rhAxis := (Z.abs primaryAxis + 1)%Z in
    let rhAxis := if (3 <? rhAxis)%Z then 1%Z else rhAxis in
    let rhOrder := (rhAxis =? Z.abs secondaryAxis)%Z in
    let m := setRow zeroMatrix (Z.abs primaryAxis - 1) v0 in
    let m :=
      if rhOrder then
        let m := setRow m (Z.abs secondaryAxis - 1) (cross v2 v0) in
        setRow m (Z.abs tertiaryAxis - 1) v2
      else
        let m := setRow m (Z.abs secondaryAxis - 1) (cross v0 (vneg v2)) in
        setRow m (Z.abs tertiaryAxis - 1) (vneg v2) in
    ofRotationMatrix m.

(** The sign corrected, normalized primary and secondary directions of
    [TwoVectorFrame::computeOrientation]. *)
Definition TwoVectorFrame_directions
    (primaryVector : FrameVector) (primaryAxis : Z)
    (secondaryVector : FrameVector) (secondaryAxis : Z) (tjd : double)
  : Vector3d * Vector3d :=
  let v0 := direction primaryVector tjd in
  let v1 := direction secondaryVector tjd in
  let v0 := normalized v0 in
  let v1 := normalized v1 in
  let v0 := if (primaryAxis <? 0)%Z then vneg v0 else v0 in
  let v1 := if (secondaryAxis <? 0)%Z then vneg v1 else v1 in
  (v0, v1).

(** The matrix [m] that [TwoVectorFrame::computeOrientation] assembles
    before it converts it to a quaternion; there is none in the
    degenerate case. *)
Definition TwoVectorFrame_matrix
    (primaryVector : FrameVector) (primaryAxis : Z)
    (secondaryVector : FrameVector) (secondaryAxis : Z)
    (tertiaryAxis : Z) (tjd : double) : option Matrix3d :=
  let (v0, v1) := TwoVectorFrame_directions primaryVector primaryAxis
                    secondaryVector secondaryAxis tjd in
  let v2 := cross v0 v1 in
  let length := norm v2 in
  if Rlt_dec length Tolerance then None
  else
    let v2 := vdiv v2 length in
    let rhAxis := (Z.abs primaryAxis + 1)%Z in
    let rhAxis := if (3 <? rhAxis)%Z then 1%Z else rhAxis in
    let rhOrder := (rhAxis =? Z.abs secondaryAxis)%Z in
    let m := setRow zeroMatrix (Z.abs primaryAxis - 1) v0 in
    let m :=
      if rhOrder then
        let m := setRow m (Z.abs secondaryAxis - 1) (cross v2 v0) in
        setRow m (Z.abs tertiaryAxis - 1) v2
      else
        let m := setRow m (Z.abs secondaryAxis - 1) (cross v0 (vneg v2)) in
        setRow m (Z.abs tertiaryAxis - 1) (vneg v2) in
    Some m.

(** The orientation that a frame computes when it is a two-vector frame
    (the other classes are not caching frames). *)
Definition computeOrientation (this : ReferenceFrame) (tjd : double)
  : option Quaterniond :=
  match this with
  | TwoVectorFrame _ prim primAxis sec secAxis tertAxis =>
      Some (TwoVectorFrame_computeOrientation prim primAxis sec secAxis tertAxis tjd)
  | _ => None
  end.

End Orientation.

(** [J2000EquatorFrame::getOrientation]; [J2000Obliquity] stands for the
    constant [astro::J2000Obliquity], whose value is not among the
    sources. *)
Definition J2000EquatorFrame_getOrientation (J2000Obliquity : double)
    (_ : double) : Quaterniond :=
  AngleAxisX J2000Obliquity.

(** What the body-fixed and the mean-equator frames ask of the bodies and
    of the rotation models of the stars (celengine/body.h and star.h,
    which are not among the sources).  [Star_orientationAtTime s] stands
    for [s->getRotationModel()->orientationAtTime], and likewise the
    other two; [bodyFrameAngularVelocity b tjd] stands for
    [b->getBodyFrame(tjd)->getAngularVelocity(tjd)]. *)
Record Ephemeris := mkEphemeris {
  getEclipticToBodyFixed : Body -> double -> Quaterniond;
  getEclipticToEquatorial : Body -> double -> Quaterniond;
  Body_getAngularVelocity : Body -> double -> Vector3d;
  bodyFrameAngularVelocity : Body -> double -> Vector3d;
  Star_orientationAtTime : Star -> double -> Quaterniond;
  Star_equatorOrientationAtTime : Star -> double -> Quaterniond;
  Star_angularVelocityAtTime : Star -> double -> Vector3d
}.

(** *** BodyFixedFrame *)

(** Rotation of 180 degrees about the y axis, [Quaterniond(0, 0, 1, 0)]. *)
Definition yrot180 : Quaterniond := mkQuaterniond 0 0 1 0.

Definition BodyFixedFrame_getOrientation
    (catalog : Catalog) (eph : Ephemeris) (fixObject : Selection)
    (tjd : double) : Quaterniond :=
  match fixObject with
  | Sel_Body b => qmul yrot180 (getEclipticToBodyFixed eph b tjd)
  | Sel_Star s => qmul yrot180 (Star_orientationAtTime eph s tjd)
  | Sel_Location l =>
      match getParentBody catalog l with
      | Some b => qmul yrot180 (getEclipticToBodyFixed eph b tjd)
      | None => yrot180
      end
  | _ => yrot180
  end.

Definition BodyFixedFrame_getAngularVelocity
    (catalog : Catalog) (eph : Ephemeris) (fixObject : Selection)
    (tjd : double) : Vector3d :=
  match fixObject with
  | Sel_Body b => Body_getAngularVelocity eph b tjd
  | Sel_Star s => Star_angularVelocityAtTime eph s tjd
  | Sel_Location l =>
      match getParentBody catalog l with
      | Some b => Body_getAngularVelocity eph b tjd
      | None => Eigen.Zero
      end
  | _ => Eigen.Zero
  end.

(** *** BodyMeanEquatorFrame *)

Definition BodyMeanEquatorFrame_getOrientation
    (eph : Ephemeris) (equatorObject : Selection)
    (freezeEpoch : double) (isFrozen : bool) (tjd : double) : Quaterniond :=
  let t := if isFrozen then freezeEpoch else tjd in
  match equatorObject with
  | Sel_Body b => getEclipticToEquatorial eph b t
  | Sel_Star s => Star_equatorOrientationAtTime eph s t
  | _ => Identity
  end.

Definition BodyMeanEquatorFrame_getAngularVelocity
    (eph : Ephemeris) (equatorObject : Selection)
    (isFrozen : bool) (tjd : double) : Vector3d :=
  if isFrozen then Eigen.Zero
  else
    match body equatorObject with
    | Some b => bodyFrameAngularVelocity eph b tjd
    | None => Eigen.Zero
    end.

(** *** isInertial *)

Definition J2000EclipticFrame_isInertial : bool := true.

Definition J2000EquatorFrame_isInertial : bool := true.

Definition BodyFixedFrame_isInertial : bool := false.

(** [bodyFrameIsInertial b] stands for
    [b->getBodyFrame(0.0)->isInertial()]. *)
Definition BodyMeanEquatorFrame_isInertial
    (bodyFrameIsInertial : Body -> bool)
    (equatorObject : Selection) (isFrozen : bool) : bool :=
  if isFrozen then true
  else
    match body equatorObject with
    | Some b => bodyFrameIsInertial b
    | None => true
    end.

Definition TwoVectorFrame_isInertial : bool :=
  (* Although it's possible to specify an inertial two-vector frame, we
     won't bother trying to distinguish these cases: all two-vector frames
     will be treated as non-inertial. *)
  true.

(** The virtual [isInertial]. *)
Definition isInertial (bodyFrameIsInertial : Body -> bool) (this : ReferenceFrame)
  : bool :=
  match this with
  | J2000EclipticFrame _ => J2000EclipticFrame_isInertial
  | J2000EquatorFrame _ => J2000EquatorFrame_isInertial
  | BodyFixedFrame _ _ => BodyFixedFrame_isInertial
  | BodyMeanEquatorFrame _ equatorObject _ isFrozen =>
      BodyMeanEquatorFrame_isInertial bodyFrameIsInertial equatorObject isFrozen
  | TwoVectorFrame _ _ _ _ _ _ => TwoVectorFrame_isInertial
  end.

(** *** nestingDepth *)

(** What a call gives: a depth; or nothing, when it dereferences the null
    frame of a constant vector; or nothing within the allowed number of
    nested calls of [getFrameDepth]. *)
Inductive Outcome :=
| Depth (n : N)
| NullFrame
| OutOfFuel.

Definition andThen (r : Outcome) (k : N -> Outcome) : Outcome :=
  match r with
  | Depth n => k n
  | NullFrame => NullFrame
  | OutOfFuel => OutOfFuel
  end.

(** [depth + 1] on [unsigned int]. *)
Definition succ_uint (depth : N) : N := ((depth + 1) mod 2 ^ 32)%N.

(** Every constant vector inside the frame has a frame (its [frame] member
    is not null). *)
Fixpoint framesAttached (f : ReferenceFrame) : bool :=
  match f with
  | TwoVectorFrame _ primaryVector _ secondaryVector _ _ =>
      vectorAttached primaryVector && vectorAttached secondaryVector
  | _ => true
  end
with vectorAttached (fv : FrameVector) : bool :=
  match fv with
  | mkFrameVector ConstantVector _ _ _ None => false
  | mkFrameVector ConstantVector _ _ _ (Some f) => framesAttached f
  | mkFrameVector _ _ _ _ _ => true
  end.

Section NestingDepth.

Variable catalog : Catalog.

(** The virtual [nestingDepth(depth, maxDepth, frameType)] of the frame
    classes and [FrameVector::nestingDepth]; [getFrameDepth] stands for
    the static function of that name. *)
Fixpoint frameNestingDepth
    (getFrameDepth : Selection -> N -> N -> FrameType -> Outcome)
    (this : ReferenceFrame) (depth maxDepth : N) (frameType : FrameType)
    {struct this} : Outcome :=
  match this with
  | J2000EclipticFrame center =>
      getFrameDepth center depth maxDepth PositionFrame
  | J2000EquatorFrame center =>
      getFrameDepth center depth maxDepth PositionFrame
  | BodyFixedFrame center fixObject =>
      andThen (getFrameDepth center depth maxDepth PositionFrame) (fun n =>
      if (maxDepth <? n)%N then Depth n
      else
        andThen (getFrameDepth fixObject depth maxDepth OrientationFrame) (fun m =>
        Depth (N.max m n)))
  | BodyMeanEquatorFrame center equatorObject _ _ =>
      andThen (getFrameDepth center depth maxDepth PositionFrame) (fun n =>
      if (maxDepth <? n)%N then Depth n
      else
        andThen (getFrameDepth equatorObject depth maxDepth OrientationFrame) (fun m =>
        Depth (N.max m n)))
  | TwoVectorFrame center primaryVector _ secondaryVector _ _ =>
      andThen (getFrameDepth center depth maxDepth PositionFrame) (fun n =>
      if (maxDepth <? n)%N then Depth n
      else
        andThen (vectorNestingDepth getFrameDepth primaryVector depth maxDepth) (fun m =>
        let n := N.max m n in
        if (maxDepth <? n)%N then Depth n
        else
          andThen (vectorNestingDepth getFrameDepth secondaryVector depth maxDepth) (fun m =>
          Depth (N.max m n))))
  end
with vectorNestingDepth
    (getFrameDepth : Selection -> N -> N -> FrameType -> Outcome)
    (this : FrameVector) (depth maxDepth : N) {struct this} : Outcome :=
  match this with
  | mkFrameVector vecType observer target _ frame =>
      match vecType with
      | RelativePosition | RelativeVelocity =>
          andThen (getFrameDepth observer depth maxDepth PositionFrame) (fun n =>
          if (maxDepth <? n)%N then Depth n
          else
            andThen (getFrameDepth target depth maxDepth PositionFrame) (fun m =>
            Depth (N.max m n)))
      | ConstantVector =>
          if (maxDepth <? depth)%N then Depth depth
          else
            match frame with
            | None => NullFrame
            | Some f =>
                frameNestingDepth getFrameDepth f (succ_uint depth) maxDepth
                                  OrientationFrame
            end
      end
  end.

(** The static [getFrameDepth]; [fuel] bounds how many calls of it may be
    nested. *)
Fixpoint getFrameDepth (fuel : nat) (sel : Selection) (depth maxDepth : N)
    (frameType : FrameType) {struct fuel} : Outcome :=
  if (maxDepth <? depth)%N then Depth depth
  else
    let body :=
      match location sel with
      | Some l => getParentBody catalog l
      | None => Selection.body sel
      end in
    match body with
    | None => Depth depth
    | Some b =>
        let nested :=
          match fuel with
          | O => fun _ _ _ _ => OutOfFuel
          | S fuel' => getFrameDepth fuel'
          end in
        let orbitFrameDepth := depth in
        let bodyFrameDepth := depth in
        let bodyFramePart (orbitFrameDepth : N) : Outcome :=
          match getBodyFrame catalog b 0, frameType with
          | Some bodyFrame, OrientationFrame =>
              andThen (frameNestingDepth nested bodyFrame (succ_uint depth)
                                         maxDepth frameType)
                      (fun bodyFrameDepth =>
                         Depth (N.max orbitFrameDepth bodyFrameDepth))
          | _, _ => Depth (N.max orbitFrameDepth bodyFrameDepth)
          end in
        (* TODO: need to check /all/ orbit frames of body *)
        match getOrbitFrame catalog b 0, frameType with
        | Some orbitFrame, PositionFrame =>
            andThen (frameNestingDepth nested orbitFrame (succ_uint depth)
                                       maxDepth frameType)
                    (fun orbitFrameDepth =>
                       if (maxDepth <? orbitFrameDepth)%N then Depth orbitFrameDepth
                       else bodyFramePart orbitFrameDepth)
        | _, _ => bodyFramePart orbitFrameDepth
        end
    end.

(** [ReferenceFrame::nestingDepth(maxDepth, frameType)]: the walk starts at
    depth 0.  Every nested call of [getFrameDepth] is made at a depth one
    more than its caller's and none at a depth above [maxDepth + 1], so
    [maxDepth + 1] nested calls are allowed. *)
Definition nestingDepth (this : ReferenceFrame) (maxDepth : N)
    (frameType : FrameType) : Outcome :=
  frameNestingDepth (getFrameDepth (N.to_nat maxDepth + 1)) this 0 maxDepth
                    frameType.

End NestingDepth.

(** *** CachingFrame *)

(** The mutable members of a caching frame.  [computed] is no member of
    the class: it lists the times at which [computeOrientation] has been
    called, the latest first. *)
Record Cache := mkCache {
  lastTime : double;
  lastOrientation : Quaterniond;
  lastAngularVelocity : Vector3d;
  orientationCacheValid : bool;
  angularVelocityCacheValid : bool;
  computed : list double
}.

Definition set_lastTime (v : double) (c : Cache) : Cache :=
  mkCache v (lastOrientation c) (lastAngularVelocity c)
          (orientationCacheValid c) (angularVelocityCacheValid c) (computed c).

Definition set_lastOrientation (v : Quaterniond) (c : Cache) : Cache :=
  mkCache (lastTime c) v (lastAngularVelocity c)
          (orientationCacheValid c) (angularVelocityCacheValid c) (computed c).

Definition set_lastAngularVelocity (v : Vector3d) (c : Cache) : Cache :=
  mkCache (lastTime c) (lastOrientation c) v
          (orientationCacheValid c) (angularVelocityCacheValid c) (computed c).

Definition set_orientationCacheValid (v : bool) (c : Cache) : Cache :=
  mkCache (lastTime c) (lastOrientation c) (lastAngularVelocity c)
          v (angularVelocityCacheValid c) (computed c).

Definition set_angularVelocityCacheValid (v : bool) (c : Cache) : Cache :=
  mkCache (lastTime c) (lastOrientation c) (lastAngularVelocity c)
          (orientationCacheValid c) v (computed c).

(** [CachingFrame::CachingFrame] *)
Definition CachingFrame_new : Cache :=
  mkCache (-1.0e50) Identity (mkVector3d 0 0 0) false false [].

Section CachingFrame.

(** The abstract [computeOrientation] of the subclass. *)
Variable computeOrientation : double -> Quaterniond.

Definition call_computeOrientation (tjd : double) (c : Cache)
  : Quaterniond * Cache :=
  (computeOrientation tjd,
   mkCache (lastTime c) (lastOrientation c) (lastAngularVelocity c)
           (orientationCacheValid c) (angularVelocityCacheValid c)
           (tjd :: computed c)).

Definition CachingFrame_getOrientation (tjd : double) (c : Cache)
  : Quaterniond * Cache :=
  if double_neb tjd (lastTime c) then
    let c := set_lastTime tjd c in
    let (q, c) := call_computeOrientation tjd c in
    let c := set_lastOrientation q c in
    let c := set_orientationCacheValid true c in
    let c := set_angularVelocityCacheValid false c in
    (lastOrientation c, c)
  else if negb (orientationCacheValid c) then
    let (q, c) := call_computeOrientation tjd c in
    let c := set_lastOrientation q c in
    let c := set_orientationCacheValid true c in
    (lastOrientation c, c)
  else
    (lastOrientation c, c).

(** [CachingFrame::computeAngularVelocity], the default. *)
Definition CachingFrame_computeAngularVelocity (tjd : double) (c : Cache)
  : Vector3d * Cache :=
  let (q0, c) := CachingFrame_getOrientation tjd c in
  (* Call computeOrientation() instead of getOrientation() so that we
     don't affect the cached value. *)
  let (q1, c) := call_computeOrientation (tjd + ANGULAR_VELOCITY_DIFF_DELTA) c in
  let dq := qmul (conjugate q0) q1 in
  if Rlt_dec 0.99999999 (Rabs (qw dq)) then (Eigen.Zero, c)
  else (vscale (normalized (qvec dq))
               (2 * acos (qw dq) / ANGULAR_VELOCITY_DIFF_DELTA), c).

Definition CachingFrame_getAngularVelocity (tjd : double) (c : Cache)
  : Vector3d * Cache :=
  if double_neb tjd (lastTime c) then
    let c := set_lastTime tjd c in
    let (w, c) := CachingFrame_computeAngularVelocity tjd c in
    let c := set_lastAngularVelocity w c in
    let c := set_orientationCacheValid false c in
    let c := set_angularVelocityCacheValid true c in
    (lastAngularVelocity c, c)
  else if negb (angularVelocityCacheValid c) then
    let (w, c) := CachingFrame_computeAngularVelocity tjd c in
    let c := set_lastAngularVelocity w c in
    let c := set_angularVelocityCacheValid true c in
    (lastAngularVelocity c, c)
  else
    (lastAngularVelocity c, c).

(** The calls a client of a caching frame makes. *)
Inductive Call :=
| GetOrientation (tjd : double)
| GetAngularVelocity (tjd : double).

Definition perform (call : Call) (c : Cache) : Cache :=
  match call with
  | GetOrientation tjd => snd (CachingFrame_getOrientation tjd c)
  | GetAngularVelocity tjd => snd (CachingFrame_getAngularVelocity tjd c)
  end.

(** The cache of a frame after a sequence of calls, the first call first. *)
Definition after (calls : list Call) : Cache :=
  fold_left (fun c call => perform call c) calls CachingFrame_new.

End CachingFrame.

End Frame.

(** ** celengine/timelinephase.cpp *)

Module Timeline.
Import Frame.

(** Orbits and rotation models are held by shared pointers and only
    stored in a phase: they are named by their addresses. *)
Definition Orbit := nat.
Definition RotationModelPtr := nat.

(** A frame tree is owned by a body or by the solar system of a star. *)
Inductive FrameTreePtr :=
| BodyFrameTree (b : Body)
| SolarSystemFrameTree (s : Star).

Record TimelinePhase := mkTimelinePhase {
  m_body : Body;
  m_startTime : double;
  m_endTime : double;
  m_orbitFrame : ReferenceFrame;
  m_orbit : Orbit;
  m_bodyFrame : ReferenceFrame;
  m_rotationModel : RotationModelPtr;
  m_owner : FrameTreePtr
}.

(** Modelled from the spec: celengine/frametree.h, body.h and universe.h
    are not among the sources.  A frame tree node keeps the phases
    registered with it as children; the frame tree of a body and the solar
    system of a star (with its frame tree) are created when they are first
    asked for. *)
Record FrameTree := mkFrameTree { children : list TimelinePhase }.

Record Universe := mkUniverse {
  bodyFrameTrees : gmap nat FrameTree;
  solarSystems : gmap nat FrameTree
}.

(** [body->getOrCreateFrameTree()] *)
Definition getOrCreateFrameTree (b : Body) (universe : Universe)
  : FrameTreePtr * Universe :=
  match bodyFrameTrees universe !! b with
  | Some _ => (BodyFrameTree b, universe)
  | None =>
      (BodyFrameTree b,
       mkUniverse (<[b := mkFrameTree []]> (bodyFrameTrees universe))
                  (solarSystems universe))
  end.

(** [universe.getOrCreateSolarSystem(star)]; a solar system is named by
    its star. *)
Definition getOrCreateSolarSystem (s : Star) (universe : Universe)
  : Star * Universe :=
  match solarSystems universe !! s with
  | Some _ => (s, universe)
  | None =>
      (s,
       mkUniverse (bodyFrameTrees universe)
                  (<[s := mkFrameTree []]> (solarSystems universe)))
  end.

(** [solarSystem->getFrameTree()] *)
Definition getFrameTree (solarSystem : Star) : FrameTreePtr :=
  SolarSystemFrameTree solarSystem.

Definition addPhase (phase : TimelinePhase) (tree : FrameTree) : FrameTree :=
  mkFrameTree (children tree ++ [phase]).

(** [frameTree->addChild(phase)] *)
Definition addChild (frameTree : FrameTreePtr) (phase : TimelinePhase)
    (universe : Universe) : Universe :=
  match frameTree with
  | BodyFrameTree b =>
      mkUniverse (alter (addPhase phase) b (bodyFrameTrees universe))
                 (solarSystems universe)
  | SolarSystemFrameTree s =>
      mkUniverse (bodyFrameTrees universe)
                 (alter (addPhase phase) s (solarSystems universe))
  end.

(** The children of a frame tree of the universe, none when the tree does
    not exist. *)
Definition childrenOf (frameTree : FrameTreePtr) (universe : Universe)
  : list TimelinePhase :=
  let tree :=
    match frameTree with
    | BodyFrameTree b => bodyFrameTrees universe !! b
    | SolarSystemFrameTree s => solarSystems universe !! s
    end in
  match tree with
  | Some t => children t
  | None => []
  end.

(** [TimelinePhase::CreateTimelinePhase]: the phase, or [None] for the
    null pointer, and the universe afterwards. *)
Definition CreateTimelinePhase (universe : Universe) (body : Body)
    (startTime endTime : double)
    (orbitFrame : ReferenceFrame) (orbit : Orbit)
    (bodyFrame : ReferenceFrame) (rotationModel : RotationModelPtr)
  : option TimelinePhase * Universe :=
  (* Validate the time range. *)
  if Rle_dec endTime startTime then (None, universe)
  else
    (* Get the frame tree to add the new phase to. Verify that the
       reference frame center is either a star or solar system body. *)
    let center := getCenter orbitFrame in
    let create (frameTree : FrameTreePtr) (universe : Universe) :=
      let phase := mkTimelinePhase body startTime endTime orbitFrame orbit
                                   bodyFrame rotationModel frameTree in
      let universe := addChild frameTree phase universe in
      (Some phase, universe) in
    match Selection.body center with
    | Some b =>
        let (frameTree, universe) := getOrCreateFrameTree b universe in
        create frameTree universe
    | None =>
        match Selection.star center with
        | Some s =>
            let (solarSystem, universe) := getOrCreateSolarSystem s universe in
            let frameTree := getFrameTree solarSystem in
            create frameTree universe
        | None =>
            (* Frame center is not a star or body. *)
            (None, universe)
        end
    end.

End Timeline.

(** * Properties *)

Lemma double_neb_false (a b : double) : double_neb a b = false <-> a = b.
Proof.
  unfold double_neb. destruct (Req_dec_T a b); split; congruence.
Qed.

Lemma double_neb_true (a b : double) : double_neb a b = true <-> a <> b.
Proof.
  unfold double_neb. destruct (Req_dec_T a b); split; congruence.
Qed.

(** ** Vectors and quaternions *)

Module EigenFacts.

Lemma rotate_conjugate_rotate (q : Quaterniond) (v : Vector3d) :
  isUnit q -> rotate (conjugate q) (rotate q v) = v.
Proof.
  destruct q as [w x y z], v as [a b c].
  unfold isUnit, qsquaredNorm; cbn [qw qx qy qz]. intros H.
  cbv [rotate conjugate cross vadd vscale qvec vx vy vz qw qx qy qz].
  f_equal; nsatz.
Qed.

Lemma rotate_rotate_conjugate (q : Quaterniond) (v : Vector3d) :
  isUnit q -> rotate q (rotate (conjugate q) v) = v.
Proof.
  destruct q as [w x y z], v as [a b c].
  unfold isUnit, qsquaredNorm; cbn [qw qx qy qz]. intros H.
  cbv [rotate conjugate cross vadd vscale qvec vx vy vz qw qx qy qz].
  f_equal; nsatz.
Qed.

Lemma squaredNorm_rotate (q : Quaterniond) (v : Vector3d) :
  isUnit q -> squaredNorm (rotate q v) = squaredNorm v.
Proof.
  destruct q as [w x y z], v as [a b c].
  unfold isUnit, qsquaredNorm; cbn [qw qx qy qz]. intros H.
  cbv [squaredNorm rotate cross vadd vscale qvec vx vy vz qw qx qy qz].
  nsatz.
Qed.

Lemma isUnit_conjugate (q : Quaterniond) : isUnit q -> isUnit (conjugate q).
Proof.
  unfold isUnit, qsquaredNorm, conjugate; cbn [qw qx qy qz]. intros H.
  rewrite <- H. ring.
Qed.

Lemma qsquaredNorm_qmul (a b : Quaterniond) :
  qsquaredNorm (qmul a b) = qsquaredNorm a * qsquaredNorm b.
Proof.
  unfold qsquaredNorm, qmul; cbn [qw qx qy qz]. ring.
Qed.

Lemma isUnit_qmul (a b : Quaterniond) :
  isUnit a -> isUnit b -> isUnit (qmul a b).
Proof.
  unfold isUnit. intros Ha Hb. rewrite qsquaredNorm_qmul, Ha, Hb. ring.
Qed.

Lemma isUnit_AngleAxisX (angle : double) : isUnit (AngleAxisX angle).
Proof.
  unfold isUnit, qsquaredNorm, AngleAxisX; cbn [qw qx qy qz].
  pose proof (sin2_cos2 (angle / 2)) as H. unfold Rsqr in H. lra.
Qed.

Lemma isUnit_AngleAxisY (angle : double) : isUnit (AngleAxisY angle).
Proof.
  unfold isUnit, qsquaredNorm, AngleAxisY; cbn [qw qx qy qz].
  pose proof (sin2_cos2 (angle / 2)) as H. unfold Rsqr in H. lra.
Qed.

Lemma qmul_conjugate_cancel_r (q o : Quaterniond) :
  isUnit o -> qmul (qmul q (conjugate o)) o = q.
Proof.
  destruct q as [w x y z], o as [a b c d].
  unfold isUnit, qsquaredNorm; cbn [qw qx qy qz]. intros H.
  unfold qmul, conjugate; cbn [qw qx qy qz]. f_equal; nsatz.
Qed.

Lemma qmul_cancel_conjugate_r (q o : Quaterniond) :
  isUnit o -> qmul (qmul q o) (conjugate o) = q.
Proof.
  destruct q as [w x y z], o as [a b c d].
  unfold isUnit, qsquaredNorm; cbn [qw qx qy qz]. intros H.
  unfold qmul, conjugate; cbn [qw qx qy qz]. f_equal; nsatz.
Qed.

End EigenFacts.

(** ** Universal coordinates *)

Module UniversalCoordFacts.
Import UniversalCoord.
Local Open Scope Z_scope.

Lemma wrap_small (a : Z) : R128.wf a -> R128.wrap a = a.
Proof. intros H. unfold R128.wrap. apply Z.mod_small. exact H. Qed.

Lemma add_sub_cancel (a b : R128.R128) :
  R128.wf a -> R128.sub (R128.add a b) b = a.
Proof.
  intros H. unfold R128.sub, R128.add, R128.wrap.
  rewrite Zminus_mod_idemp_l.
  replace (a + b - b)%Z with a by lia.
  apply Z.mod_small. exact H.
Qed.

Lemma sub_add_cancel (a b : R128.R128) :
  R128.wf a -> R128.add (R128.sub a b) b = a.
Proof.
  intros H. unfold R128.sub, R128.add, R128.wrap.
  rewrite Zplus_mod_idemp_l.
  replace (a - b + b)%Z with a by lia.
  apply Z.mod_small. exact H.
Qed.

(** C10: for universal coordinates [a] and [b], [(a + b) - b] and
    [(a - b) + b] are [a] itself, in every component: addition and
    subtraction of the R128 components are exact, wrapping operations on
    128-bit patterns. *)
Theorem plus_minus_cancel (a b : UniversalCoord) :
  wf a ->
  minus (plus a b) b = a /\ plus (minus a b) b = a.
Proof.
  intros (Hx & Hy & Hz). destruct a as [ax ay az]; simpl in *.
  unfold minus, plus; simpl. split.
  - rewrite !add_sub_cancel by assumption. reflexivity.
  - rewrite !sub_add_cancel by assumption. reflexivity.
Qed.

Lemma plus_minus_cancel_witness :
  let a := mkUniversalCoord 5 (R128.modulus - 1) 0 in
  let b := mkUniversalCoord (R128.modulus - 2) 7 (R128.modulus - 1) in
  minus (plus a b) b = a /\ plus (minus a b) b = a.
Proof.
  apply (plus_minus_cancel
           (mkUniversalCoord 5 (R128.modulus - 1) 0)
           (mkUniversalCoord (R128.modulus - 2) 7 (R128.modulus - 1))).
  unfold wf, R128.wf, R128.modulus; simpl. lia.
Defined.

(** The raw value of a non-negative double below 2^63 is the integer
    part of its 2^64-fold. *)
Lemma fromDouble_nonneg (v : double) :
  (0 <= v < 9223372036854775808)%R ->
  R128.fromDouble v = Int_part (v * R128.two64) /\
  (0 <= Int_part (v * R128.two64) < 2 ^ 127)%Z.
Proof.
  intros [H0 H1].
  pose proof (base_Int_part (v * R128.two64)) as [Hle Hgt].
  set (n := Int_part (v * R128.two64)) in *.
  assert (Hn0 : (0 <= n)%Z).
  { apply Z.lt_succ_r. apply lt_IZR. rewrite succ_IZR.
    unfold R128.two64 in *. nra. }
  assert (Hn1 : (n < 2 ^ 127)%Z).
  { apply lt_IZR. change (2 ^ 127)%Z with 170141183460469231731687303715884105728%Z.
    unfold R128.two64 in *. nra. }
  split; [| lia].
  unfold R128.fromDouble.
  destruct (Rlt_dec v (- 9223372036854775808)) as [H | _]; [lra |].
  destruct (Rle_dec 9223372036854775808 v) as [H | _]; [lra |].
  destruct (Rlt_dec v 0) as [H | _]; [lra |].
  fold n. unfold R128.wrap, R128.modulus. apply Z.mod_small.
  change (2 ^ 128)%Z with (2 * 2 ^ 127)%Z. lia.
Qed.

(** What a raw value in the lower half of the range converts to. *)
Lemma toDouble_sub_zero (n : Z) :
  (0 <= n < 2 ^ 127)%Z ->
  R128.toDouble (R128.sub n R128.zero) = (IZR n / R128.two64)%R.
Proof.
  intros H. unfold R128.toDouble, R128.sub, R128.zero, R128.wrap, R128.modulus.
  rewrite Z.sub_0_r, Z.mod_small
    by (change (2 ^ 128)%Z with (2 * 2 ^ 127)%Z; lia).
  unfold R128.signed. destruct (Z.ltb_spec n (2 ^ 127)); [reflexivity | lia].
Qed.

(** C1, at the vector (1, 0, 0) km: [CreateKm] followed by [offsetFromKm]
    against [Zero] does not give 1 km back in the first component but more
    than 8.9e13 km, since [CreateKm] scales by the number of kilometers in
    a micro light year a first time and [offsetFromKm] a second time. *)
Theorem CreateKm_offsetFromKm_unit_x :
  (vx (offsetFromKm (CreateKm (mkVector3d 1 0 0)) Zero) - 1 > 89000000000000)%R.
Proof.
  unfold CreateKm, offsetFromKm, ofDoubles, vscale, Zero; simpl.
  set (k := (1 * astro.microLightYearsToKilometers 1)%R).
  assert (Hk : k = 9460730.4725808%R).
  { unfold k, astro.microLightYearsToKilometers, astro.KM_PER_LY. lra. }
  destruct (fromDouble_nonneg k) as [Hraw Hrange]; [lra |].
  rewrite Hraw, toDouble_sub_zero by exact Hrange.
  pose proof (base_Int_part (k * R128.two64)) as [_ Hgt].
  unfold astro.microLightYearsToKilometers, astro.KM_PER_LY, R128.two64 in *.
  rewrite Hk in *. lra.
Qed.

Lemma wrap_wf (n : Z) : R128.wf (R128.wrap n).
Proof.
  unfold R128.wf, R128.wrap, R128.modulus. apply Z.mod_pos_bound. lia.
Qed.

Lemma fromDouble_wf (v : double) : R128.wf (R128.fromDouble v).
Proof.
  unfold R128.fromDouble.
  destruct (Rlt_dec _ _); [unfold R128.wf, R128.R128_min, R128.modulus; lia |].
  destruct (Rle_dec _ _); [unfold R128.wf, R128.R128_max, R128.modulus; lia |].
  destruct (Rlt_dec _ _); apply wrap_wf.
Qed.

(** A double within the 64-bit integer range comes back from R128 less
    than 2^-64 away. *)
Lemma toDouble_fromDouble (v : double) :
  (- 9223372036854775808 <= v < 9223372036854775808)%R ->
  (Rabs (R128.toDouble (R128.fromDouble v) - v) < / R128.two64)%R.
Proof.
  intros [Hlo Hhi].
  destruct (Rlt_dec v 0) as [Hneg | Hpos].
  - unfold R128.fromDouble.
    destruct (Rlt_dec v (- 9223372036854775808)) as [H | _]; [lra |].
    destruct (Rle_dec 9223372036854775808 v) as [H | _]; [lra |].
    destruct (Rlt_dec v 0) as [_ | H]; [| lra].
    pose proof (base_Int_part (- v * R128.two64)) as [Hle Hgt].
    set (n := Int_part (- v * R128.two64)) in *.
    assert (Hn0 : (0 <= n)%Z).
    { apply Z.lt_succ_r, lt_IZR. rewrite succ_IZR.
      unfold R128.two64 in *. nra. }
    assert (Hn1 : (n <= 2 ^ 127)%Z).
    { apply le_IZR.
      change (2 ^ 127)%Z with 170141183460469231731687303715884105728%Z.
      unfold R128.two64 in *. nra. }
    assert (Hsigned : R128.signed (R128.neg n) = (- n)%Z).
    { unfold R128.signed, R128.neg, R128.wrap, R128.modulus.
      change (2 ^ 128)%Z with (2 * 2 ^ 127)%Z.
      destruct (Z.eq_dec n 0) as [-> | Hn].
      - reflexivity.
      - replace (- n)%Z with (2 * 2 ^ 127 - n + -1 * (2 * 2 ^ 127))%Z by lia.
        rewrite Z_mod_plus_full, Z.mod_small by lia.
        destruct (Z.ltb_spec (2 * 2 ^ 127 - n) (2 ^ 127)); lia. }
    unfold R128.toDouble. rewrite Hsigned, opp_IZR.
    unfold R128.two64 in *. apply Rabs_def1.
    + apply Rmult_lt_reg_r with 18446744073709551616%R; [lra |]. 
      field_simplify; lra.
    + apply Rmult_lt_reg_r with 18446744073709551616%R; [lra |].
      field_simplify; lra.
  - destruct (fromDouble_nonneg v) as [Hraw Hrange]; [lra |].
    rewrite Hraw.
    pose proof (base_Int_part (v * R128.two64)) as [Hle Hgt].
    set (n := Int_part (v * R128.two64)) in *.
    unfold R128.toDouble, R128.signed.
    destruct (Z.ltb_spec n (2 ^ 127)); [| lia].
    unfold R128.two64 in *. apply Rabs_def1.
    + apply Rmult_lt_reg_r with 18446744073709551616%R; [lra |].
      field_simplify; lra.
    + apply Rmult_lt_reg_r with 18446744073709551616%R; [lra |].
      field_simplify; lra.
Qed.

End UniversalCoordFacts.

(** ** Rotation models *)

Module RotationFacts.
Import Rotation.

Lemma vscale_Zero (s : double) : vscale Eigen.Zero s = Eigen.Zero.
Proof. unfold vscale, Eigen.Zero; cbn [vx vy vz]. f_equal; ring. Qed.

Lemma specTimeStep_chooseDiffTimeDelta (rm : RotationModel) :
  chooseDiffTimeDelta (isPeriodic rm) (getPeriod rm) = specTimeStep rm.
Proof. reflexivity. Qed.

(** The default angular velocity, read as a rate about an axis. *)
Lemma angularVelocityAtTime_rate (rm : RotationModel) (t : double) :
  RotationModel_angularVelocityAtTime rm t
  = axisAngleRate (relativeBackward rm t) (specTimeStep rm).
Proof.
  unfold RotationModel_angularVelocityAtTime, axisAngleRate, rotationAxis,
    rotationAngle, relativeBackward.
  rewrite specTimeStep_chooseDiffTimeDelta.
  destruct (Rlt_dec _ _) as [Hbig | Hsmall].
  - symmetry. apply vscale_Zero.
  - reflexivity.
Qed.

(** C2, as amended: the default angular velocity of a rotation model is
    the axis times the angle over the time step, recovered from the
    relative quaternion [q(t + delta)^-1 * q(t)] (the later orientation
    conjugated, times the earlier one), where [delta] is the period over
    10000 for a periodic model and 1/1440 otherwise; it is the zero vector
    when the scalar part of that quaternion is above 0.99999999 in
    magnitude. *)
Theorem RotationModel_angularVelocityAtTime_backward
    (rm : RotationModel) (t : double) :
  RotationModel_angularVelocityAtTime rm t
  = axisAngleRate (relativeBackward rm t) (specTimeStep rm)
  /\ specTimeStep rm
     = (if isPeriodic rm then getPeriod rm / 10000 else 1 / 1440)
  /\ (0.99999999 < Rabs (qw (relativeBackward rm t)) ->
      RotationModel_angularVelocityAtTime rm t = Eigen.Zero).
Proof.
  split; [apply angularVelocityAtTime_rate |]. split; [reflexivity |].
  intros Hbig. rewrite angularVelocityAtTime_rate.
  unfold axisAngleRate, rotationAxis.
  destruct (Rlt_dec _ _) as [_ | Hsmall]; [apply vscale_Zero | contradiction].
Qed.

(** A model that turns about the y axis by half a turn per time step. *)
Definition halfTurnModel : RotationModel :=
  mkRotationModel false 0 (fun t => AngleAxisY (1440 * PI * t)).

Lemma halfTurnModel_at_0 :
  orientationAtTime halfTurnModel 0 = mkQuaterniond 1 0 0 0.
Proof.
  cbn [orientationAtTime halfTurnModel]. unfold AngleAxisY.
  replace (1440 * PI * 0 / 2) with 0 by field.
  rewrite cos_0, sin_0. reflexivity.
Qed.

Lemma halfTurnModel_at_step :
  orientationAtTime halfTurnModel (0 + specTimeStep halfTurnModel)
  = mkQuaterniond 0 0 1 0.
Proof.
  cbn [orientationAtTime halfTurnModel specTimeStep isPeriodic].
  unfold AngleAxisY.
  replace (1440 * PI * (0 + 1 / 1440) / 2) with (PI / 2) by field.
  rewrite cos_PI2, sin_PI2. reflexivity.
Qed.

Lemma acos_0_angle : rotationAngle (mkQuaterniond 0 0 1 0) = PI
                     /\ rotationAngle (mkQuaterniond 0 0 (-1) 0) = PI.
Proof.
  unfold rotationAngle; cbn [qw]. rewrite acos_0. split; field.
Qed.

Lemma rotationAxis_y (s : double) :
  s * s = 1 ->
  rotationAxis (mkQuaterniond 0 0 s 0) = mkVector3d 0 s 0.
Proof.
  intros Hs. unfold rotationAxis; cbn [qw].
  destruct (Rlt_dec _ _) as [H | _].
  { rewrite Rabs_R0 in H. lra. }
  unfold normalized, squaredNorm, qvec; cbn [vx vy vz qx qy qz].
  replace (0 * 0 + s * s + 0 * 0) with 1 by lra.
  destruct (Rlt_dec 0 1) as [_ | H]; [| lra].
  rewrite sqrt_1. unfold vdiv; cbn [vx vy vz]. f_equal; field.
Qed.

(** C2, as stated, fails: on the half turn model at time 0 the code's
    angular velocity points along -y, the one recovered from
    [q(t)^-1 * q(t + delta)] along +y. *)
Lemma angularVelocityAtTime_not_forward :
  RotationModel_angularVelocityAtTime halfTurnModel 0
  <> axisAngleRate (relativeForward halfTurnModel 0) (specTimeStep halfTurnModel).
Proof.
  rewrite angularVelocityAtTime_rate.
  unfold relativeBackward, relativeForward.
  rewrite halfTurnModel_at_0, halfTurnModel_at_step.
  replace (qmul (conjugate (mkQuaterniond 0 0 1 0)) (mkQuaterniond 1 0 0 0))
    with (mkQuaterniond 0 0 (-1) 0)
    by (unfold qmul, conjugate; cbn [qw qx qy qz]; f_equal; ring).
  replace (qmul (conjugate (mkQuaterniond 1 0 0 0)) (mkQuaterniond 0 0 1 0))
    with (mkQuaterniond 0 0 1 0)
    by (unfold qmul, conjugate; cbn [qw qx qy qz]; f_equal; ring).
  unfold axisAngleRate.
  destruct acos_0_angle as [-> ->].
  rewrite !rotationAxis_y by lra.
  cbn [specTimeStep isPeriodic halfTurnModel].
  intros H. apply (f_equal vy) in H. unfold vscale in H; cbn [vy] in H.
  pose proof PI_RGT_0. lra.
Qed.

Lemma floor_IZR (n : Z) : floor (IZR n) = IZR n.
Proof.
  unfold floor. f_equal. symmetry. apply Int_part_spec. lra.
Qed.

Lemma trig_whole_turns (x : R) (m : Z) :
  cos (x + 2 * IZR m * PI) = cos x /\ sin (x + 2 * IZR m * PI) = sin x.
Proof.
  destruct (Z_le_gt_dec 0 m) as [Hpos | Hneg].
  - rewrite <- (Z2Nat.id m Hpos), <- INR_IZR_INZ.
    split; [apply cos_period | apply sin_period].
  - assert (Hm : IZR m = - INR (Z.to_nat (- m))).
    { rewrite INR_IZR_INZ, Z2Nat.id by lia. rewrite opp_IZR. ring. }
    split.
    + rewrite <- (cos_period (x + 2 * IZR m * PI) (Z.to_nat (- m))).
      f_equal. rewrite Hm. ring.
    + rewrite <- (sin_period (x + 2 * IZR m * PI) (Z.to_nat (- m))).
      f_equal. rewrite Hm. ring.
Qed.

Lemma AngleAxisY_turns (angle : double) (n : Z) :
  sameOrientation (AngleAxisY angle) (AngleAxisY (angle + IZR n * (2 * PI))).
Proof.
  pose proof (Z.div_mod n 2 ltac:(lia)) as Hn.
  pose proof (Z.mod_pos_bound n 2 ltac:(lia)) as Hb.
  set (m := (n / 2)%Z) in *. set (b := (n mod 2)%Z) in *.
  destruct (trig_whole_turns (angle / 2) m) as [Hc Hs].
  destruct (trig_whole_turns (angle / 2 + PI) m) as [Hc' Hs'].
  unfold sameOrientation, AngleAxisY, qneg; cbn [qw qx qy qz].
  assert (Hcase : b = 0%Z \/ b = 1%Z) by lia.
  destruct Hcase as [Hb0 | Hb1].
  - left.
    replace ((angle + IZR n * (2 * PI)) / 2) with (angle / 2 + 2 * IZR m * PI)
      by (rewrite Hn, Hb0, plus_IZR, mult_IZR; simpl; field).
    rewrite Hc, Hs. reflexivity.
  - right.
    replace ((angle + IZR n * (2 * PI)) / 2)
      with (angle / 2 + PI + 2 * IZR m * PI)
      by (rewrite Hn, Hb1, plus_IZR, mult_IZR; simpl; field).
    rewrite Hc', Hs', neg_cos, neg_sin. f_equal; ring.
Qed.

Lemma AngleAxisY_qmul (a b : double) :
  qmul (AngleAxisY a) (AngleAxisY b) = AngleAxisY (a + b).
Proof.
  unfold qmul, AngleAxisY; cbn [qw qx qy qz].
  replace ((a + b) / 2) with (a / 2 + b / 2) by field.
  rewrite cos_plus, sin_plus. f_equal; ring.
Qed.

Lemma spin_spinOfRotations (u : UniformRotationModel) (tjd : double) :
  UniformRotationModel_spin u tjd
  = UniformRotationModel_spinOfRotations u ((tjd - epoch u) / period u).
Proof. reflexivity. Qed.

(** Whatever the two values of [rotations] are: when the later one is the
    earlier one plus a whole number [k] and an error [delta], the later
    spin is the earlier spin turned further about the y axis by
    [- delta * 2 pi], up to the sign of the quaternion. *)
Lemma spinOfRotations_turned
    (u : UniformRotationModel) (rotations : double) (k : Z) (delta : double) :
  sameOrientation
    (qmul (UniformRotationModel_spinOfRotations u rotations)
          (AngleAxisY (- delta * 2 * PI)))
    (UniformRotationModel_spinOfRotations u (rotations + IZR k + delta)).
Proof.
  unfold UniformRotationModel_spinOfRotations, math.YRotation, floor.
  rewrite AngleAxisY_qmul.
  set (n := Int_part rotations).
  set (n' := Int_part (rotations + IZR k + delta)).
  replace (- (rotations + IZR k + delta - IZR n' + 0.5) * 2 * PI - offset u)
    with (- (rotations - IZR n + 0.5) * 2 * PI - offset u + - delta * 2 * PI
          + IZR (n' - n - k) * (2 * PI))
    by (rewrite !minus_IZR; ring).
  apply AngleAxisY_turns.
Qed.

Lemma sameOrientation_eq (q q' : Quaterniond) : q' = q -> sameOrientation q q'.
Proof. intros H. left. exact H. Qed.

(** C6: a uniform rotation model of period P > 0, offset 0, epoch E,
    inclination 0 and ascending node 0 has the same orientation at E and
    at E + P: the two spins are the same quaternion up to its sign.  This
    does not rest on the division [(E + P - E) / P] giving 1: whatever
    value [1 + delta] it gives, the spin is the spin at E turned further
    about the y axis by [- delta * 2 pi], up to the sign of the
    quaternion (for a quotient just below 1 it is the negated
    quaternion).  The angular velocity has magnitude 2 pi / P at every
    time. *)
Theorem UniformRotationModel_period (P E : double) :
  0 < P ->
  let u := mkUniformRotationModel P 0 E 0 0 in
  sameOrientation (UniformRotationModel_spin u E)
                  (UniformRotationModel_spin u (E + P))
  /\ (forall delta,
        sameOrientation
          (qmul (UniformRotationModel_spin u E) (AngleAxisY (- delta * 2 * PI)))
          (UniformRotationModel_spinOfRotations u (1 + delta)))
  /\ forall t, norm (UniformRotationModel_angularVelocityAtTime u t) = 2 * PI / P.
Proof.
  intros HP u.
  assert (Hepoch : UniformRotationModel_spin u E
                   = UniformRotationModel_spinOfRotations u 0).
  { rewrite spin_spinOfRotations. cbn [epoch period u]. f_equal. field. lra. }
  assert (Hturned : forall delta,
            sameOrientation
              (qmul (UniformRotationModel_spin u E)
                    (AngleAxisY (- delta * 2 * PI)))
              (UniformRotationModel_spinOfRotations u (1 + delta))).
  { intros delta. rewrite Hepoch.
    replace (1 + delta) with (0 + IZR 1 + delta) by lra.
    apply spinOfRotations_turned. }
  split; [| split; [exact Hturned |]].
  - apply sameOrientation_eq.
    unfold UniformRotationModel_spin; cbn [epoch period offset u].
    replace ((E - E) / P) with (IZR 0) by (field; lra).
    replace ((E + P - E) / P) with (IZR 1) by (field; lra).
    rewrite !floor_IZR. f_equal. lra.
  - intros t.
    unfold UniformRotationModel_angularVelocityAtTime,
      UniformRotationModel_equatorOrientationAtTime, math.XRotation,
      math.YRotation, AngleAxisX, AngleAxisY; cbn [inclination ascendingNode period u].
    replace (- 0 / 2) with 0 by field. rewrite cos_0, sin_0.
    cbv [norm squaredNorm vscale rotate conjugate qmul cross vadd qvec UnitY
         vx vy vz qw qx qy qz].
    pose proof PI_RGT_0 as Hpi.
    assert (Hpos : 0 <= 2 * PI / P).
    { apply Rlt_le, Rdiv_lt_0_compat; lra. }
    transitivity (sqrt (2 * PI / P * (2 * PI / P))).
    + f_equal. field. lra.
    + apply sqrt_square. exact Hpos.
Qed.

Lemma UniformRotationModel_period_witness :
  sameOrientation
    (UniformRotationModel_spin (mkUniformRotationModel 2 0 10 0 0) 10)
    (UniformRotationModel_spin (mkUniformRotationModel 2 0 10 0 0) (10 + 2))
  /\ (forall delta,
        sameOrientation
          (qmul (UniformRotationModel_spin (mkUniformRotationModel 2 0 10 0 0) 10)
                (AngleAxisY (- delta * 2 * PI)))
          (UniformRotationModel_spinOfRotations
             (mkUniformRotationModel 2 0 10 0 0) (1 + delta)))
  /\ forall t,
       norm (UniformRotationModel_angularVelocityAtTime
               (mkUniformRotationModel 2 0 10 0 0) t) = 2 * PI / 2.
Proof.
  apply (UniformRotationModel_period 2 10). lra.
Defined.

Lemma cos_PI_10000 : cos (PI / 10000) <= 0.99999999.
Proof.
  pose proof PI2_3_2 as Hlo. pose proof PI_4 as Hhi.
  destruct (COS (PI / 10000)) as [_ H]; try lra.
  unfold cos_ub, cos_approx in H. cbn [sum_f_R0] in H.
  unfold cos_term in H.
  change (2 * 0)%nat with 0%nat in H.
  change (2 * 1)%nat with 2%nat in H.
  change (2 * 2)%nat with 4%nat in H.
  change (2 * 3)%nat with 6%nat in H.
  change (2 * 4)%nat with 8%nat in H.
  replace (INR (fact 0)) with 1 in H by (simpl; lra).
  replace (INR (fact 2)) with 2 in H by (simpl; lra).
  replace (INR (fact 4)) with 24 in H by (rewrite INR_IZR_INZ; reflexivity).
  replace (INR (fact 6)) with 720 in H by (rewrite INR_IZR_INZ; reflexivity).
  replace (INR (fact 8)) with 40320 in H by (rewrite INR_IZR_INZ; reflexivity).
  set (x := PI / 10000) in *.
  assert (Hx : 0.0003 < x <= 0.0004) by (unfold x; lra).
  set (b := x * x).
  assert (Hb : 0.00000009 < b <= 0.00000016) by (unfold b; nra).
  assert (H2 : x ^ 2 = b) by (unfold b; ring).
  assert (H4 : x ^ 4 = b * b) by (unfold b; ring).
  assert (H6 : x ^ 6 = b * b * b) by (unfold b; ring).
  assert (H8 : x ^ 8 = b * b * b * b) by (unfold b; ring).
  rewrite H2, H4, H6, H8 in H.
  assert (Hbb : 0 < b * b <= 0.0000000000000256) by nra.
  assert (Hbbb : 0 < b * b * b) by nra.
  assert (Hb4 : b * b * b * b <= 0.0000000000000256) by nra.
  simpl pow in H. lra.
Qed.

Lemma rotationAxis_about_y (c s : double) :
  Rabs c <= 0.99999999 -> 0 < s ->
  rotationAxis (mkQuaterniond c 0 s 0) = mkVector3d 0 1 0.
Proof.
  intros Hc Hs. unfold rotationAxis; cbn [qw].
  destruct (Rlt_dec _ _) as [H | _]; [lra |].
  unfold normalized, squaredNorm, qvec; cbn [vx vy vz qx qy qz].
  replace (0 * 0 + s * s + 0 * 0) with (s * s) by ring.
  destruct (Rlt_dec 0 (s * s)) as [_ | H]; [| nra].
  rewrite sqrt_square by lra.
  unfold vdiv; cbn [vx vy vz]. f_equal; field; lra.
Qed.

Lemma equator_flat (P E t : double) :
  UniformRotationModel_equatorOrientationAtTime
    (mkUniformRotationModel P 0 E 0 0) t
  = mkQuaterniond 1 0 0 0.
Proof.
  unfold UniformRotationModel_equatorOrientationAtTime, math.XRotation,
    math.YRotation, AngleAxisX, AngleAxisY; cbn [inclination ascendingNode].
  replace (- 0 / 2) with 0 by field. rewrite cos_0, sin_0.
  unfold qmul; cbn [qw qx qy qz]. f_equal; ring.
Qed.

Lemma spin_at_epoch (P E : double) :
  0 < P ->
  UniformRotationModel_spin (mkUniformRotationModel P 0 E 0 0) E
  = mkQuaterniond 0 0 (-1) 0.
Proof.
  intros HP. unfold UniformRotationModel_spin; cbn [epoch period offset].
  replace ((E - E) / P) with (IZR 0) by (field; lra).
  rewrite floor_IZR. unfold math.YRotation, AngleAxisY.
  replace ((- (0 - 0 + 0.5) * 2 * PI - 0) / 2) with (- (PI / 2)) by lra.
  rewrite cos_neg, sin_neg, cos_PI2, sin_PI2. reflexivity.
Qed.

Lemma spin_after_step (P E : double) :
  0 < P ->
  UniformRotationModel_spin (mkUniformRotationModel P 0 E 0 0) (E + P / 10000)
  = mkQuaterniond (- sin (PI / 10000)) 0 (- cos (PI / 10000)) 0.
Proof.
  intros HP. unfold UniformRotationModel_spin; cbn [epoch period offset].
  replace ((E + P / 10000 - E) / P) with (1 / 10000) by (field; lra).
  replace (floor (1 / 10000)) with (IZR 0).
  2: { unfold floor. f_equal. apply Int_part_spec. lra. }
  unfold math.YRotation, AngleAxisY.
  replace ((- (1 / 10000 - 0 + 0.5) * 2 * PI - 0) / 2)
    with (- (PI / 2 + PI / 10000)) by lra.
  rewrite cos_neg, sin_neg, cos_plus, sin_plus, cos_PI2, sin_PI2.
  f_equal; ring.
Qed.

(** The order of the two orientations in the code is the one that agrees
    with the closed form: for a uniform rotation model of period P > 0,
    offset 0, inclination 0 and ascending node 0, the default angular
    velocity at the epoch, computed by differentiation, is the angular
    velocity that [UniformRotationModel::angularVelocityAtTime] gives. *)
Theorem default_agrees_with_uniform (P E : double) :
  0 < P ->
  let u := mkUniformRotationModel P 0 E 0 0 in
  RotationModel_angularVelocityAtTime (UniformRotationModel_base u) E
  = UniformRotationModel_angularVelocityAtTime u E.
Proof.
  intros HP u. subst u.
  rewrite angularVelocityAtTime_rate.
  unfold relativeBackward.
  cbn [specTimeStep isPeriodic getPeriod orientationAtTime
       UniformRotationModel_base UniformRotationModel_isPeriodic
       UniformRotationModel_getPeriod period].
  unfold UniformRotationModel_orientationAtTime.
  rewrite !equator_flat, spin_at_epoch, spin_after_step by exact HP.
  set (a := PI / 10000).
  pose proof PI2_3_2 as Hlo. pose proof PI_4 as Hhi.
  assert (Ha : 0 < a < PI) by (unfold a; lra).
  assert (Hsin : 0 < sin a) by (apply sin_gt_0; lra).
  assert (Hcos : 0 < cos a) by (apply cos_gt_0; unfold a; lra).
  replace (qmul (conjugate (qmul (mkQuaterniond (- sin a) 0 (- cos a) 0)
                                 (mkQuaterniond 1 0 0 0)))
                (qmul (mkQuaterniond 0 0 (-1) 0) (mkQuaterniond 1 0 0 0)))
    with (mkQuaterniond (cos a) 0 (sin a) 0)
    by (unfold qmul, conjugate; cbn [qw qx qy qz]; f_equal; ring).
  unfold axisAngleRate.
  rewrite rotationAxis_about_y.
  2: { rewrite Rabs_pos_eq by lra. apply cos_PI_10000. }
  2: exact Hsin.
  unfold rotationAngle; cbn [qw]. rewrite acos_cos by lra.
  unfold UniformRotationModel_angularVelocityAtTime.
  rewrite equator_flat. cbn [period].
  cbv [vscale rotate conjugate cross vadd qvec UnitY vx vy vz qw qx qy qz].
  unfold a. f_equal; field; lra.
Qed.

Lemma default_agrees_with_uniform_witness :
  let u := mkUniformRotationModel 1 0 2451545 0 0 in
  RotationModel_angularVelocityAtTime (UniformRotationModel_base u) 2451545
  = UniformRotationModel_angularVelocityAtTime u 2451545.
Proof.
  apply (default_agrees_with_uniform 1 2451545). lra.
Defined.

Section CachingRotation.

Variable computeSpin : double -> Quaterniond.
Variable computeEquatorOrientation : double -> Quaterniond.
Variable periodic : bool.
Variable thePeriod : double.

Local Abbreviation spinOf :=
  (CachingRotationModel_spin computeSpin).
Local Abbreviation equatorOf :=
  (CachingRotationModel_equatorOrientationAtTime computeEquatorOrientation).
Local Abbreviation orientationOf :=
  (CachingRotationModel_orientationAtTime computeSpin computeEquatorOrientation).
Local Abbreviation velocityOf :=
  (CachingRotationModel_computeAngularVelocity
     computeSpin computeEquatorOrientation periodic thePeriod).

(** The orientation that the two hooks give together. *)
Definition hookOrientation (t : double) : Quaterniond :=
  qmul (computeSpin t) (computeEquatorOrientation t).

(** A cached spin or equator orientation that is marked valid is the one
    of the cached time. *)
Definition coherentCache (c : RotationCache) : Prop :=
  (spinCacheValid c = true -> lastSpin c = computeSpin (lastTime c))
  /\ (equatorCacheValid c = true ->
      lastEquator c = computeEquatorOrientation (lastTime c)).

Lemma coherentCache_new : coherentCache CachingRotationModel_new.
Proof. split; intros H; discriminate H. Qed.

Lemma spin_step (tjd : double) (c : RotationCache) :
  coherentCache c ->
  fst (spinOf tjd c) = computeSpin tjd
  /\ coherentCache (snd (spinOf tjd c))
  /\ lastTime (snd (spinOf tjd c)) = tjd.
Proof.
  intros [Hs He]. unfold CachingRotationModel_spin, coherentCache.
  destruct (double_neb tjd (lastTime c)) eqn:Hne.
  - cbn. repeat split; try reflexivity. intros H; discriminate H.
  - apply double_neb_false in Hne. subst tjd.
    destruct (spinCacheValid c) eqn:Hvalid; cbn.
    + repeat split; auto.
    + repeat split; auto.
Qed.

Lemma equator_step (tjd : double) (c : RotationCache) :
  coherentCache c ->
  fst (equatorOf tjd c) = computeEquatorOrientation tjd
  /\ coherentCache (snd (equatorOf tjd c))
  /\ lastTime (snd (equatorOf tjd c)) = tjd.
Proof.
  intros [Hs He].
  unfold CachingRotationModel_equatorOrientationAtTime, coherentCache.
  destruct (double_neb tjd (lastTime c)) eqn:Hne.
  - cbn. repeat split; try reflexivity. intros H; discriminate H.
  - apply double_neb_false in Hne. subst tjd.
    destruct (equatorCacheValid c) eqn:Hvalid; cbn.
    + repeat split; auto.
    + repeat split; auto.
Qed.

Lemma orientation_step (tjd : double) (c : RotationCache) :
  coherentCache c ->
  fst (orientationOf tjd c) = hookOrientation tjd
  /\ coherentCache (snd (orientationOf tjd c)).
Proof.
  intros Hc. unfold CachingRotationModel_orientationAtTime.
  destruct (spin_step tjd c Hc) as (Hs & Hc1 & _).
  destruct (spinOf tjd c) as [s c1]. cbn [fst snd] in Hs, Hc1.
  destruct (equator_step tjd c1 Hc1) as (He & Hc2 & _).
  destruct (equatorOf tjd c1) as [e c2]. cbn [fst snd] in He, Hc2 |- *.
  subst s e. split; [reflexivity | exact Hc2].
Qed.

Lemma computeAngularVelocity_step (tjd : double) (c : RotationCache) :
  coherentCache c ->
  let dt := chooseDiffTimeDelta periodic thePeriod in
  fst (velocityOf tjd c)
  = axisAngleRate (qmul (conjugate (hookOrientation (tjd + dt)))
                        (hookOrientation tjd)) dt
  /\ coherentCache (snd (velocityOf tjd c)).
Proof.
  intros Hc dt. unfold CachingRotationModel_computeAngularVelocity.
  destruct (orientation_step tjd c Hc) as (Hq & Hc1).
  destruct (orientationOf tjd c) as [q0 c1]. cbn [fst snd] in Hq, Hc1.
  subst q0. fold dt. fold (hookOrientation (tjd + dt)).
  unfold axisAngleRate, rotationAxis, rotationAngle.
  destruct (Rlt_dec _ _); cbn [fst snd]; split; try exact Hc1.
  - symmetry. apply vscale_Zero.
  - reflexivity.
Qed.

Lemma angularVelocityAtTime_coherent (tjd : double) (c : RotationCache) :
  coherentCache c ->
  coherentCache
    (snd (CachingRotationModel_angularVelocityAtTime
            computeSpin computeEquatorOrientation periodic thePeriod tjd c)).
Proof.
  intros Hc. unfold CachingRotationModel_angularVelocityAtTime.
  destruct (computeAngularVelocity_step tjd c Hc) as (_ & Hc1).
  destruct (velocityOf tjd c) as [w c1]. cbn [snd] in Hc1.
  destruct (double_neb tjd (lastTime c)).
  - split; intros H; discriminate H.
  - destruct (negb (angularVelocityCacheValid c)); [exact Hc1 | exact Hc].
Qed.

Lemma coherentCache_after (calls : list Call) :
  coherentCache
    (after computeSpin computeEquatorOrientation periodic thePeriod calls).
Proof.
  unfold after. generalize CachingRotationModel_new, coherentCache_new.
  induction calls as [| call calls IH]; intros c Hc; [exact Hc |].
  cbn [fold_left]. apply IH. destruct call as [t | t | t | t]; cbn [perform].
  - apply (spin_step t c Hc).
  - apply (equator_step t c Hc).
  - apply (orientation_step t c Hc).
  - apply angularVelocityAtTime_coherent, Hc.
Qed.

(** The caching rotation model differentiates in the same order as the
    default implementation: after any sequence of calls,
    [computeAngularVelocity] gives the axis times the angle over the time
    step of the relative quaternion [q(t + dt)^-1 * q(t)], where [q] is
    the product of the computed spin and the computed equator
    orientation. *)
Theorem CachingRotationModel_computeAngularVelocity_backward
    (calls : list Call) (t : double) :
  let c := after computeSpin computeEquatorOrientation periodic thePeriod calls in
  let dt := chooseDiffTimeDelta periodic thePeriod in
  fst (CachingRotationModel_computeAngularVelocity
         computeSpin computeEquatorOrientation periodic thePeriod t c)
  = axisAngleRate (qmul (conjugate (hookOrientation (t + dt)))
                        (hookOrientation t)) dt.
Proof.
  intros c dt.
  apply (computeAngularVelocity_step t c (coherentCache_after calls)).
Qed.

End CachingRotation.

End RotationFacts.

(** ** Reference frames *)

Module FrameFacts.
Import Frame.

(** C3, on the code: [isInertial] of a two-vector frame is [true], where
    the claim (and the comment in the function) says that every two-vector
    frame is treated as non-inertial. *)
Theorem TwoVectorFrame_isInertial_true
    (bodyFrameIsInertial : Body -> bool) (center : Selection)
    (prim : FrameVector) (primAxis : Z) (sec : FrameVector)
    (secAxis tertAxis : Z) :
  isInertial bodyFrameIsInertial
             (TwoVectorFrame center prim primAxis sec secAxis tertAxis)
  = true.
Proof. reflexivity. Qed.

(** C8: for a frame whose center is neither a body nor a star, both
    astrocentric conversions give the zero vector, whatever the vector and
    the time. *)
Theorem astrocentric_of_unsupported_center
    (catalog : Catalog) (getOrientation : ReferenceFrame -> double -> Quaterniond)
    (this : ReferenceFrame) (p : Vector3d) (tjd : double) :
  getType (getCenter this) <> Type_Body ->
  getType (getCenter this) <> Type_Star ->
  convertFromAstrocentric catalog getOrientation this p tjd = Eigen.Zero
  /\ convertToAstrocentric catalog getOrientation this p tjd = Eigen.Zero.
Proof.
  intros Hbody Hstar.
  unfold convertFromAstrocentric, convertToAstrocentric.
  destruct (getType (getCenter this)); try contradiction; split; reflexivity.
Qed.

(** A catalog in which nothing moves and no body has a frame. *)
Definition stillCatalog : Catalog :=
  mkCatalog (fun _ _ => UniversalCoord.Zero) (fun _ _ => Eigen.Zero)
            (fun _ _ => Eigen.Zero) (fun _ => None)
            (fun _ _ => None) (fun _ _ => None).

Lemma astrocentric_of_unsupported_center_witness :
  let this := BodyFixedFrame (Sel_DeepSky 7%nat) (Sel_Body 1%nat) in
  convertFromAstrocentric stillCatalog (fun _ _ => Identity) this UnitX 2451545
  = Eigen.Zero
  /\ convertToAstrocentric stillCatalog (fun _ _ => Identity) this UnitX 2451545
     = Eigen.Zero.
Proof.
  apply (astrocentric_of_unsupported_center stillCatalog (fun _ _ => Identity)
           (BodyFixedFrame (Sel_DeepSky 7%nat) (Sel_Body 1%nat)) UnitX 2451545);
    simpl; discriminate.
Defined.

Lemma squaredNorm_cross_vneg_l (a b : Vector3d) :
  squaredNorm (cross (vneg a) b) = squaredNorm (cross a b).
Proof.
  unfold squaredNorm, cross, vneg; cbn [vx vy vz]. ring.
Qed.

Lemma squaredNorm_cross_vneg_r (a b : Vector3d) :
  squaredNorm (cross a (vneg b)) = squaredNorm (cross a b).
Proof.
  unfold squaredNorm, cross, vneg; cbn [vx vy vz]. ring.
Qed.

(** Reversing either vector leaves the length of the cross product as it
    is. *)
Lemma norm_cross_flip (a b : Vector3d) (fa fb : bool) :
  norm (cross (if fa then vneg a else a) (if fb then vneg b else b))
  = norm (cross a b).
Proof.
  unfold norm. f_equal.
  destruct fa, fb;
    rewrite ?squaredNorm_cross_vneg_l, ?squaredNorm_cross_vneg_r; reflexivity.
Qed.

(** C7: when the cross product of the normalized primary and secondary
    directions at [tjd] is shorter than 1e-6, [computeOrientation] gives
    the identity quaternion. *)
Theorem TwoVectorFrame_computeOrientation_collinear
    (catalog : Catalog) (getOrientation : ReferenceFrame -> double -> Quaterniond)
    (center : Selection) (prim : FrameVector) (primAxis : Z)
    (sec : FrameVector) (secAxis tertAxis : Z) (tjd : double) :
  norm (cross (normalized (direction catalog getOrientation prim tjd))
              (normalized (direction catalog getOrientation sec tjd))) < 1e-6 ->
  computeOrientation catalog getOrientation
    (TwoVectorFrame center prim primAxis sec secAxis tertAxis) tjd
  = Some Identity.
Proof.
  intros Hshort. cbn [computeOrientation]. f_equal.
  unfold TwoVectorFrame_computeOrientation.
  rewrite norm_cross_flip.
  destruct (Rlt_dec _ Tolerance) as [_ | Hlong]; [reflexivity |].
  unfold Tolerance in Hlong. contradiction.
Qed.

Lemma cross_self (v : Vector3d) : cross v v = Eigen.Zero.
Proof. unfold cross, Eigen.Zero. f_equal; ring. Qed.

Lemma norm_Zero : norm Eigen.Zero = 0.
Proof.
  unfold norm, squaredNorm, Eigen.Zero; cbn [vx vy vz].
  replace (0 * 0 + 0 * 0 + 0 * 0) with 0 by ring. apply sqrt_0.
Qed.

Lemma TwoVectorFrame_computeOrientation_collinear_witness :
  let v := createConstantVector UnitX None in
  computeOrientation stillCatalog (fun _ _ => Identity)
    (TwoVectorFrame (Sel_Body 1%nat) v 1%Z v (-2)%Z 3%Z) 0
  = Some Identity.
Proof.
  apply (TwoVectorFrame_computeOrientation_collinear stillCatalog
           (fun _ _ => Identity) (Sel_Body 1%nat)
           (createConstantVector UnitX None) 1%Z
           (createConstantVector UnitX None) (-2)%Z 3%Z 0).
  rewrite cross_self, norm_Zero. lra.
Defined.

End FrameFacts.

(** ** Caching frames *)

Module CachingFrameFacts.
Import Frame.

Section Caching.

Variable computeOrientation : double -> Quaterniond.

Local Abbreviation getO := (CachingFrame_getOrientation computeOrientation).
Local Abbreviation getW := (CachingFrame_getAngularVelocity computeOrientation).

(** A cached orientation that is marked valid is the orientation at the
    cached time. *)
Definition coherent (c : Cache) : Prop :=
  orientationCacheValid c = true ->
  lastOrientation c = computeOrientation (lastTime c).

Lemma coherent_new : coherent CachingFrame_new.
Proof. intros H. discriminate H. Qed.

(** What one call of [getOrientation] returns and leaves behind. *)
Lemma getOrientation_step (tjd : double) (c : Cache) :
  coherent c ->
  fst (getO tjd c) = computeOrientation tjd
  /\ coherent (snd (getO tjd c))
  /\ lastTime (snd (getO tjd c)) = tjd
  /\ orientationCacheValid (snd (getO tjd c)) = true
  /\ computed (snd (getO tjd c))
     = if double_neb tjd (lastTime c) || negb (orientationCacheValid c)
       then tjd :: computed c else computed c.
Proof.
  intros Hc. unfold CachingFrame_getOrientation.
  destruct (double_neb tjd (lastTime c)) eqn:Hne; cbn.
  - unfold coherent; cbn. auto.
  - apply double_neb_false in Hne.
    destruct (orientationCacheValid c) eqn:Hvalid; cbn.
    + repeat split; auto. rewrite Hne. apply Hc, Hvalid.
    + unfold coherent; cbn. rewrite <- Hne. auto.
Qed.

Lemma call_computeOrientation_coherent (tjd : double) (c : Cache) :
  coherent c -> coherent (snd (call_computeOrientation computeOrientation tjd c)).
Proof. intros Hc. exact Hc. Qed.

Lemma getAngularVelocity_coherent (tjd : double) (c : Cache) :
  coherent c -> coherent (snd (getW tjd c)).
Proof.
  intros Hc. unfold CachingFrame_getAngularVelocity.
  destruct (double_neb tjd (lastTime c)) eqn:Hne.
  - destruct (CachingFrame_computeAngularVelocity _ _ _) as [w c1].
    intros H. discriminate H.
  - destruct (negb (angularVelocityCacheValid c)); [| exact Hc].
    unfold CachingFrame_computeAngularVelocity.
    pose proof (getOrientation_step tjd c Hc) as (_ & Hc1 & _).
    destruct (getO tjd c) as [q0 c1]. cbn [snd] in Hc1.
    cbn [call_computeOrientation].
    destruct (Rlt_dec _ _); exact Hc1.
Qed.

Lemma coherent_fold (calls : list Call) (c : Cache) :
  coherent c ->
  coherent (fold_left (fun c call => perform computeOrientation call c) calls c).
Proof.
  revert c. induction calls as [| call calls IH]; intros c Hc; [exact Hc |].
  cbn [fold_left]. apply IH. destruct call as [tjd | tjd]; cbn [perform].
  - apply (getOrientation_step tjd c Hc).
  - apply getAngularVelocity_coherent, Hc.
Qed.

Lemma coherent_after (calls : list Call) :
  coherent (after computeOrientation calls).
Proof. apply coherent_fold, coherent_new. Qed.

(** C5: on a caching frame, after any sequence of calls, two calls of
    [getOrientation] in succession with the same [t] both return
    [computeOrientation t]; the second one does not call
    [computeOrientation], and the first one calls it once, unless the
    frame already holds the orientation at [t], so that on a new frame
    the two calls make exactly one call of it; a following call with
    another time [t'] calls [computeOrientation] once more and returns
    [computeOrientation t']. *)
Theorem CachingFrame_getOrientation_cached (calls : list Call) (t : double) :
  let c := after computeOrientation calls in
  let r1 := CachingFrame_getOrientation computeOrientation t c in
  let r2 := CachingFrame_getOrientation computeOrientation t (snd r1) in
  fst r1 = computeOrientation t
  /\ fst r2 = computeOrientation t
  /\ computed (snd r2) = computed (snd r1)
  /\ computed (snd r1)
     = (if double_neb t (lastTime c) || negb (orientationCacheValid c)
        then t :: computed c else computed c)
  /\ (calls = [] -> computed (snd r2) = [t])
  /\ (forall t', t' <> t ->
        let r3 := CachingFrame_getOrientation computeOrientation t' (snd r1) in
        fst r3 = computeOrientation t'
        /\ computed (snd r3) = t' :: computed (snd r1)).
Proof.
  intros c r1 r2.
  pose proof (coherent_after calls) as Hc. fold c in Hc.
  pose proof (getOrientation_step t c Hc) as (Hq1 & Hc1 & Ht1 & Hv1 & Hn1).
  fold r1 in Hq1, Hc1, Ht1, Hv1, Hn1.
  pose proof (getOrientation_step t (snd r1) Hc1) as (Hq2 & _ & _ & _ & Hn2).
  fold r2 in Hq2, Hn2.
  assert (Hsame : double_neb t (lastTime (snd r1)) = false)
    by (apply double_neb_false; congruence).
  rewrite Hsame, Hv1 in Hn2. cbn in Hn2.
  repeat split; try assumption.
  - intros Hnil. rewrite Hn2, Hn1. unfold c. rewrite Hnil.
    unfold after, CachingFrame_new.
    cbn [fold_left lastTime orientationCacheValid computed negb].
    rewrite orb_true_r. reflexivity.
  - apply (getOrientation_step t' (snd r1) Hc1).
  - pose proof (getOrientation_step t' (snd r1) Hc1) as (_ & _ & _ & _ & Hn3).
    rewrite Hn3.
    assert (Hdiff : double_neb t' (lastTime (snd r1)) = true)
      by (apply double_neb_true; congruence).
    rewrite Hdiff. reflexivity.
Qed.

(** What [getAngularVelocity] differentiates when the frame holds the
    orientation of another time: after [getOrientation t1], a call of
    [getAngularVelocity t2] with [t2 <> t1] sets [lastTime] before it
    reads the orientation at [t2] through [getOrientation], which then
    answers from the cache; the velocity is computed from the orientation
    at [t1] and the one at [t2 + 1/1440], and [computeOrientation] is not
    called at [t2]. *)
Theorem getAngularVelocity_after_getOrientation (t1 t2 : double) :
  t2 <> t1 ->
  let c := after computeOrientation [GetOrientation t1] in
  let r := CachingFrame_getAngularVelocity computeOrientation t2 c in
  let dq := qmul (conjugate (computeOrientation t1))
                 (computeOrientation (t2 + ANGULAR_VELOCITY_DIFF_DELTA)) in
  fst r = (if Rlt_dec 0.99999999 (Rabs (qw dq)) then Eigen.Zero
           else vscale (normalized (qvec dq))
                       (2 * acos (qw dq) / ANGULAR_VELOCITY_DIFF_DELTA))
  /\ computed (snd r) = [t2 + ANGULAR_VELOCITY_DIFF_DELTA; t1].
Proof.
  intros Hne c r dq.
  pose proof (getOrientation_step t1 CachingFrame_new coherent_new)
    as (_ & Hcoh & Ht & Hv & Hn).
  change (snd (getO t1 CachingFrame_new)) with c in Hcoh, Ht, Hv, Hn.
  assert (Ho : lastOrientation c = computeOrientation t1).
  { rewrite <- Ht. apply Hcoh, Hv. }
  assert (Hc : computed c = [t1]).
  { rewrite Hn. unfold CachingFrame_new.
    cbn [lastTime orientationCacheValid computed negb].
    rewrite orb_true_r. reflexivity. }
  subst r. unfold CachingFrame_getAngularVelocity.
  rewrite (proj2 (double_neb_true t2 (lastTime c))) by congruence.
  unfold CachingFrame_computeAngularVelocity, CachingFrame_getOrientation.
  cbn [set_lastTime lastTime orientationCacheValid].
  rewrite (proj2 (double_neb_false t2 t2) eq_refl), Hv.
  cbn [negb call_computeOrientation lastOrientation set_lastTime].
  rewrite Ho. fold dq.
  destruct (Rlt_dec 0.99999999 (Rabs (qw dq)));
    cbn [fst snd set_lastAngularVelocity set_orientationCacheValid
         set_angularVelocityCacheValid lastAngularVelocity computed
         lastTime lastOrientation orientationCacheValid
         angularVelocityCacheValid];
    unfold set_lastTime; cbn [computed]; rewrite Hc; split; reflexivity.
Qed.

End Caching.

Lemma getAngularVelocity_after_getOrientation_witness :
  let c := after AngleAxisY [GetOrientation 0] in
  let r := CachingFrame_getAngularVelocity AngleAxisY 1 c in
  let dq := qmul (conjugate (AngleAxisY 0))
                 (AngleAxisY (1 + ANGULAR_VELOCITY_DIFF_DELTA)) in
  fst r = (if Rlt_dec 0.99999999 (Rabs (qw dq)) then Eigen.Zero
           else vscale (normalized (qvec dq))
                       (2 * acos (qw dq) / ANGULAR_VELOCITY_DIFF_DELTA))
  /\ computed (snd r) = [1 + ANGULAR_VELOCITY_DIFF_DELTA; 0].
Proof.
  apply (getAngularVelocity_after_getOrientation AngleAxisY 0 1). lra.
Defined.

End CachingFrameFacts.

(** ** Nesting depth *)

Module NestingDepthFacts.
Import Frame.

(** Induction over a frame and the frame vectors inside it. *)
Section FrameInduction.

Variable P : ReferenceFrame -> Prop.
Variable Q : FrameVector -> Prop.
Hypothesis ecliptic : forall c, P (J2000EclipticFrame c).
Hypothesis equator : forall c, P (J2000EquatorFrame c).
Hypothesis bodyFixed : forall c o, P (BodyFixedFrame c o).
Hypothesis meanEquator : forall c o e z, P (BodyMeanEquatorFrame c o e z).
Hypothesis twoVector :
  forall c p pa s sa ta, Q p -> Q s -> P (TwoVectorFrame c p pa s sa ta).
Hypothesis vectorNull : forall vt o t v, Q (mkFrameVector vt o t v None).
Hypothesis vectorFrame :
  forall vt o t v f, P f -> Q (mkFrameVector vt o t v (Some f)).

Fixpoint frame_induction (f : ReferenceFrame) : P f :=
  match f with
  | J2000EclipticFrame c => ecliptic c
  | J2000EquatorFrame c => equator c
  | BodyFixedFrame c o => bodyFixed c o
  | BodyMeanEquatorFrame c o e z => meanEquator c o e z
  | TwoVectorFrame c p pa s sa ta =>
      twoVector c p pa s sa ta (vector_induction p) (vector_induction s)
  end
with vector_induction (fv : FrameVector) : Q fv :=
  match fv with
  | mkFrameVector vt o t v None => vectorNull vt o t v
  | mkFrameVector vt o t v (Some f) => vectorFrame vt o t v f (frame_induction f)
  end.

End FrameInduction.

Ltac split_outcome :=
  repeat match goal with
  | |- context [andThen ?r _] =>
      let E := fresh "E" in destruct r eqn:E; cbn [andThen]
  | |- context [if ?b then _ else _] =>
      let E := fresh "E" in destruct b eqn:E
  end.

Section Walk.

Variable catalog : Catalog.
Variable maxDepth : N.
Hypothesis below_max : (maxDepth < 2 ^ 32 - 1)%N.

Lemma succ_uint_small (depth : N) :
  (maxDepth <? depth)%N = false -> succ_uint depth = (depth + 1)%N.
Proof using below_max.
  intros H. apply N.ltb_ge in H. unfold succ_uint.
  apply N.mod_small. lia.
Qed.

(** [rec] runs out of fuel at no depth from [depth] on. *)
Definition fuelled (rec : Selection -> N -> N -> FrameType -> Outcome)
    (depth : N) : Prop :=
  forall sel d ft, (depth <= d)%N -> rec sel d maxDepth ft <> OutOfFuel.

Lemma fuelled_here rec depth sel ft :
  fuelled rec depth -> rec sel depth maxDepth ft <> OutOfFuel.
Proof. intros H. apply H. lia. Qed.

Lemma nesting_fuelled rec :
  (forall f depth ft, fuelled rec depth ->
     frameNestingDepth rec f depth maxDepth ft <> OutOfFuel)
  /\ (forall fv depth, fuelled rec depth ->
     vectorNestingDepth rec fv depth maxDepth <> OutOfFuel).
Proof using below_max.
  assert (Hsel : forall depth sel ft, fuelled rec depth ->
            rec sel depth maxDepth ft = OutOfFuel -> False).
  { intros depth sel ft H. apply fuelled_here, H. }
  pose (P := fun f => forall depth ft, fuelled rec depth ->
                frameNestingDepth rec f depth maxDepth ft <> OutOfFuel).
  pose (Q := fun fv => forall depth, fuelled rec depth ->
                vectorNestingDepth rec fv depth maxDepth <> OutOfFuel).
  assert (HP : forall f, P f).
  { apply (frame_induction P Q); unfold P, Q.
    - intros c depth ft H. apply fuelled_here, H.
    - intros c depth ft H. apply fuelled_here, H.
    - intros c o depth ft H. cbn [frameNestingDepth].
      split_outcome; solve [discriminate | intros _; eapply Hsel; eauto].
    - intros c o e z depth ft H. cbn [frameNestingDepth].
      split_outcome; solve [discriminate | intros _; eapply Hsel; eauto].
    - intros c p pa s sa ta IHp IHs depth ft H. cbn [frameNestingDepth].
      specialize (IHp depth H). specialize (IHs depth H).
      split_outcome;
        solve [discriminate | congruence | intros _; eapply Hsel; eauto].
    - intros vt o t v depth H. cbn [vectorNestingDepth].
      destruct vt; split_outcome;
        solve [discriminate | intros _; eapply Hsel; eauto].
    - intros vt o t v f IHf depth H. cbn [vectorNestingDepth].
      destruct vt.
      1, 2: split_outcome; solve [discriminate | intros _; eapply Hsel; eauto].
      destruct (maxDepth <? depth)%N eqn:E; [discriminate |].
      apply IHf. rewrite (succ_uint_small _ E).
      intros sel d ft Hd. apply H. lia. }
  split; [exact HP |].
  apply (vector_induction P Q); unfold P, Q; intros.
  - apply fuelled_here; assumption.
  - apply fuelled_here; assumption.
  - apply (HP (BodyFixedFrame c o)); assumption.
  - apply (HP (BodyMeanEquatorFrame c o e z)); assumption.
  - apply (HP (TwoVectorFrame c p pa s sa ta)); assumption.
  - cbn [vectorNestingDepth].
    destruct vt; split_outcome;
      solve [discriminate | intros _; eapply Hsel; eauto].
  - cbn [vectorNestingDepth]. destruct vt.
    1, 2: split_outcome; solve [discriminate | intros _; eapply Hsel; eauto].
    destruct (maxDepth <? depth)%N eqn:E; [discriminate |].
    apply H. rewrite (succ_uint_small _ E).
    intros sel d ft Hd. apply H0. lia.
Qed.

(** With [fuel] nested calls allowed, [getFrameDepth] answers at every
    depth from [maxDepth + 1 - fuel] on. *)
Lemma getFrameDepth_fuelled (fuel : nat) :
  forall sel depth ft,
    (maxDepth + 1 <= depth + N.of_nat fuel)%N ->
    getFrameDepth catalog fuel sel depth maxDepth ft <> OutOfFuel.
Proof using below_max.
  induction fuel as [| fuel IH]; intros sel depth ft Hfuel.
  - cbn [getFrameDepth].
    destruct (N.ltb_spec maxDepth depth); [discriminate | lia].
  - cbn [getFrameDepth].
    destruct (maxDepth <? depth)%N eqn:E; [discriminate |].
    destruct (match location sel with
              | Some l => getParentBody catalog l
              | None => body sel
              end) as [b |]; [| discriminate].
    assert (Hnested : fuelled (getFrameDepth catalog fuel) (succ_uint depth)).
    { rewrite (succ_uint_small _ E). intros s d t Hd. apply IH. lia. }
    destruct (nesting_fuelled (getFrameDepth catalog fuel)) as [Hframe _].
    destruct (getOrbitFrame catalog b 0) as [orbitFrame |],
             (getBodyFrame catalog b 0) as [bodyFrame |], ft;
      cbn [andThen];
      repeat match goal with
      | |- context [frameNestingDepth ?r ?f ?d ?m ?t] =>
          let E' := fresh "E" in
          pose proof (Hframe f d t Hnested);
          destruct (frameNestingDepth r f d m t) eqn:E'; cbn [andThen]
      | |- context [if ?c then _ else _] => destruct c
      end;
      solve [discriminate | congruence].
Qed.

Lemma nestingDepth_fuelled (this : ReferenceFrame) (ft : FrameType) :
  nestingDepth catalog this maxDepth ft <> OutOfFuel.
Proof using below_max.
  unfold nestingDepth.
  apply (proj1 (nesting_fuelled _)).
  intros sel d t _. apply getFrameDepth_fuelled. lia.
Qed.

(** [rec] gives the same outcome as [rec'] at every depth from [depth] on. *)
Definition agree (rec rec' : Selection -> N -> N -> FrameType -> Outcome)
    (depth : N) : Prop :=
  forall sel d ft, (depth <= d)%N -> rec sel d maxDepth ft = rec' sel d maxDepth ft.

Lemma nesting_agree rec rec' :
  (forall f depth ft, agree rec rec' depth ->
     frameNestingDepth rec f depth maxDepth ft
     = frameNestingDepth rec' f depth maxDepth ft)
  /\ (forall fv depth, agree rec rec' depth ->
     vectorNestingDepth rec fv depth maxDepth
     = vectorNestingDepth rec' fv depth maxDepth).
Proof using below_max.
  pose (P := fun f => forall depth ft, agree rec rec' depth ->
                frameNestingDepth rec f depth maxDepth ft
                = frameNestingDepth rec' f depth maxDepth ft).
  pose (Q := fun fv => forall depth, agree rec rec' depth ->
                vectorNestingDepth rec fv depth maxDepth
                = vectorNestingDepth rec' fv depth maxDepth).
  assert (Hall : (forall f, P f) /\ (forall fv, Q fv)).
  { split; [apply (frame_induction P Q) | apply (vector_induction P Q)];
      unfold P, Q; intros;
      cbn [frameNestingDepth vectorNestingDepth];
      repeat match goal with
      | H : agree _ _ ?d |- context [rec ?s ?d maxDepth ?t] =>
          rewrite (H s d t (N.le_refl d))
      | IH : forall depth, agree _ _ depth -> _ = _, H : agree _ _ ?d |- _ =>
          rewrite (IH d H); clear IH
      end;
      try reflexivity.
    all: destruct vt; try reflexivity.
    all: destruct (maxDepth <? depth)%N eqn:E; [reflexivity |].
    all: match goal with IH : forall depth ft, _ |- _ => apply IH end.
    all: rewrite (succ_uint_small _ E); intros sel d ft Hd.
    all: match goal with H : agree _ _ _ |- _ => apply H; lia end. }
  exact Hall.
Qed.

(** Allowing more nested calls than needed changes nothing. *)
Lemma getFrameDepth_fuel_irrelevant (fuel : nat) :
  forall fuel' sel depth ft,
    (maxDepth + 1 <= depth + N.of_nat fuel)%N ->
    (maxDepth + 1 <= depth + N.of_nat fuel')%N ->
    getFrameDepth catalog fuel sel depth maxDepth ft
    = getFrameDepth catalog fuel' sel depth maxDepth ft.
Proof using below_max.
  induction fuel as [| fuel IH]; intros fuel' sel depth ft Hfuel Hfuel'.
  - destruct fuel'; cbn [getFrameDepth];
      destruct (N.ltb_spec maxDepth depth); solve [reflexivity | lia].
  - destruct fuel' as [| fuel'].
    { cbn [getFrameDepth].
      destruct (N.ltb_spec maxDepth depth); solve [reflexivity | lia]. }
    cbn [getFrameDepth].
    destruct (maxDepth <? depth)%N eqn:E; [reflexivity |].
    destruct (match location sel with
              | Some l => getParentBody catalog l
              | None => body sel
              end) as [b |]; [| reflexivity].
    assert (Hnested : agree (getFrameDepth catalog fuel)
                            (getFrameDepth catalog fuel') (succ_uint depth)).
    { rewrite (succ_uint_small _ E). intros s d t Hd. apply IH; lia. }
    destruct (nesting_agree (getFrameDepth catalog fuel)
                            (getFrameDepth catalog fuel')) as [Hframe _].
    destruct (getOrbitFrame catalog b 0) as [orbitFrame |],
             (getBodyFrame catalog b 0) as [bodyFrame |], ft;
      rewrite ?(Hframe _ _ _ Hnested); reflexivity.
Qed.

(** A depth between the depth of the call and [maxDepth + 1]. *)
Definition bounded (depth : N) (o : Outcome) : Prop :=
  exists n, o = Depth n /\ (depth <= n <= N.max depth (maxDepth + 1))%N.

Definition answers (rec : Selection -> N -> N -> FrameType -> Outcome)
    (depth : N) : Prop :=
  forall sel d ft, (depth <= d)%N -> bounded d (rec sel d maxDepth ft).

Ltac use_answers :=
  repeat match goal with
  | H : answers ?rec ?d |- context [?rec ?s ?d maxDepth ?t] =>
      let n := fresh "n" in
      let E := fresh "E" in
      let B := fresh "B" in
      destruct (H s d t (N.le_refl d)) as (n & E & B);
      rewrite E; cbn [andThen]
  | |- context [(?a <? ?b)%N] => destruct (N.ltb_spec a b)
  end.

Ltac show_bounded :=
  solve [ eexists; split; [reflexivity | lia] ].

Lemma nesting_bounded rec :
  (forall f depth ft, answers rec depth -> framesAttached f = true ->
     bounded depth (frameNestingDepth rec f depth maxDepth ft))
  /\ (forall fv depth, answers rec depth -> vectorAttached fv = true ->
     bounded depth (vectorNestingDepth rec fv depth maxDepth)).
Proof using below_max.
  pose (P := fun f => forall depth ft, answers rec depth ->
                framesAttached f = true ->
                bounded depth (frameNestingDepth rec f depth maxDepth ft)).
  pose (Q := fun fv => forall depth, answers rec depth ->
                vectorAttached fv = true ->
                bounded depth (vectorNestingDepth rec fv depth maxDepth)).
  assert (Hstep : forall f depth,
            P f -> answers rec depth -> framesAttached f = true ->
            (maxDepth <? depth)%N = false ->
            bounded depth (frameNestingDepth rec f (succ_uint depth) maxDepth
                                             OrientationFrame)).
  { intros f depth IH H Hf E. rewrite (succ_uint_small _ E).
    apply N.ltb_ge in E.
    destruct (IH (depth + 1)%N OrientationFrame) as (n & En & Bn).
    - intros sel d ft Hd. apply H. lia.
    - exact Hf.
    - rewrite En. exists n. split; [reflexivity | lia]. }
  assert (Hvec : forall vt o t v fr depth,
            (forall f, fr = Some f -> P f) ->
            answers rec depth ->
            vectorAttached (mkFrameVector vt o t v fr) = true ->
            bounded depth
              (vectorNestingDepth rec (mkFrameVector vt o t v fr) depth maxDepth)).
  { intros vt o t v fr depth IH H Hfv. cbn [vectorNestingDepth].
    destruct vt.
    1, 2: use_answers; show_bounded.
    destruct (maxDepth <? depth)%N eqn:E.
    { apply N.ltb_lt in E. show_bounded. }
    destruct fr as [f |]; [| discriminate Hfv].
    apply Hstep; auto. }
  assert (HP : forall f, P f).
  { apply (frame_induction P Q); unfold P, Q.
    - intros c depth ft H _. cbn [frameNestingDepth]. apply H. lia.
    - intros c depth ft H _. cbn [frameNestingDepth]. apply H. lia.
    - intros c o depth ft H _. cbn [frameNestingDepth].
      use_answers; show_bounded.
    - intros c o e z depth ft H _. cbn [frameNestingDepth].
      use_answers; show_bounded.
    - intros c p pa s sa ta IHp IHs depth ft H Hf.
      cbn [framesAttached] in Hf. apply andb_prop in Hf as [Hp Hs].
      cbn [frameNestingDepth].
      destruct (IHp depth H Hp) as (m1 & E1 & B1).
      destruct (IHs depth H Hs) as (m2 & E2 & B2).
      use_answers; try show_bounded.
      rewrite E1; cbn [andThen]. use_answers; try show_bounded.
      rewrite E2; cbn [andThen]. show_bounded.
    - intros vt o t v depth H Hfv. apply Hvec; auto. discriminate.
    - intros vt o t v f IHf depth H Hfv. apply Hvec; auto.
      intros f' [= <-]. exact IHf. }
  split; [exact HP |].
  intros [vt o t v fr] depth H Hfv. apply Hvec; auto.
Qed.

(** Every frame that the catalog gives for a body at time 0 has a frame
    in each of its constant vectors. *)
Definition catalogAttached : Prop :=
  forall b f,
    getOrbitFrame catalog b 0 = Some f \/ getBodyFrame catalog b 0 = Some f ->
    framesAttached f = true.

Lemma getFrameDepth_bounded (fuel : nat) :
  catalogAttached ->
  forall sel depth ft,
    (maxDepth + 1 <= depth + N.of_nat fuel)%N ->
    bounded depth (getFrameDepth catalog fuel sel depth maxDepth ft).
Proof using below_max.
  intros Hcat.
  induction fuel as [| fuel IH]; intros sel depth ft Hfuel.
  - cbn [getFrameDepth].
    destruct (N.ltb_spec maxDepth depth); [show_bounded | lia].
  - cbn [getFrameDepth].
    destruct (maxDepth <? depth)%N eqn:E.
    { apply N.ltb_lt in E. show_bounded. }
    destruct (match location sel with
              | Some l => getParentBody catalog l
              | None => body sel
              end) as [b |].
    2: { apply N.ltb_ge in E. show_bounded. }
    assert (Hnested : answers (getFrameDepth catalog fuel) (depth + 1)).
    { intros s d t Hd. apply IH. lia. }
    destruct (nesting_bounded (getFrameDepth catalog fuel)) as [Hframe _].
    rewrite (succ_uint_small _ E). apply N.ltb_ge in E.
    pose proof (Hcat b) as Hb.
    destruct (getOrbitFrame catalog b 0) as [orbitFrame |],
             (getBodyFrame catalog b 0) as [bodyFrame |], ft;
      repeat match goal with
      | |- context [frameNestingDepth ?r ?f ?d maxDepth ?t] =>
          let n := fresh "n" in
          let En := fresh "E" in
          let Bn := fresh "B" in
          destruct (Hframe f d t Hnested (Hb f ltac:(auto))) as (n & En & Bn);
          rewrite En; cbn [andThen]
      | |- context [(?a <? ?b)%N] => destruct (N.ltb_spec a b)
      end;
      show_bounded.
Qed.

Lemma nestingDepth_bounded (this : ReferenceFrame) (ft : FrameType) :
  catalogAttached -> framesAttached this = true ->
  exists n, nestingDepth catalog this maxDepth ft = Depth n
            /\ (n <= maxDepth + 1)%N.
Proof using below_max.
  intros Hcat Hthis. unfold nestingDepth.
  destruct (proj1 (nesting_bounded (getFrameDepth catalog (N.to_nat maxDepth + 1)))
                   this 0%N ft) as (n & En & Bn).
  - intros sel d t _. apply getFrameDepth_bounded; [exact Hcat | lia].
  - exact Hthis.
  - exists n. split; [exact En | lia].
Qed.

End Walk.

Lemma nestingDepth_fuel (catalog : Catalog) (maxDepth : N)
    (this : ReferenceFrame) (ft : FrameType) (fuel : nat) :
  (maxDepth < 2 ^ 32 - 1)%N ->
  (maxDepth + 1 <= N.of_nat fuel)%N ->
  frameNestingDepth (getFrameDepth catalog fuel) this 0 maxDepth ft
  = nestingDepth catalog this maxDepth ft.
Proof.
  intros Hmax Hfuel. unfold nestingDepth.
  apply (proj1 (nesting_agree maxDepth Hmax _ _)).
  intros sel d t _. apply getFrameDepth_fuel_irrelevant; [exact Hmax | lia | lia].
Qed.

(** Bodies 0, 1, ..., [k - 1], each in orbit about the next one and the
    last one about a star. *)
Definition chainCatalog (k : nat) : Catalog :=
  mkCatalog (fun _ _ => UniversalCoord.Zero) (fun _ _ => Eigen.Zero)
            (fun _ _ => Eigen.Zero) (fun _ => None)
            (fun b _ =>
               if (S b <? k)%nat then Some (J2000EclipticFrame (Sel_Body (S b)))
               else Some (J2000EclipticFrame (Sel_Star 0%nat)))
            (fun _ _ => None).

(** A body whose orbit frame is centered on the body itself. *)
Definition loopCatalog : Catalog :=
  mkCatalog (fun _ _ => UniversalCoord.Zero) (fun _ _ => Eigen.Zero)
            (fun _ _ => Eigen.Zero) (fun _ => None)
            (fun b _ => Some (J2000EclipticFrame (Sel_Body b)))
            (fun _ _ => None).

(** A body whose body frame is fixed to the body itself. *)
Definition selfFixedCatalog : Catalog :=
  mkCatalog (fun _ _ => UniversalCoord.Zero) (fun _ _ => Eigen.Zero)
            (fun _ _ => Eigen.Zero) (fun _ => None)
            (fun _ _ => None)
            (fun b _ => Some (BodyFixedFrame (Sel_Star 0%nat) (Sel_Body b))).

(** In a chain of [k] bodies, seen from body [b] at depth [depth], with
    [r] bodies left from [b] on. *)
Lemma getFrameDepth_chain (k : nat) (maxDepth : N) :
  (maxDepth < 2 ^ 32 - 1)%N ->
  forall (r b : nat) (depth : N) (fuel : nat),
    (b + S r = k)%nat ->
    (depth <= maxDepth + 1)%N ->
    (maxDepth + 1 <= depth + N.of_nat fuel)%N ->
    getFrameDepth (chainCatalog k) fuel (Sel_Body b) depth maxDepth PositionFrame
    = Depth (N.min (depth + N.of_nat (S r)) (maxDepth + 1)).
Proof.
  intros Hmax.
  induction r as [| r IH]; intros b depth fuel Hk Hdepth Hfuel.
  all: destruct (N.ltb_spec maxDepth depth) as [Hdeep | Hshallow].
  all: try (destruct fuel as [| fuel]; cbn [getFrameDepth];
            (destruct (N.ltb_spec maxDepth depth); [| lia]);
            f_equal; lia).
  all: destruct fuel as [| fuel]; [lia |].
  all: cbn [getFrameDepth location body chainCatalog getOrbitFrame
            getBodyFrame getParentBody].
  all: destruct (N.ltb_spec maxDepth depth); [lia |].
  all: rewrite (succ_uint_small maxDepth Hmax depth)
         by (apply N.ltb_ge; assumption).
  - destruct (Nat.ltb_spec (S b) k); [lia |].
    cbn [frameNestingDepth].
    assert (Hstar : getFrameDepth (chainCatalog k) fuel (Sel_Star 0%nat)
                      (depth + 1) maxDepth PositionFrame = Depth (depth + 1)).
    { destruct fuel; cbn [getFrameDepth location body];
        destruct (maxDepth <? depth + 1)%N; reflexivity. }
    rewrite Hstar. cbn [andThen].
    destruct (N.ltb_spec maxDepth (depth + 1)); f_equal; lia.
  - destruct (Nat.ltb_spec (S b) k); [| lia].
    cbn [frameNestingDepth].
    rewrite (IH (S b) (depth + 1)%N fuel) by lia.
    cbn [andThen].
    destruct (N.ltb_spec maxDepth
                (N.min (depth + 1 + N.of_nat (S r)) (maxDepth + 1)));
      f_equal; lia.
Qed.

(** The nesting depth of a frame centered on the first body of a chain of
    [k] bodies is [k], or [maxDepth + 1] when the chain is longer than
    [maxDepth]. *)
Lemma nestingDepth_chain (k : nat) (maxDepth : N) :
  (maxDepth < 2 ^ 32 - 1)%N -> (0 < k)%nat ->
  nestingDepth (chainCatalog k) (J2000EclipticFrame (Sel_Body 0%nat)) maxDepth
               PositionFrame
  = Depth (N.min (N.of_nat k) (maxDepth + 1)).
Proof.
  intros Hmax Hk. unfold nestingDepth. cbn [frameNestingDepth].
  destruct k as [| r]; [lia |].
  rewrite (getFrameDepth_chain (S r) maxDepth Hmax r 0%nat 0%N) by lia.
  f_equal.
Qed.

Example nestingDepth_chain_3 :
  nestingDepth (chainCatalog 3) (J2000EclipticFrame (Sel_Body 0%nat)) 10
               PositionFrame = Depth 3.
Proof. vm_compute. reflexivity. Qed.

Example nestingDepth_chain_50 :
  nestingDepth (chainCatalog 50) (J2000EclipticFrame (Sel_Body 0%nat)) 10
               PositionFrame = Depth 11.
Proof. vm_compute. reflexivity. Qed.

Example nestingDepth_loop :
  nestingDepth loopCatalog (J2000EclipticFrame (Sel_Body 0%nat)) 10
               PositionFrame = Depth 11.
Proof. vm_compute. reflexivity. Qed.

Example nestingDepth_selfFixed :
  nestingDepth selfFixedCatalog
               (BodyFixedFrame (Sel_Star 0%nat) (Sel_Body 0%nat)) 10
               OrientationFrame = Depth 11.
Proof. vm_compute. reflexivity. Qed.

(** Where the walk does end: with [maxDepth] below the largest
    [unsigned int], the walk of
    [nestingDepth] ends on every frame graph, cyclic or not, within
    [maxDepth + 1] nested calls of [getFrameDepth], and allowing more
    nested calls gives the same outcome; when no constant vector of the
    graph has a null frame the outcome is a depth of at most
    [maxDepth + 1].  A chain of [k] bodies gives [k], or [maxDepth + 1]
    when it is longer than [maxDepth]: with [maxDepth = 10], a chain of
    three bodies gives 3, and a chain of fifty bodies, a body in orbit
    about itself and a body fixed to itself give 11. *)
Theorem nestingDepth_terminates :
  (forall (catalog : Catalog) (maxDepth : N) (this : ReferenceFrame)
          (ft : FrameType),
      (maxDepth < 2 ^ 32 - 1)%N ->
      nestingDepth catalog this maxDepth ft <> OutOfFuel
      /\ (forall fuel : nat,
            (maxDepth + 1 <= N.of_nat fuel)%N ->
            frameNestingDepth (getFrameDepth catalog fuel) this 0 maxDepth ft
            = nestingDepth catalog this maxDepth ft)
      /\ (catalogAttached catalog -> framesAttached this = true ->
          exists n, nestingDepth catalog this maxDepth ft = Depth n
                    /\ (n <= maxDepth + 1)%N))
  /\ (forall (k : nat) (maxDepth : N),
        (maxDepth < 2 ^ 32 - 1)%N -> (0 < k)%nat ->
        nestingDepth (chainCatalog k) (J2000EclipticFrame (Sel_Body 0%nat))
                     maxDepth PositionFrame
        = Depth (N.min (N.of_nat k) (maxDepth + 1)))
  /\ nestingDepth (chainCatalog 3) (J2000EclipticFrame (Sel_Body 0%nat)) 10
                  PositionFrame = Depth 3
  /\ nestingDepth (chainCatalog 50) (J2000EclipticFrame (Sel_Body 0%nat)) 10
                  PositionFrame = Depth 11
  /\ nestingDepth loopCatalog (J2000EclipticFrame (Sel_Body 0%nat)) 10
                  PositionFrame = Depth 11
  /\ nestingDepth selfFixedCatalog
                  (BodyFixedFrame (Sel_Star 0%nat) (Sel_Body 0%nat)) 10
                  OrientationFrame = Depth 11.
Proof.
  split; [| split; [| split; [| split; [| split]]]].
  - intros catalog maxDepth this ft Hmax. split; [| split].
    + apply nestingDepth_fuelled, Hmax.
    + intros fuel Hfuel. apply nestingDepth_fuel; assumption.
    + intros Hcat Hthis. apply nestingDepth_bounded; assumption.
  - exact nestingDepth_chain.
  - exact nestingDepth_chain_3.
  - exact nestingDepth_chain_50.
  - exact nestingDepth_loop.
  - exact nestingDepth_selfFixed.
Qed.

Lemma getFrameDepth_loop_out_of_fuel (fuel : nat) :
  forall (b : Body) (depth : N),
    (depth <= 4294967295)%N ->
    getFrameDepth loopCatalog fuel (Sel_Body b) depth 4294967295 PositionFrame
    = OutOfFuel.
Proof.
  induction fuel as [| fuel IH]; intros b depth Hdepth.
  - cbn [getFrameDepth]. rewrite (proj2 (N.ltb_ge _ _) Hdepth).
    reflexivity.
  - cbn [getFrameDepth]. rewrite (proj2 (N.ltb_ge _ _) Hdepth).
    cbn [location body loopCatalog getOrbitFrame frameNestingDepth].
    rewrite IH; [reflexivity |].
    unfold succ_uint.
    pose proof (N.mod_upper_bound (depth + 1) (2 ^ 32) ltac:(discriminate)) as H.
    change (2 ^ 32)%N with 4294967296%N in *. lia.
Qed.

(** A body whose orbit frame is centered on a star at time 0 and on the
    body itself at every other time. *)
Definition laterLoopCatalog : Catalog :=
  mkCatalog (fun _ _ => UniversalCoord.Zero) (fun _ _ => Eigen.Zero)
            (fun _ _ => Eigen.Zero) (fun _ => None)
            (fun b t =>
               if Req_dec_T t 0 then Some (J2000EclipticFrame (Sel_Star 0%nat))
               else Some (J2000EclipticFrame (Sel_Body b)))
            (fun _ _ => None).

(** C9, on the code: [nestingDepth] does not return a depth on every
    frame graph.  For a two-vector frame centered on a star whose primary
    vector is a constant vector without a frame (the null frame that
    [FrameVector::direction] allows for), [FrameVector::nestingDepth]
    dereferences the null frame, whatever the catalog, the other vector,
    the axes, the limit and the frame type.  With the largest
    [unsigned int] as the limit, the walk from a body whose orbit frame
    is centered on the body itself never ends: no number of nested calls
    is enough.  And a cycle that is there at every time but 0 is not
    seen, as only the frames of time 0 are looked at: the depth found is
    1. *)
Theorem nestingDepth_null_frame :
  (forall (catalog : Catalog) (s : Star) (v : Vector3d)
          (primAxis : Z) (sec : FrameVector) (secAxis tertAxis : Z)
          (maxDepth : N) (ft : FrameType),
     nestingDepth catalog
       (TwoVectorFrame (Sel_Star s) (createConstantVector v None) primAxis
                       sec secAxis tertAxis)
       maxDepth ft
     = NullFrame)
  /\ (forall (fuel : nat) (b : Body),
        frameNestingDepth (getFrameDepth loopCatalog fuel)
                          (J2000EclipticFrame (Sel_Body b)) 0 4294967295
                          PositionFrame
        = OutOfFuel)
  /\ (forall (b : Body) (t : double),
        t <> 0%R ->
        getOrbitFrame laterLoopCatalog b t
        = Some (J2000EclipticFrame (Sel_Body b)))
  /\ nestingDepth laterLoopCatalog (J2000EclipticFrame (Sel_Body 0%nat)) 10
                  PositionFrame
     = Depth 1.
Proof.
  split; [| split; [| split]].
  - intros catalog s v primAxis sec secAxis tertAxis maxDepth ft.
    unfold nestingDepth. rewrite Nat.add_1_r.
    cbn [frameNestingDepth getFrameDepth location body].
    assert (H0 : (maxDepth <? 0)%N = false) by (apply N.ltb_ge; lia).
    rewrite H0. cbn [andThen]. rewrite H0.
    cbn [createConstantVector vectorNestingDepth]. rewrite H0. reflexivity.
  - intros fuel b. cbn [frameNestingDepth].
    apply getFrameDepth_loop_out_of_fuel. lia.
  - intros b t Ht. cbn [laterLoopCatalog getOrbitFrame].
    destruct (Req_dec_T t 0); [contradiction | reflexivity].
  - unfold nestingDepth.
    change (N.to_nat 10 + 1)%nat with 11%nat.
    cbn [frameNestingDepth getFrameDepth location body N.ltb N.compare
         laterLoopCatalog getOrbitFrame getBodyFrame].
    destruct (Req_dec_T 0 0) as [_ | Hne]; [| contradiction Hne; reflexivity].
    cbn [frameNestingDepth getFrameDepth location body andThen].
    reflexivity.
Qed.

End NestingDepthFacts.

(** ** Timeline phases *)

Module TimelineFacts.
Import Frame Timeline.

(** [phase] has been added at the end of the children of [frameTree], and
    the children of every other frame tree are as before. *)
Definition registered (universe universe' : Universe)
    (frameTree : FrameTreePtr) (phase : TimelinePhase) : Prop :=
  childrenOf frameTree universe' = childrenOf frameTree universe ++ [phase]
  /\ forall other, other <> frameTree ->
       childrenOf other universe' = childrenOf other universe.

Lemma registered_body (b : Body) (phase : TimelinePhase) (universe : Universe) :
  registered universe
    (addChild (BodyFrameTree b) phase (snd (getOrCreateFrameTree b universe)))
    (BodyFrameTree b) phase.
Proof.
  unfold registered, childrenOf, getOrCreateFrameTree. split.
  - destruct (bodyFrameTrees universe !! b) as [t |] eqn:E;
      cbn [snd addChild bodyFrameTrees].
    + rewrite lookup_alter_eq, E. reflexivity.
    + rewrite lookup_alter_eq, lookup_insert_eq. reflexivity.
  - intros [b' | s] Hother.
    + assert (b <> b') by congruence.
      destruct (bodyFrameTrees universe !! b) as [t |] eqn:E;
        cbn [snd addChild bodyFrameTrees];
        rewrite lookup_alter_ne, ?lookup_insert_ne by assumption; reflexivity.
    + destruct (bodyFrameTrees universe !! b); reflexivity.
Qed.

Lemma registered_star (s : Star) (phase : TimelinePhase) (universe : Universe) :
  registered universe
    (addChild (getFrameTree (fst (getOrCreateSolarSystem s universe))) phase
              (snd (getOrCreateSolarSystem s universe)))
    (SolarSystemFrameTree s) phase.
Proof.
  unfold registered, childrenOf, getOrCreateSolarSystem, getFrameTree. split.
  - destruct (solarSystems universe !! s) as [t |] eqn:E;
      cbn [fst snd addChild solarSystems].
    + rewrite lookup_alter_eq, E. reflexivity.
    + rewrite lookup_alter_eq, lookup_insert_eq. reflexivity.
  - intros [b | s'] Hother.
    + destruct (solarSystems universe !! s); reflexivity.
    + assert (s <> s') by congruence.
      destruct (solarSystems universe !! s) as [t |] eqn:E;
        cbn [fst snd addChild solarSystems];
        rewrite lookup_alter_ne, ?lookup_insert_ne by assumption; reflexivity.
Qed.

(** C4: [CreateTimelinePhase] returns the null pointer, and leaves the
    universe as it is, when [endTime <= startTime] and when the center of
    the orbit frame is neither a body nor a star.  Otherwise it returns a
    phase owned by the frame tree of the center body, or of the solar
    system of the center star, which exists afterwards (created with no
    children if it did not exist) and has the phase as its last child. *)
Theorem CreateTimelinePhase_contract
    (universe : Universe) (body : Body) (startTime endTime : double)
    (orbitFrame : ReferenceFrame) (orbit : Orbit)
    (bodyFrame : ReferenceFrame) (rotationModel : RotationModelPtr) :
  let result := CreateTimelinePhase universe body startTime endTime
                  orbitFrame orbit bodyFrame rotationModel in
  let phaseOf frameTree := mkTimelinePhase body startTime endTime orbitFrame
                             orbit bodyFrame rotationModel frameTree in
  (endTime <= startTime -> result = (None, universe))
  /\ (getType (getCenter orbitFrame) <> Type_Body ->
      getType (getCenter orbitFrame) <> Type_Star ->
      result = (None, universe))
  /\ (startTime < endTime ->
      forall b, getCenter orbitFrame = Sel_Body b ->
        fst result = Some (phaseOf (BodyFrameTree b))
        /\ registered universe (snd result) (BodyFrameTree b)
                      (phaseOf (BodyFrameTree b)))
  /\ (startTime < endTime ->
      forall s, getCenter orbitFrame = Sel_Star s ->
        fst result = Some (phaseOf (SolarSystemFrameTree s))
        /\ registered universe (snd result) (SolarSystemFrameTree s)
                      (phaseOf (SolarSystemFrameTree s))).
Proof.
  intros result phaseOf. subst result phaseOf.
  unfold CreateTimelinePhase.
  destruct (Rle_dec endTime startTime) as [Hle | Hlt].
  - repeat split; try reflexivity; intros; lra.
  - split; [intros; lra |]. split; [| split].
    + intros Hbody Hstar.
      destruct (getCenter orbitFrame); cbn in *; congruence.
    + intros _ b ->. cbn [Selection.body].
      pose proof (registered_body b
        (mkTimelinePhase body startTime endTime orbitFrame orbit bodyFrame
           rotationModel (BodyFrameTree b)) universe) as Hreg.
      unfold getOrCreateFrameTree in *.
      destruct (bodyFrameTrees universe !! b); cbn [fst snd] in *;
        split; [reflexivity | exact Hreg | reflexivity | exact Hreg].
    + intros _ s ->. cbn [Selection.body Selection.star].
      pose proof (registered_star s
        (mkTimelinePhase body startTime endTime orbitFrame orbit bodyFrame
           rotationModel (SolarSystemFrameTree s)) universe) as Hreg.
      unfold getOrCreateSolarSystem, getFrameTree in *.
      destruct (solarSystems universe !! s); cbn [fst snd] in *;
        split; [reflexivity | exact Hreg | reflexivity | exact Hreg].
Qed.

End TimelineFacts.

(** ** Conversions between a frame and its surroundings *)

Module ConversionFacts.
Import Frame EigenFacts.

Lemma vadd_vsub (c p : Vector3d) : vadd c (vsub p c) = p.
Proof. destruct c, p. unfold vadd, vsub; cbn [vx vy vz]. f_equal; ring. Qed.

Lemma vsub_vadd (c p : Vector3d) : vsub (vadd c p) c = p.
Proof. destruct c, p. unfold vadd, vsub; cbn [vx vy vz]. f_equal; ring. Qed.

Lemma isUnit_Identity : isUnit Identity.
Proof. unfold isUnit, qsquaredNorm, Identity; cbn [qw qx qy qz]. lra. Qed.

(** For a frame centered on a body or on a star whose orientation at
    [tjd] is a unit quaternion, [convertToAstrocentric] undoes
    [convertFromAstrocentric] at [tjd], and the other way round. *)
Theorem astrocentric_roundtrip
    (catalog : Catalog) (getOrientation : ReferenceFrame -> double -> Quaterniond)
    (this : ReferenceFrame) (p : Vector3d) (tjd : double) :
  getType (getCenter this) = Type_Body \/ getType (getCenter this) = Type_Star ->
  isUnit (getOrientation this tjd) ->
  convertToAstrocentric catalog getOrientation this
    (convertFromAstrocentric catalog getOrientation this p tjd) tjd = p
  /\ convertFromAstrocentric catalog getOrientation this
       (convertToAstrocentric catalog getOrientation this p tjd) tjd = p.
Proof.
  intros Hcenter Hunit.
  unfold convertToAstrocentric, convertFromAstrocentric.
  destruct (getCenter this) as [| s | b | d | l]; cbn [getType body] in *;
    try (destruct Hcenter; discriminate).
  - split.
    + apply rotate_conjugate_rotate, Hunit.
    + apply rotate_rotate_conjugate, Hunit.
  - split.
    + rewrite rotate_conjugate_rotate by exact Hunit. apply vadd_vsub.
    + rewrite vsub_vadd. apply rotate_rotate_conjugate, Hunit.
Qed.

Lemma astrocentric_roundtrip_witness :
  let catalog :=
    mkCatalog (fun _ _ => UniversalCoord.Zero) (fun _ _ => Eigen.Zero)
              (fun _ _ => mkVector3d 1 2 3) (fun _ => None)
              (fun _ _ => None) (fun _ _ => None) in
  let getOrientation := fun (_ : ReferenceFrame) (t : double) => AngleAxisY t in
  let this := J2000EclipticFrame (Sel_Body 4%nat) in
  convertToAstrocentric catalog getOrientation this
    (convertFromAstrocentric catalog getOrientation this UnitX 1) 1 = UnitX
  /\ convertFromAstrocentric catalog getOrientation this
       (convertToAstrocentric catalog getOrientation this UnitX 1) 1 = UnitX.
Proof.
  apply (astrocentric_roundtrip
           (mkCatalog (fun _ _ => UniversalCoord.Zero) (fun _ _ => Eigen.Zero)
              (fun _ _ => mkVector3d 1 2 3) (fun _ => None)
              (fun _ _ => None) (fun _ _ => None))
           (fun _ t => AngleAxisY t)
           (J2000EclipticFrame (Sel_Body 4%nat)) UnitX 1).
  - left. reflexivity.
  - apply isUnit_AngleAxisY.
Defined.

(** For a frame whose orientation at [tjd] is a unit quaternion, the
    quaternion overload of [convertToUniversal] undoes that of
    [convertFromUniversal] at [tjd], and the other way round. *)
Theorem convertUniversal_q_roundtrip
    (getOrientation : ReferenceFrame -> double -> Quaterniond)
    (this : ReferenceFrame) (q : Quaterniond) (tjd : double) :
  isUnit (getOrientation this tjd) ->
  convertToUniversal_q getOrientation this
    (convertFromUniversal_q getOrientation this q tjd) tjd = q
  /\ convertFromUniversal_q getOrientation this
       (convertToUniversal_q getOrientation this q tjd) tjd = q.
Proof.
  intros Hunit. unfold convertToUniversal_q, convertFromUniversal_q. split.
  - apply qmul_conjugate_cancel_r, Hunit.
  - apply qmul_cancel_conjugate_r, Hunit.
Qed.

Lemma convertUniversal_q_roundtrip_witness :
  let getOrientation := fun (_ : ReferenceFrame) (t : double) => AngleAxisX t in
  let this := J2000EquatorFrame (Sel_Star 0%nat) in
  let q := mkQuaterniond 1 2 3 4 in
  convertToUniversal_q getOrientation this
    (convertFromUniversal_q getOrientation this q 5) 5 = q
  /\ convertFromUniversal_q getOrientation this
       (convertToUniversal_q getOrientation this q 5) 5 = q.
Proof.
  apply (convertUniversal_q_roundtrip (fun _ t => AngleAxisX t)
           (J2000EquatorFrame (Sel_Star 0%nat)) (mkQuaterniond 1 2 3 4) 5).
  apply isUnit_AngleAxisX.
Defined.

End ConversionFacts.

(** ** Two-vector frames *)

Module TwoVectorFacts.
Import Frame.

(** The six products of the rows of a matrix are those of an orthonormal
    basis. *)
Definition orthonormal (m : Matrix3d) : Prop :=
  dot (row0 m) (row0 m) = 1 /\ dot (row1 m) (row1 m) = 1
  /\ dot (row2 m) (row2 m) = 1 /\ dot (row0 m) (row1 m) = 0
  /\ dot (row0 m) (row2 m) = 0 /\ dot (row1 m) (row2 m) = 0.

Lemma computeOrientation_of_matrix
    (catalog : Catalog) (getOrientation : ReferenceFrame -> double -> Quaterniond)
    (prim : FrameVector) (primAxis : Z) (sec : FrameVector)
    (secAxis tertAxis : Z) (tjd : double) :
  TwoVectorFrame_computeOrientation catalog getOrientation
    prim primAxis sec secAxis tertAxis tjd
  = match TwoVectorFrame_matrix catalog getOrientation
            prim primAxis sec secAxis tertAxis tjd with
    | Some m => ofRotationMatrix m
    | None => Identity
    end.
Proof.
  unfold TwoVectorFrame_computeOrientation, TwoVectorFrame_matrix,
    TwoVectorFrame_directions.
  destruct (Rlt_dec _ Tolerance); reflexivity.
Qed.

Lemma TwoVectorFrame_new_tertiaryAxis
    (center : Selection) (prim : FrameVector) (primAxis : Z)
    (sec : FrameVector) (secAxis : Z) :
  TwoVectorFrame_new center prim primAxis sec secAxis
  = TwoVectorFrame center prim primAxis sec secAxis
                   (TwoVectorFrame_tertiaryAxis primAxis secAxis).
Proof. reflexivity. Qed.

(** The absolute values of two valid axes. *)
Lemma validAxes_cases (primAxis secAxis : Z) :
  validAxes primAxis secAxis ->
  (Z.abs primAxis = 1 /\ Z.abs secAxis = 2)%Z
  \/ (Z.abs primAxis = 2 /\ Z.abs secAxis = 3)%Z
  \/ (Z.abs primAxis = 3 /\ Z.abs secAxis = 1)%Z
  \/ (Z.abs primAxis = 2 /\ Z.abs secAxis = 1)%Z
  \/ (Z.abs primAxis = 3 /\ Z.abs secAxis = 2)%Z
  \/ (Z.abs primAxis = 1 /\ Z.abs secAxis = 3)%Z.
Proof. unfold validAxes. lia. Qed.

(** The constructor of a two-vector frame, given the axes that it
    asserts to be valid, chooses as tertiary axis the one of 1, 2, 3 that
    is neither the primary nor the secondary axis. *)
Theorem TwoVectorFrame_tertiaryAxis_remaining (primAxis secAxis : Z) :
  validAxes primAxis secAxis ->
  let tertiaryAxis := TwoVectorFrame_tertiaryAxis primAxis secAxis in
  (1 <= tertiaryAxis <= 3
   /\ tertiaryAxis <> Z.abs primAxis
   /\ tertiaryAxis <> Z.abs secAxis
   /\ Z.abs primAxis + Z.abs secAxis + tertiaryAxis = 6)%Z.
Proof.
  intros Hvalid. unfold TwoVectorFrame_tertiaryAxis.
  destruct (validAxes_cases _ _ Hvalid)
    as [[-> ->] | [[-> ->] | [[-> ->] | [[-> ->] | [[-> ->] | [-> ->]]]]]];
    cbn; lia.
Qed.

Lemma TwoVectorFrame_tertiaryAxis_remaining_witness :
  let tertiaryAxis := TwoVectorFrame_tertiaryAxis (-3) 1 in
  (1 <= tertiaryAxis <= 3
   /\ tertiaryAxis <> Z.abs (-3)
   /\ tertiaryAxis <> Z.abs 1
   /\ Z.abs (-3) + Z.abs 1 + tertiaryAxis = 6)%Z.
Proof.
  apply (TwoVectorFrame_tertiaryAxis_remaining (-3) 1).
  unfold validAxes. lia.
Defined.

Lemma squaredNorm_nonneg (v : Vector3d) : 0 <= squaredNorm v.
Proof. unfold squaredNorm. nra. Qed.

Lemma squaredNorm_zero (v : Vector3d) : squaredNorm v = 0 -> v = Eigen.Zero.
Proof.
  destruct v as [a b c]. unfold squaredNorm, Eigen.Zero; cbn [vx vy vz].
  intros H. f_equal; nra.
Qed.

Lemma squaredNorm_vneg (v : Vector3d) : squaredNorm (vneg v) = squaredNorm v.
Proof. unfold squaredNorm, vneg; cbn [vx vy vz]. ring. Qed.

Lemma squaredNorm_vdiv (v : Vector3d) (s : double) :
  s * s = squaredNorm v -> 0 < s -> squaredNorm (vdiv v s) = 1.
Proof.
  intros Hs Hpos. unfold squaredNorm, vdiv in *; cbn [vx vy vz] in *.
  replace (vx v / s * (vx v / s) + vy v / s * (vy v / s) + vz v / s * (vz v / s))
    with ((vx v * vx v + vy v * vy v + vz v * vz v) / (s * s))
    by (field; lra).
  rewrite <- Hs. field. nra.
Qed.

(** A normalized vector is a unit vector or the zero vector. *)
Lemma normalized_cases (v : Vector3d) :
  squaredNorm (normalized v) = 1 \/ normalized v = Eigen.Zero.
Proof.
  unfold normalized. destruct (Rlt_dec 0 (squaredNorm v)) as [Hpos | Hzero].
  - left. apply squaredNorm_vdiv.
    + apply sqrt_sqrt. lra.
    + apply sqrt_lt_R0. exact Hpos.
  - right. apply squaredNorm_zero. pose proof (squaredNorm_nonneg v). lra.
Qed.

Lemma norm_cross_Zero_l (v : Vector3d) (flip : bool) :
  norm (cross (if flip then vneg Eigen.Zero else Eigen.Zero) v) = 0.
Proof.
  unfold norm. rewrite <- sqrt_0. f_equal.
  destruct flip; unfold squaredNorm, cross, vneg, Eigen.Zero; cbn [vx vy vz];
    ring.
Qed.

Lemma norm_cross_Zero_r (v : Vector3d) (flip : bool) :
  norm (cross v (if flip then vneg Eigen.Zero else Eigen.Zero)) = 0.
Proof.
  unfold norm. rewrite <- sqrt_0. f_equal.
  destruct flip; unfold squaredNorm, cross, vneg, Eigen.Zero; cbn [vx vy vz];
    ring.
Qed.

Lemma Tolerance_pos : 0 < Tolerance.
Proof. unfold Tolerance. lra. Qed.

(** When a direction is the zero vector, the orientation of a two-vector
    frame is the identity: [normalize()] leaves the zero vector as it is,
    and the cross product is then shorter than the tolerance. *)
Theorem TwoVectorFrame_computeOrientation_zero_direction
    (catalog : Catalog) (getOrientation : ReferenceFrame -> double -> Quaterniond)
    (prim : FrameVector) (primAxis : Z) (sec : FrameVector)
    (secAxis tertAxis : Z) (tjd : double) :
  direction catalog getOrientation prim tjd = Eigen.Zero
  \/ direction catalog getOrientation sec tjd = Eigen.Zero ->
  TwoVectorFrame_computeOrientation catalog getOrientation
    prim primAxis sec secAxis tertAxis tjd = Identity.
Proof.
  intros Hzero. unfold TwoVectorFrame_computeOrientation.
  assert (Hnz : normalized Eigen.Zero = Eigen.Zero).
  { destruct (normalized_cases Eigen.Zero) as [H | H]; [| exact H].
    unfold normalized in H |- *.
    destruct (Rlt_dec 0 (squaredNorm Eigen.Zero)) as [Hpos | _]; [| reflexivity].
    unfold squaredNorm, Eigen.Zero in Hpos; cbn [vx vy vz] in Hpos. lra. }
  destruct (Rlt_dec _ Tolerance) as [_ | Hlong]; [reflexivity |].
  exfalso. apply Hlong. pose proof Tolerance_pos.
  destruct Hzero as [-> | ->]; rewrite Hnz.
  - rewrite norm_cross_Zero_l. assumption.
  - rewrite norm_cross_Zero_r. assumption.
Qed.

(** A catalog in which every object stays at the origin. *)
Definition fixedCatalog : Catalog :=
  mkCatalog (fun _ _ => UniversalCoord.Zero) (fun _ _ => Eigen.Zero)
            (fun _ _ => Eigen.Zero) (fun _ => None)
            (fun _ _ => None) (fun _ _ => None).

Lemma TwoVectorFrame_computeOrientation_zero_direction_witness :
  TwoVectorFrame_computeOrientation fixedCatalog (fun _ _ => Identity)
    (createRelativeVelocityVector (Sel_Body 1%nat) (Sel_Body 2%nat)) 1
    (createConstantVector UnitY None) 2 3 0 = Identity.
Proof.
  apply (TwoVectorFrame_computeOrientation_zero_direction
           fixedCatalog (fun _ _ => Identity)
           (createRelativeVelocityVector (Sel_Body 1%nat) (Sel_Body 2%nat)) 1%Z
           (createConstantVector UnitY None) 2%Z 3%Z 0).
  left. unfold direction, createRelativeVelocityVector, fixedCatalog,
    vsub, Eigen.Zero; cbn [getVelocity vx vy vz]. f_equal; ring.
Defined.

Lemma dot_self (v : Vector3d) : dot v v = squaredNorm v.
Proof. reflexivity. Qed.

(** The rows that the code assembles from a unit vector [a] and a unit
    vector [c] orthogonal to it, in each of the six placements, are an
    orthonormal basis of determinant 1. *)
Lemma assembled_rows (a c : Vector3d) (m : Matrix3d) :
  dot a a = 1 -> dot c c = 1 -> dot a c = 0 ->
  m = mkMatrix3d a (cross c a) c
  \/ m = mkMatrix3d c a (cross c a)
  \/ m = mkMatrix3d (cross c a) c a
  \/ m = mkMatrix3d (cross a (vneg c)) a (vneg c)
  \/ m = mkMatrix3d (vneg c) (cross a (vneg c)) a
  \/ m = mkMatrix3d a (vneg c) (cross a (vneg c)) ->
  orthonormal m /\ determinant m = 1.
Proof.
  destruct a as [a1 a2 a3], c as [c1 c2 c3].
  unfold dot; cbn [vx vy vz]. intros Ha Hc Hac Hm.
  unfold orthonormal, determinant.
  destruct Hm as [-> | [-> | [-> | [-> | [-> | ->]]]]];
    cbv [dot cross vneg row0 row1 row2 vx vy vz];
    repeat split; nsatz.
Qed.

(** For valid axes and directions whose cross product is not shorter
    than the tolerance, the matrix from which the orientation of a
    two-vector frame is made is a rotation matrix: its rows are
    orthonormal and its determinant is 1.  The row of the primary axis is
    the normalized primary direction (reversed for a negative axis), and
    the row of the secondary axis has the length of the cross product as
    its product with the secondary direction, so it points to the side of
    the secondary direction. *)
Theorem TwoVectorFrame_matrix_rotation
    (catalog : Catalog) (getOrientation : ReferenceFrame -> double -> Quaterniond)
    (prim : FrameVector) (primAxis : Z) (sec : FrameVector) (secAxis : Z)
    (tjd : double) :
  validAxes primAxis secAxis ->
  let v0 := fst (TwoVectorFrame_directions catalog getOrientation
                   prim primAxis sec secAxis tjd) in
  let v1 := snd (TwoVectorFrame_directions catalog getOrientation
                   prim primAxis sec secAxis tjd) in
  let tertAxis := TwoVectorFrame_tertiaryAxis primAxis secAxis in
  Tolerance <= norm (cross v0 v1) ->
  exists m,
    TwoVectorFrame_matrix catalog getOrientation
      prim primAxis sec secAxis tertAxis tjd = Some m
    /\ TwoVectorFrame_computeOrientation catalog getOrientation
         prim primAxis sec secAxis tertAxis tjd = ofRotationMatrix m
    /\ orthonormal m
    /\ determinant m = 1
    /\ row m (Z.abs primAxis - 1) = v0
    /\ dot (row m (Z.abs secAxis - 1)) v1 = norm (cross v0 v1).
Proof.
  intros Hvalid v0 v1 tertAxis Hlong.
  rewrite computeOrientation_of_matrix.
  unfold TwoVectorFrame_matrix.
  destruct (TwoVectorFrame_directions catalog getOrientation
              prim primAxis sec secAxis tjd) as [w0 w1] eqn:Hdirs.
  cbn [fst snd] in v0, v1. subst v0 v1.
  pose proof Tolerance_pos as Htol.
  set (L := norm (cross w0 w1)) in *.
  destruct (Rlt_dec L Tolerance) as [Hshort | _]; [lra |].
  assert (HL : 0 < L) by lra.
  assert (HLL : L * L = squaredNorm (cross w0 w1)).
  { unfold L, norm. apply sqrt_sqrt, squaredNorm_nonneg. }
  (* the primary direction is a unit vector *)
  assert (Hw0 : dot w0 w0 = 1).
  { unfold TwoVectorFrame_directions in Hdirs. injection Hdirs as Hw0 _.
    rewrite dot_self.
    destruct (normalized_cases (direction catalog getOrientation prim tjd))
      as [Hunit | Hzero].
    - rewrite <- Hw0. destruct (primAxis <? 0)%Z;
        rewrite ?squaredNorm_vneg; exact Hunit.
    - exfalso. rewrite Hzero in Hw0.
      assert (L = 0); [| lra].
      unfold L. rewrite <- Hw0. apply norm_cross_Zero_l. }
  set (c := vdiv (cross w0 w1) L).
  assert (Hc : dot c c = 1).
  { rewrite dot_self. apply squaredNorm_vdiv; assumption. }
  assert (Hac : dot w0 c = 0).
  { unfold dot, c, vdiv, cross; cbn [vx vy vz]. field. lra. }
  assert (Hsec : dot (cross c w0) w1 = L).
  { unfold squaredNorm in HLL.
    unfold dot, c, vdiv, cross in *; cbn [vx vy vz] in *.
    apply Rmult_eq_reg_r with L; [| lra]. rewrite HLL. field. lra. }
  assert (Hsec' : cross w0 (vneg c) = cross c w0).
  { unfold cross, vneg; cbn [vx vy vz]. f_equal; ring. }
  unfold tertAxis, TwoVectorFrame_tertiaryAxis.
  destruct (validAxes_cases _ _ Hvalid)
    as [[-> ->] | [[-> ->] | [[-> ->] | [[-> ->] | [[-> ->] | [-> ->]]]]]];
    cbn -[cross vneg dot];
    eexists; (split; [reflexivity |]); (split; [reflexivity |]);
    (split; [| split; [| split; [reflexivity |]]]);
    try (apply (assembled_rows w0 c); auto 7; fail);
    rewrite ?Hsec'; exact Hsec.
Qed.

Lemma normalized_UnitX : normalized UnitX = UnitX.
Proof.
  unfold normalized, squaredNorm, UnitX; cbn [vx vy vz].
  replace (1 * 1 + 0 * 0 + 0 * 0) with 1 by ring.
  destruct (Rlt_dec 0 1) as [_ | H]; [| lra].
  rewrite sqrt_1. unfold vdiv; cbn [vx vy vz]. f_equal; field.
Qed.

Lemma normalized_UnitY : normalized UnitY = UnitY.
Proof.
  unfold normalized, squaredNorm, UnitY; cbn [vx vy vz].
  replace (0 * 0 + 1 * 1 + 0 * 0) with 1 by ring.
  destruct (Rlt_dec 0 1) as [_ | H]; [| lra].
  rewrite sqrt_1. unfold vdiv; cbn [vx vy vz]. f_equal; field.
Qed.

Lemma TwoVectorFrame_matrix_rotation_witness :
  let prim := createConstantVector UnitX None in
  let sec := createConstantVector UnitY None in
  let getOrientation := fun (_ : ReferenceFrame) (_ : double) => Identity in
  let v0 := fst (TwoVectorFrame_directions fixedCatalog getOrientation
                   prim 1 sec 2 0) in
  let v1 := snd (TwoVectorFrame_directions fixedCatalog getOrientation
                   prim 1 sec 2 0) in
  exists m,
    TwoVectorFrame_matrix fixedCatalog getOrientation prim 1 sec 2
      (TwoVectorFrame_tertiaryAxis 1 2) 0 = Some m
    /\ TwoVectorFrame_computeOrientation fixedCatalog getOrientation
         prim 1 sec 2 (TwoVectorFrame_tertiaryAxis 1 2) 0 = ofRotationMatrix m
    /\ orthonormal m
    /\ determinant m = 1
    /\ row m (Z.abs 1 - 1) = v0
    /\ dot (row m (Z.abs 2 - 1)) v1 = norm (cross v0 v1).
Proof.
  apply (TwoVectorFrame_matrix_rotation fixedCatalog (fun _ _ => Identity)
           (createConstantVector UnitX None) 1%Z
           (createConstantVector UnitY None) 2%Z 0).
  - unfold validAxes. lia.
  - unfold TwoVectorFrame_directions, direction, createConstantVector.
    cbn [fst snd Z.ltb Z.compare].
    rewrite normalized_UnitX, normalized_UnitY.
    unfold norm, squaredNorm, cross, UnitX, UnitY, Tolerance; cbn [vx vy vz].
    replace ((0 * 0 - 0 * 1) * (0 * 0 - 0 * 1)
             + (0 * 0 - 1 * 0) * (0 * 0 - 1 * 0)
             + (1 * 1 - 0 * 0) * (1 * 1 - 0 * 0)) with 1 by ring.
    rewrite sqrt_1. lra.
Defined.

End TwoVectorFacts.

(** ** Uniform and precessing rotation *)

Module UniformRotationFacts.
Import Rotation EigenFacts.

Lemma floor_plus_IZR (x : double) (k : Z) : floor (x + IZR k) = floor x + IZR k.
Proof.
  unfold floor. rewrite <- plus_IZR. f_equal. symmetry.
  apply Int_part_spec. rewrite plus_IZR.
  pose proof (base_Int_part x) as [Hle Hgt]. lra.
Qed.

(** The orientation that the spin of a uniform rotation model gives is
    periodic: for a period other than 0 the spin at [t] plus a whole
    number [k] of periods is the spin at [t] up to the sign of the
    quaternion.  This does not rest on the division in [spin] being
    exact: whatever the two values of [rotations] are, when the later one
    is the earlier one plus [k] and an error [delta], the later spin is
    the earlier one turned further about the y axis by [- delta * 2 pi],
    up to the sign of the quaternion. *)
Theorem UniformRotationModel_spin_periodic
    (u : UniformRotationModel) (t : double) (k : Z) :
  period u <> 0 ->
  sameOrientation (UniformRotationModel_spin u t)
                  (UniformRotationModel_spin u (t + IZR k * period u))
  /\ forall rotations delta,
       sameOrientation
         (qmul (UniformRotationModel_spinOfRotations u rotations)
               (AngleAxisY (- delta * 2 * PI)))
         (UniformRotationModel_spinOfRotations u (rotations + IZR k + delta)).
Proof.
  intros HP. split.
  - apply RotationFacts.sameOrientation_eq.
    unfold UniformRotationModel_spin.
    replace ((t + IZR k * period u - epoch u) / period u)
      with ((t - epoch u) / period u + IZR k) by (field; exact HP).
    rewrite floor_plus_IZR. f_equal. lra.
  - intros rotations delta. apply RotationFacts.spinOfRotations_turned.
Qed.

Lemma UniformRotationModel_spin_periodic_witness :
  sameOrientation
    (UniformRotationModel_spin (mkUniformRotationModel 3 1 10 2 4) 7)
    (UniformRotationModel_spin (mkUniformRotationModel 3 1 10 2 4)
                               (7 + IZR (-5) * 3))
  /\ forall rotations delta,
       sameOrientation
         (qmul (UniformRotationModel_spinOfRotations
                  (mkUniformRotationModel 3 1 10 2 4) rotations)
               (AngleAxisY (- delta * 2 * PI)))
         (UniformRotationModel_spinOfRotations
            (mkUniformRotationModel 3 1 10 2 4)
            (rotations + IZR (-5) + delta)).
Proof.
  apply (UniformRotationModel_spin_periodic
           (mkUniformRotationModel 3 1 10 2 4) 7 (-5)).
  cbn [period]. lra.
Defined.

Lemma norm_vscale_unit (v : Vector3d) (s : double) :
  squaredNorm v = 1 -> norm (vscale v s) = Rabs s.
Proof.
  intros Hv. unfold norm.
  replace (squaredNorm (vscale v s)) with (Rsqr s).
  - apply sqrt_Rsqr_abs.
  - unfold squaredNorm, vscale, Rsqr in *; cbn [vx vy vz].
    transitivity (s * s * (vx v * vx v + vy v * vy v + vz v * vz v)); [| ring].
    rewrite Hv. ring.
Qed.

Lemma squaredNorm_UnitY : squaredNorm UnitY = 1.
Proof. unfold squaredNorm, UnitY; cbn [vx vy vz]. ring. Qed.

Lemma isUnit_equator (u : UniformRotationModel) (t : double) :
  isUnit (UniformRotationModel_equatorOrientationAtTime u t).
Proof.
  apply isUnit_qmul; [apply isUnit_AngleAxisX | apply isUnit_AngleAxisY].
Qed.

(** Whatever the inclination and the ascending node, the spin, the
    equator orientation and the orientation of a uniform rotation model
    with a period other than 0 are unit quaternions, and its angular
    velocity has the magnitude 2 pi over the magnitude of the period at
    every time. *)
Theorem UniformRotationModel_unit_and_rate
    (u : UniformRotationModel) (t : double) :
  period u <> 0 ->
  isUnit (UniformRotationModel_spin u t)
  /\ isUnit (UniformRotationModel_equatorOrientationAtTime u t)
  /\ isUnit (UniformRotationModel_orientationAtTime u t)
  /\ norm (UniformRotationModel_angularVelocityAtTime u t)
     = 2 * PI / Rabs (period u).
Proof.
  intros HP.
  assert (Hspin : isUnit (UniformRotationModel_spin u t))
    by apply isUnit_AngleAxisY.
  pose proof (isUnit_equator u t) as Heq.
  repeat split; try assumption.
  - apply isUnit_qmul; assumption.
  - unfold UniformRotationModel_angularVelocityAtTime.
    rewrite norm_vscale_unit.
    + pose proof PI_RGT_0.
      unfold Rdiv. rewrite Rabs_mult, Rabs_inv, (Rabs_pos_eq (2 * PI)) by lra.
      reflexivity.
    + rewrite squaredNorm_rotate by (apply isUnit_conjugate, Heq).
      apply squaredNorm_UnitY.
Qed.

Lemma UniformRotationModel_unit_and_rate_witness :
  isUnit (UniformRotationModel_spin (mkUniformRotationModel (-3) 1 10 2 4) 7)
  /\ isUnit (UniformRotationModel_equatorOrientationAtTime
               (mkUniformRotationModel (-3) 1 10 2 4) 7)
  /\ isUnit (UniformRotationModel_orientationAtTime
               (mkUniformRotationModel (-3) 1 10 2 4) 7)
  /\ norm (UniformRotationModel_angularVelocityAtTime
             (mkUniformRotationModel (-3) 1 10 2 4) 7)
     = 2 * PI / Rabs (period (mkUniformRotationModel (-3) 1 10 2 4)).
Proof.
  apply (UniformRotationModel_unit_and_rate
           (mkUniformRotationModel (-3) 1 10 2 4) 7).
  cbn [period]. lra.
Defined.

Lemma qmul_qneg_r (a b : Quaterniond) : qmul a (qneg b) = qneg (qmul a b).
Proof. unfold qmul, qneg; cbn [qw qx qy qz]. f_equal; ring. Qed.

Lemma rotate_qneg (q : Quaterniond) (v : Vector3d) :
  rotate (qneg q) v = rotate q v.
Proof.
  cbv [rotate qneg cross vadd vscale qvec vx vy vz qw qx qy qz].
  f_equal; ring.
Qed.

Lemma AngleAxisY_full_turn (angle : double) :
  AngleAxisY (angle + 2 * PI) = qneg (AngleAxisY angle).
Proof.
  unfold AngleAxisY, qneg; cbn [qw qx qy qz].
  replace ((angle + 2 * PI) / 2) with (angle / 2 + PI) by field.
  rewrite neg_cos, neg_sin. f_equal; ring.
Qed.

(** The uniform rotation model with the parameters of a precessing one. *)
Definition withoutPrecession (p : PrecessingRotationModel)
  : UniformRotationModel :=
  mkUniformRotationModel (p_period p) (p_offset p) (p_epoch p)
                         (p_inclination p) (p_ascendingNode p).

(** A precessing rotation model spins like the uniform rotation model
    with the same parameters; with a precession period of 0 its equator
    orientation is that of the uniform model too, and otherwise the
    equator orientation after one more precession period is the negated
    quaternion, which turns every vector the same way. *)
Theorem PrecessingRotationModel_precession
    (p : PrecessingRotationModel) (t : double) :
  PrecessingRotationModel_spin p t
  = UniformRotationModel_spin (withoutPrecession p) t
  /\ (precessionPeriod p = 0 ->
      PrecessingRotationModel_equatorOrientationAtTime p t
      = UniformRotationModel_equatorOrientationAtTime (withoutPrecession p) t)
  /\ (precessionPeriod p <> 0 ->
      PrecessingRotationModel_equatorOrientationAtTime p (t + precessionPeriod p)
      = qneg (PrecessingRotationModel_equatorOrientationAtTime p t)
      /\ forall v,
           rotate (PrecessingRotationModel_equatorOrientationAtTime
                     p (t + precessionPeriod p)) v
           = rotate (PrecessingRotationModel_equatorOrientationAtTime p t) v).
Proof.
  split; [reflexivity |]. split.
  - intros Hzero. unfold PrecessingRotationModel_equatorOrientationAtTime.
    destruct (Req_dec_T (precessionPeriod p) 0); [reflexivity | contradiction].
  - intros Hprec.
    assert (Hneg : PrecessingRotationModel_equatorOrientationAtTime
                     p (t + precessionPeriod p)
                   = qneg (PrecessingRotationModel_equatorOrientationAtTime p t)).
    { unfold PrecessingRotationModel_equatorOrientationAtTime.
      destruct (Req_dec_T (precessionPeriod p) 0); [contradiction |].
      rewrite <- qmul_qneg_r. f_equal. unfold math.YRotation.
      rewrite <- AngleAxisY_full_turn. f_equal. field. exact Hprec. }
    split; [exact Hneg |].
    intros v. rewrite Hneg. apply rotate_qneg.
Qed.

Lemma PrecessingRotationModel_precession_witness :
  PrecessingRotationModel_equatorOrientationAtTime
    (mkPrecessingRotationModel 1 0 10 2 4 9400000) (7 + 9400000)
  = qneg (PrecessingRotationModel_equatorOrientationAtTime
            (mkPrecessingRotationModel 1 0 10 2 4 9400000) 7).
Proof.
  apply (PrecessingRotationModel_precession
           (mkPrecessingRotationModel 1 0 10 2 4 9400000) 7).
  cbn [precessionPeriod]. lra.
Defined.

End UniformRotationFacts.

(** ** The caching rotation model answers like its hooks *)

Module CachingRotationFacts.
Import Rotation RotationFacts.

Section Transparency.

Variable computeSpin : double -> Quaterniond.
Variable computeEquatorOrientation : double -> Quaterniond.
Variable periodic : bool.
Variable thePeriod : double.

Local Abbreviation spinOf :=
  (CachingRotationModel_spin computeSpin).
Local Abbreviation equatorOf :=
  (CachingRotationModel_equatorOrientationAtTime computeEquatorOrientation).
Local Abbreviation orientationOf :=
  (CachingRotationModel_orientationAtTime computeSpin computeEquatorOrientation).
Local Abbreviation computeVelocityOf :=
  (CachingRotationModel_computeAngularVelocity
     computeSpin computeEquatorOrientation periodic thePeriod).
Local Abbreviation velocityOf :=
  (CachingRotationModel_angularVelocityAtTime
     computeSpin computeEquatorOrientation periodic thePeriod).
Local Abbreviation coherent :=
  (coherentCache computeSpin computeEquatorOrientation).
Local Abbreviation orientationAt :=
  (hookOrientation computeSpin computeEquatorOrientation).

(** The angular velocity that differentiating the hooks at [t] gives. *)
Definition hookAngularVelocity (t : double) : Vector3d :=
  let dt := chooseDiffTimeDelta periodic thePeriod in
  axisAngleRate (qmul (conjugate (orientationAt (t + dt))) (orientationAt t)) dt.

(** A cached angular velocity that is marked valid is the one of the
    cached time. *)
Definition velocityCoherent (c : RotationCache) : Prop :=
  angularVelocityCacheValid c = true ->
  lastAngularVelocity c = hookAngularVelocity (lastTime c).

Lemma spin_velocityCoherent (tjd : double) (c : RotationCache) :
  velocityCoherent c -> velocityCoherent (snd (spinOf tjd c)).
Proof.
  intros Hv. unfold CachingRotationModel_spin, velocityCoherent.
  destruct (double_neb tjd (lastTime c)).
  - cbn. intros H; discriminate H.
  - destruct (spinCacheValid c); cbn; exact Hv.
Qed.

Lemma equator_velocityCoherent (tjd : double) (c : RotationCache) :
  velocityCoherent c -> velocityCoherent (snd (equatorOf tjd c)).
Proof.
  intros Hv.
  unfold CachingRotationModel_equatorOrientationAtTime, velocityCoherent.
  destruct (double_neb tjd (lastTime c)).
  - cbn. intros H; discriminate H.
  - destruct (equatorCacheValid c); cbn; exact Hv.
Qed.

Lemma orientation_velocityCoherent (tjd : double) (c : RotationCache) :
  velocityCoherent c -> velocityCoherent (snd (orientationOf tjd c)).
Proof.
  intros Hv. unfold CachingRotationModel_orientationAtTime.
  pose proof (spin_velocityCoherent tjd c Hv) as H1.
  destruct (spinOf tjd c) as [s c1]. cbn [snd] in H1.
  pose proof (equator_velocityCoherent tjd c1 H1) as H2.
  destruct (equatorOf tjd c1) as [e c2]. exact H2.
Qed.

Lemma orientation_lastTime (tjd : double) (c : RotationCache) :
  lastTime (snd (orientationOf tjd c)) = tjd.
Proof.
  unfold CachingRotationModel_orientationAtTime.
  destruct (spinOf tjd c) as [s c1].
  assert (H : lastTime (snd (equatorOf tjd c1)) = tjd).
  { unfold CachingRotationModel_equatorOrientationAtTime.
    destruct (double_neb tjd (lastTime c1)) eqn:Hne.
    - reflexivity.
    - apply double_neb_false in Hne.
      destruct (equatorCacheValid c1); cbn; congruence. }
  destruct (equatorOf tjd c1) as [e c2]. exact H.
Qed.

Lemma computeAngularVelocity_cache (tjd : double) (c : RotationCache) :
  snd (computeVelocityOf tjd c) = snd (orientationOf tjd c).
Proof.
  unfold CachingRotationModel_computeAngularVelocity.
  destruct (orientationOf tjd c) as [q0 c1].
  destruct (Rlt_dec _ _); reflexivity.
Qed.

Lemma angularVelocityAtTime_step (tjd : double) (c : RotationCache) :
  coherent c -> velocityCoherent c ->
  fst (velocityOf tjd c) = hookAngularVelocity tjd
  /\ velocityCoherent (snd (velocityOf tjd c)).
Proof.
  intros Hc Hv. unfold CachingRotationModel_angularVelocityAtTime.
  destruct (computeAngularVelocity_step
              computeSpin computeEquatorOrientation periodic thePeriod tjd c Hc)
    as (Hw & _).
  pose proof (computeAngularVelocity_cache tjd c) as Hcache.
  pose proof (orientation_lastTime tjd c) as Htime.
  destruct (computeVelocityOf tjd c) as [w c1]. cbn [fst snd] in Hw, Hcache.
  rewrite <- Hcache in Htime.
  destruct (double_neb tjd (lastTime c)) eqn:Hne.
  - cbn. split; [exact Hw |]. intros _. exact Hw.
  - apply double_neb_false in Hne.
    destruct (angularVelocityCacheValid c) eqn:Hvalid; cbn.
    + split; [| exact Hv]. rewrite Hne. apply Hv, Hvalid.
    + split; [exact Hw |]. intros _. rewrite Htime. exact Hw.
Qed.

Lemma velocityCoherent_after (calls : list Call) :
  velocityCoherent
    (after computeSpin computeEquatorOrientation periodic thePeriod calls).
Proof.
  unfold after.
  assert (Hnew : coherent CachingRotationModel_new
                 /\ velocityCoherent CachingRotationModel_new).
  { split; [apply coherentCache_new |]. intros H; discriminate H. }
  revert Hnew. generalize CachingRotationModel_new.
  induction calls as [| call calls IH]; intros c [Hc Hv]; [exact Hv |].
  cbn [fold_left]. apply IH.
  destruct call as [t | t | t | t]; cbn [perform]; split.
  - apply (spin_step computeSpin computeEquatorOrientation t c Hc).
  - apply spin_velocityCoherent, Hv.
  - apply (equator_step computeSpin computeEquatorOrientation t c Hc).
  - apply equator_velocityCoherent, Hv.
  - apply (orientation_step computeSpin computeEquatorOrientation t c Hc).
  - apply orientation_velocityCoherent, Hv.
  - apply angularVelocityAtTime_coherent, Hc.
  - apply (angularVelocityAtTime_step t c Hc Hv).
Qed.

(** The cache of a caching rotation model never shows: after any sequence
    of calls on a new model, [spin], [equatorOrientationAtTime],
    [orientationAtTime] and [angularVelocityAtTime] at any time return
    what [computeSpin], [computeEquatorOrientation], their product and
    the differentiation of that product give at that time. *)
Theorem CachingRotationModel_transparent (calls : list Call) (t : double) :
  let c := after computeSpin computeEquatorOrientation periodic thePeriod calls in
  fst (CachingRotationModel_spin computeSpin t c) = computeSpin t
  /\ fst (CachingRotationModel_equatorOrientationAtTime
            computeEquatorOrientation t c)
     = computeEquatorOrientation t
  /\ fst (CachingRotationModel_orientationAtTime
            computeSpin computeEquatorOrientation t c)
     = qmul (computeSpin t) (computeEquatorOrientation t)
  /\ fst (CachingRotationModel_angularVelocityAtTime
            computeSpin computeEquatorOrientation periodic thePeriod t c)
     = hookAngularVelocity t.
Proof.
  intros c.
  pose proof (coherentCache_after
                computeSpin computeEquatorOrientation periodic thePeriod calls)
    as Hc.
  pose proof (velocityCoherent_after calls) as Hv. fold c in Hc, Hv.
  split; [| split; [| split]].
  - apply (spin_step computeSpin computeEquatorOrientation t c Hc).
  - apply (equator_step computeSpin computeEquatorOrientation t c Hc).
  - apply (orientation_step computeSpin computeEquatorOrientation t c Hc).
  - apply (angularVelocityAtTime_step t c Hc Hv).
Qed.

End Transparency.

End CachingRotationFacts.

(** ** Universal coordinates: offsets from any base, distances *)

Module UniversalCoordOffsetFacts.
Import UniversalCoord UniversalCoordFacts.
Local Open Scope Z_scope.

Lemma add_sub_cancel_l (a r : R128.R128) :
  R128.wf r -> R128.sub (R128.add a r) a = r.
Proof.
  intros H. unfold R128.sub, R128.add, R128.wrap.
  rewrite Zminus_mod_idemp_l.
  replace (a + r - a)%Z with r by lia.
  apply Z.mod_small. exact H.
Qed.

(** A coordinate near the upper end of the range, from which an offset
    wraps around. *)
Definition farCoordinate : UniversalCoord :=
  mkUniversalCoord (2 ^ 128 - 1) 0 (2 ^ 127).

(** An offset in micro light years comes back from any base: for every
    universal coordinate [a] and every [v] with components in the 64-bit
    integer range, [a.offsetUly(v).offsetFromUly(a)] is [v] up to 2^-64,
    although the sum may wrap around. *)
Theorem offsetUly_roundtrip_any_base (a : UniversalCoord) (v : Vector3d) :
  (- 9223372036854775808 <= vx v < 9223372036854775808 ->
   - 9223372036854775808 <= vy v < 9223372036854775808 ->
   - 9223372036854775808 <= vz v < 9223372036854775808 ->
   let r := offsetFromUly (offsetUly a v) a in
   Rabs (vx r - vx v) < / R128.two64
   /\ Rabs (vy r - vy v) < / R128.two64
   /\ Rabs (vz r - vz v) < / R128.two64)%R.
Proof.
  intros Hx Hy Hz r. subst r.
  unfold offsetFromUly, offsetUly, plus, ofVector, ofDoubles;
    cbn [vx vy vz x y z].
  rewrite !add_sub_cancel_l by apply fromDouble_wf.
  repeat split; apply toDouble_fromDouble; assumption.
Qed.

Lemma offsetUly_roundtrip_any_base_witness :
  (let v := mkVector3d 0.25 (-3) 1000000 in
   let r := offsetFromUly (offsetUly farCoordinate v) farCoordinate in
   Rabs (vx r - vx v) < / R128.two64
   /\ Rabs (vy r - vy v) < / R128.two64
   /\ Rabs (vz r - vz v) < / R128.two64)%R.
Proof.
  apply (offsetUly_roundtrip_any_base
           farCoordinate (mkVector3d 0.25%R (-3)%R 1000000%R));
    cbn [vx vy vz]; lra.
Defined.

Lemma signed_sub_swap (a b : R128.R128) :
  R128.signed (R128.sub a b) = (- R128.signed (R128.sub b a))%Z
  \/ R128.signed (R128.sub a b) = R128.signed (R128.sub b a).
Proof.
  unfold R128.signed, R128.sub, R128.wrap, R128.modulus.
  change (2 ^ 128)%Z with (2 * 2 ^ 127)%Z.
  set (h := (2 ^ 127)%Z). assert (Hh : (0 < h)%Z) by (subst h; lia).
  clearbody h.
  pose proof (Z.mod_pos_bound (a - b) (2 * h) ltac:(lia)) as Hd.
  destruct (Z.eq_dec ((a - b) mod (2 * h)) 0) as [H0 | Hn0].
  - assert (Hba : ((b - a) mod (2 * h) = 0)%Z).
    { replace (b - a)%Z with (- (a - b))%Z by lia.
      apply Z.mod_opp_l_z; [lia | exact H0]. }
    rewrite H0, Hba. right. reflexivity.
  - assert (Hba : ((b - a) mod (2 * h) = 2 * h - (a - b) mod (2 * h))%Z).
    { replace (b - a)%Z with (- (a - b))%Z by lia.
      apply Z.mod_opp_l_nz; [lia | exact Hn0]. }
    rewrite Hba. set (d := ((a - b) mod (2 * h))%Z) in *.
    destruct (Z.ltb_spec d h), (Z.ltb_spec (2 * h - d) h); lia.
Qed.

Lemma toDouble_sub_swap_sqr (a b : R128.R128) :
  (R128.toDouble (R128.sub a b) * R128.toDouble (R128.sub a b)
   = R128.toDouble (R128.sub b a) * R128.toDouble (R128.sub b a))%R.
Proof.
  unfold R128.toDouble.
  destruct (signed_sub_swap a b) as [H | H]; rewrite H.
  - rewrite opp_IZR. unfold R128.two64. field.
  - reflexivity.
Qed.

Lemma sub_self (a : R128.R128) : R128.sub a a = R128.zero.
Proof.
  unfold R128.sub, R128.wrap. rewrite Z.sub_diag. reflexivity.
Qed.

(** The distance between two universal coordinates is the same in both
    directions, also where the difference of two components wraps around,
    and the distance of a coordinate from itself is 0. *)
Theorem distanceFromKm_symmetric (a b : UniversalCoord) :
  distanceFromKm a b = distanceFromKm b a /\ distanceFromKm a a = 0%R.
Proof.
  unfold distanceFromKm, offsetFromKm, norm, squaredNorm, vscale;
    cbn [vx vy vz]. split.
  - f_equal.
    pose proof (toDouble_sub_swap_sqr (x a) (x b)) as Hx.
    pose proof (toDouble_sub_swap_sqr (y a) (y b)) as Hy.
    pose proof (toDouble_sub_swap_sqr (z a) (z b)) as Hz.
    set (s := astro.microLightYearsToKilometers 1).
    set (xa := R128.toDouble (R128.sub (x a) (x b))) in *.
    set (ya := R128.toDouble (R128.sub (y a) (y b))) in *.
    set (za := R128.toDouble (R128.sub (z a) (z b))) in *.
    set (xb := R128.toDouble (R128.sub (x b) (x a))) in *.
    set (yb := R128.toDouble (R128.sub (y b) (y a))) in *.
    set (zb := R128.toDouble (R128.sub (z b) (z a))) in *.
    transitivity (s * s * (xa * xa + ya * ya + za * za))%R; [ring |].
    rewrite Hx, Hy, Hz. ring.
  - rewrite !sub_self.
    replace (R128.toDouble R128.zero) with 0%R
      by (unfold R128.toDouble;
          replace (R128.signed R128.zero) with 0%Z by reflexivity;
          unfold Rdiv; rewrite Rmult_0_l; reflexivity).
    transitivity (sqrt 0); [f_equal; ring | apply sqrt_0].
Qed.

End UniversalCoordOffsetFacts.

(** ** Universal coordinates: the conversions with rounded products *)

Module RoundedConversionFacts.
Import UniversalCoord UniversalCoordFacts UniversalCoordOffsetFacts.




(** With the exact product, the conversions with a rounding product are
    the exact conversions. *)
Lemma rounded_exact (this uc : UniversalCoord) (v : Vector3d) :
  offsetKm_rounded Rmult this v = offsetKm this v
  /\ offsetFromKm_rounded Rmult this uc = offsetFromKm this uc
  /\ CreateLy_rounded Rmult v = CreateLy v
  /\ toLy_rounded Rmult this = toLy this.
Proof. repeat split; reflexivity. Qed.













End RoundedConversionFacts.

(** ** Angular velocities of frames and of rotation models *)

Module AngularVelocityFacts.
Import Rotation Frame EigenFacts.

(** What both default implementations return for the relative quaternion
    [dq] and the time step [dt]. *)
Definition differentiated (dq : Quaterniond) (dt : double) : Vector3d :=
  if Rlt_dec 0.99999999 (Rabs (qw dq)) then Eigen.Zero
  else vscale (normalized (qvec dq)) (2 * acos (qw dq) / dt).

Lemma normalized_vneg (v : Vector3d) :
  normalized (vneg v) = vneg (normalized v).
Proof.
  unfold normalized. rewrite TwoVectorFacts.squaredNorm_vneg.
  destruct (Rlt_dec 0 (squaredNorm v)); [| reflexivity].
  unfold vdiv, vneg; cbn [vx vy vz]. unfold Rdiv. f_equal; ring.
Qed.

Lemma differentiated_conjugate (dq : Quaterniond) (dt : double) :
  differentiated (conjugate dq) dt = vneg (differentiated dq dt).
Proof.
  unfold differentiated. cbn [conjugate qw].
  destruct (Rlt_dec _ _).
  - unfold vneg, Eigen.Zero; cbn [vx vy vz]. f_equal; ring.
  - change (qvec (conjugate dq)) with (vneg (qvec dq)).
    rewrite normalized_vneg.
    unfold vscale, vneg; cbn [vx vy vz]. f_equal; ring.
Qed.

Lemma conjugate_qmul_conjugate (a b : Quaterniond) :
  qmul (conjugate b) a = conjugate (qmul (conjugate a) b).
Proof. unfold qmul, conjugate; cbn [qw qx qy qz]. f_equal; ring. Qed.

Lemma yrot180_cancel (a b : Quaterniond) :
  qmul (conjugate (qmul yrot180 a)) (qmul yrot180 b) = qmul (conjugate a) b.
Proof.
  unfold qmul, conjugate, yrot180; cbn [qw qx qy qz]. f_equal; ring.
Qed.

Lemma qmul_conjugate_self (q : Quaterniond) :
  isUnit q -> qmul (conjugate q) q = Identity.
Proof.
  unfold isUnit, qsquaredNorm, qmul, conjugate, Identity; cbn [qw qx qy qz].
  intros H. f_equal; try ring. rewrite <- H. ring.
Qed.

Lemma differentiated_Identity (dt : double) :
  differentiated Identity dt = Eigen.Zero.
Proof.
  unfold differentiated, Identity; cbn [qw].
  destruct (Rlt_dec _ _) as [_ | H]; [reflexivity |].
  exfalso. apply H. rewrite Rabs_R1. lra.
Qed.

(** The two default implementations differentiate in opposite
    directions: for one orientation function [q] and a rotation model
    that is not periodic, [ReferenceFrame::getAngularVelocity] of a frame
    with the orientation [q] is the opposite of
    [RotationModel::angularVelocityAtTime] of a model with the
    orientation [q], at every time. *)
Theorem frame_default_opposite_to_rotation_default
    (q : double -> Quaterniond) (thePeriod : double)
    (this : ReferenceFrame) (t : double) :
  getAngularVelocity (fun _ => q) this t
  = vneg (RotationModel_angularVelocityAtTime
            (mkRotationModel false thePeriod q) t).
Proof.
  unfold getAngularVelocity, RotationModel_angularVelocityAtTime.
  cbn [isPeriodic getPeriod orientationAtTime chooseDiffTimeDelta].
  fold (differentiated (qmul (conjugate (q t))
                             (q (t + ANGULAR_VELOCITY_DIFF_DELTA)))
                       ANGULAR_VELOCITY_DIFF_DELTA).
  change Rotation.ANGULAR_VELOCITY_DIFF_DELTA with ANGULAR_VELOCITY_DIFF_DELTA.
  fold (differentiated (qmul (conjugate (q (t + ANGULAR_VELOCITY_DIFF_DELTA)))
                             (q t))
                       ANGULAR_VELOCITY_DIFF_DELTA).
  rewrite (conjugate_qmul_conjugate (q t)), differentiated_conjugate.
  unfold vneg; cbn [vx vy vz].
  destruct (differentiated _ _) as [a b c]; cbn [vx vy vz].
  f_equal; ring.
Qed.

(** The angular velocity that the body-fixed frame of a star returns is
    the opposite of what the base class would differentiate from the
    orientation of that frame, when the rotation model of the star is not
    periodic and keeps the default [angularVelocityAtTime]. *)
Theorem BodyFixedFrame_star_angular_velocity
    (catalog : Catalog) (eph : Ephemeris) (s : Star) (thePeriod : double)
    (this : ReferenceFrame) (t : double) :
  Star_angularVelocityAtTime eph s t
  = RotationModel_angularVelocityAtTime
      (mkRotationModel false thePeriod (Star_orientationAtTime eph s)) t ->
  BodyFixedFrame_getAngularVelocity catalog eph (Sel_Star s) t
  = vneg (getAngularVelocity
            (fun _ => BodyFixedFrame_getOrientation catalog eph (Sel_Star s))
            this t).
Proof.
  intros Hdefault.
  unfold BodyFixedFrame_getAngularVelocity, BodyFixedFrame_getOrientation,
    getAngularVelocity.
  rewrite Hdefault. unfold RotationModel_angularVelocityAtTime.
  cbn [isPeriodic getPeriod orientationAtTime chooseDiffTimeDelta].
  change Rotation.ANGULAR_VELOCITY_DIFF_DELTA with ANGULAR_VELOCITY_DIFF_DELTA.
  rewrite yrot180_cancel.
  set (q := Star_orientationAtTime eph s).
  fold (differentiated (qmul (conjugate (q t))
                             (q (t + ANGULAR_VELOCITY_DIFF_DELTA)))
                       ANGULAR_VELOCITY_DIFF_DELTA).
  fold (differentiated (qmul (conjugate (q (t + ANGULAR_VELOCITY_DIFF_DELTA)))
                             (q t))
                       ANGULAR_VELOCITY_DIFF_DELTA).
  rewrite (conjugate_qmul_conjugate (q t)). apply differentiated_conjugate.
Qed.

(** A star whose rotation model turns it about the y axis once in four
    days, with the default angular velocity. *)
Definition quarterTurnPerDay (t : double) : Quaterniond := AngleAxisY (- t * (PI / 2)).

Definition turningStars : Ephemeris :=
  mkEphemeris (fun _ _ => Identity) (fun _ _ => Identity)
              (fun _ _ => Eigen.Zero) (fun _ _ => Eigen.Zero)
              (fun _ => quarterTurnPerDay) (fun _ _ => Identity)
              (fun _ => RotationModel_angularVelocityAtTime
                          (mkRotationModel false 0 quarterTurnPerDay)).

Definition emptyCatalog : Catalog :=
  mkCatalog (fun _ _ => UniversalCoord.Zero) (fun _ _ => Eigen.Zero)
            (fun _ _ => Eigen.Zero) (fun _ => None)
            (fun _ _ => None) (fun _ _ => None).

Lemma BodyFixedFrame_star_angular_velocity_witness :
  BodyFixedFrame_getAngularVelocity emptyCatalog turningStars (Sel_Star 0%nat) 10
  = vneg (getAngularVelocity
            (fun _ => BodyFixedFrame_getOrientation
                        emptyCatalog turningStars (Sel_Star 0%nat))
            (BodyFixedFrame (Sel_Star 0%nat) (Sel_Star 0%nat)) 10).
Proof.
  apply (BodyFixedFrame_star_angular_velocity
           emptyCatalog turningStars 0%nat 0
           (BodyFixedFrame (Sel_Star 0%nat) (Sel_Star 0%nat)) 10).
  reflexivity.
Defined.

(** The frame of the J2000 equator does not turn: the angular velocity
    that [ReferenceFrame::getAngularVelocity] differentiates from
    [J2000EquatorFrame::getOrientation] is zero at every time, whatever
    the obliquity. *)
Theorem J2000EquatorFrame_getAngularVelocity_zero
    (J2000Obliquity : double) (this : ReferenceFrame) (t : double) :
  getAngularVelocity
    (fun _ => J2000EquatorFrame_getOrientation J2000Obliquity) this t
  = Eigen.Zero.
Proof.
  unfold getAngularVelocity, J2000EquatorFrame_getOrientation.
  rewrite qmul_conjugate_self by apply isUnit_AngleAxisX.
  apply differentiated_Identity.
Qed.

(** Where the orientation of a rotation model is the same unit quaternion
    at [t] and one time step later, the default
    [RotationModel::angularVelocityAtTime] is zero at [t]; so for a
    constant unit orientation it is what
    [ConstantOrientation::angularVelocityAtTime] returns. *)
Theorem RotationModel_angularVelocityAtTime_constant
    (rm : RotationModel) (t : double) :
  isUnit (orientationAtTime rm t) ->
  orientationAtTime rm
    (t + chooseDiffTimeDelta (isPeriodic rm) (getPeriod rm))
  = orientationAtTime rm t ->
  RotationModel_angularVelocityAtTime rm t
  = ConstantOrientation_angularVelocityAtTime t.
Proof.
  intros Hunit Hsame. unfold RotationModel_angularVelocityAtTime.
  rewrite Hsame, qmul_conjugate_self by exact Hunit.
  apply differentiated_Identity.
Qed.

Lemma RotationModel_angularVelocityAtTime_constant_witness :
  RotationModel_angularVelocityAtTime
    (mkRotationModel false 0 (ConstantOrientation_spin (AngleAxisX 1))) 5
  = ConstantOrientation_angularVelocityAtTime 5.
Proof.
  apply (RotationModel_angularVelocityAtTime_constant
           (mkRotationModel false 0 (ConstantOrientation_spin (AngleAxisX 1))) 5).
  - apply isUnit_AngleAxisX.
  - reflexivity.
Defined.

(** The half turn about the y axis, on a vector. *)
Definition halfTurnY (v : Vector3d) : Vector3d :=
  mkVector3d (- vx v) (vy v) (- vz v).

Lemma rotate_yrot180_qmul (q : Quaterniond) (v : Vector3d) :
  isUnit q -> rotate (qmul yrot180 q) v = halfTurnY (rotate q v).
Proof.
  destruct q as [w x y z], v as [a b c].
  unfold isUnit, qsquaredNorm; cbn [qw qx qy qz]. intros H.
  cbv [rotate qmul yrot180 halfTurnY cross vadd vscale qvec
       vx vy vz qw qx qy qz].
  f_equal; nsatz.
Qed.

Lemma isUnit_yrot180 : isUnit yrot180.
Proof. unfold isUnit, qsquaredNorm, yrot180; cbn [qw qx qy qz]. ring. Qed.

Lemma rotate_yrot180 (v : Vector3d) : rotate yrot180 v = halfTurnY v.
Proof.
  cbv [rotate yrot180 halfTurnY cross vadd vscale qvec vx vy vz qw qx qy qz].
  f_equal; ring.
Qed.

(** The orientation of a frame fixed to a body turns a vector as the
    ecliptic to body fixed rotation of the body followed by the half turn
    about the y axis, and it is a unit quaternion, when the rotation of the
    body is one; for a location without a parent body and for a selection
    that is none of body, star and location it is the half turn alone. *)
Theorem BodyFixedFrame_getOrientation_half_turn
    (catalog : Catalog) (eph : Ephemeris) (b : Body) (t : double)
    (v : Vector3d) :
  isUnit (getEclipticToBodyFixed eph b t) ->
  rotate (BodyFixedFrame_getOrientation catalog eph (Sel_Body b) t) v
  = halfTurnY (rotate (getEclipticToBodyFixed eph b t) v)
  /\ isUnit (BodyFixedFrame_getOrientation catalog eph (Sel_Body b) t)
  /\ (forall l, getParentBody catalog l = Some b ->
        BodyFixedFrame_getOrientation catalog eph (Sel_Location l) t
        = BodyFixedFrame_getOrientation catalog eph (Sel_Body b) t)
  /\ (forall l, getParentBody catalog l = None ->
        rotate (BodyFixedFrame_getOrientation catalog eph (Sel_Location l) t) v
        = halfTurnY v)
  /\ (forall d,
        rotate (BodyFixedFrame_getOrientation catalog eph (Sel_DeepSky d) t) v
        = halfTurnY v)
  /\ rotate (BodyFixedFrame_getOrientation catalog eph Sel_None t) v
     = halfTurnY v.
Proof.
  intros Hunit. cbn [BodyFixedFrame_getOrientation].
  split; [apply rotate_yrot180_qmul, Hunit |].
  split; [apply isUnit_qmul; [apply isUnit_yrot180 | exact Hunit] |].
  split; [intros l Hl; rewrite Hl; reflexivity |].
  split; [intros l Hl; rewrite Hl; apply rotate_yrot180 |].
  split; [intros d |]; apply rotate_yrot180.
Qed.

Lemma BodyFixedFrame_getOrientation_half_turn_witness :
  rotate (BodyFixedFrame_getOrientation emptyCatalog turningStars
                                        (Sel_Body 3%nat) 10) UnitX
  = halfTurnY (rotate (getEclipticToBodyFixed turningStars 3%nat 10) UnitX).
Proof.
  apply (BodyFixedFrame_getOrientation_half_turn
           emptyCatalog turningStars 3%nat 10 UnitX).
  unfold isUnit, qsquaredNorm, turningStars, Identity;
    cbn [getEclipticToBodyFixed qw qx qy qz]. ring.
Defined.

(** A frozen mean equator frame does not turn: its orientation is the one
    of the freeze epoch at every time, [getAngularVelocity] returns zero,
    and zero is also what the base class differentiates from that
    orientation when the orientation at the freeze epoch is a unit
    quaternion. *)
Theorem BodyMeanEquatorFrame_frozen
    (eph : Ephemeris) (equatorObject : Selection) (freezeEpoch : double)
    (this : ReferenceFrame) (t : double) :
  isUnit (BodyMeanEquatorFrame_getOrientation
            eph equatorObject freezeEpoch true freezeEpoch) ->
  BodyMeanEquatorFrame_getOrientation eph equatorObject freezeEpoch true t
  = BodyMeanEquatorFrame_getOrientation
      eph equatorObject freezeEpoch false freezeEpoch
  /\ BodyMeanEquatorFrame_getAngularVelocity eph equatorObject true t
     = getAngularVelocity
         (fun _ => BodyMeanEquatorFrame_getOrientation
                     eph equatorObject freezeEpoch true)
         this t.
Proof.
  intros Hunit. split; [reflexivity |].
  unfold getAngularVelocity.
  change (BodyMeanEquatorFrame_getOrientation
            eph equatorObject freezeEpoch true
            (t + ANGULAR_VELOCITY_DIFF_DELTA))
    with (BodyMeanEquatorFrame_getOrientation
            eph equatorObject freezeEpoch true freezeEpoch).
  change (BodyMeanEquatorFrame_getOrientation
            eph equatorObject freezeEpoch true t)
    with (BodyMeanEquatorFrame_getOrientation
            eph equatorObject freezeEpoch true freezeEpoch).
  rewrite qmul_conjugate_self by exact Hunit.
  symmetry. apply differentiated_Identity.
Qed.

Lemma BodyMeanEquatorFrame_frozen_witness :
  BodyMeanEquatorFrame_getOrientation turningStars (Sel_Body 3%nat) 2451545 true 7
  = BodyMeanEquatorFrame_getOrientation
      turningStars (Sel_Body 3%nat) 2451545 false 2451545
  /\ BodyMeanEquatorFrame_getAngularVelocity turningStars (Sel_Body 3%nat) true 7
     = getAngularVelocity
         (fun _ => BodyMeanEquatorFrame_getOrientation
                     turningStars (Sel_Body 3%nat) 2451545 true)
         (BodyMeanEquatorFrame (Sel_Body 3%nat) (Sel_Body 3%nat) 2451545 true) 7.
Proof.
  apply (BodyMeanEquatorFrame_frozen
           turningStars (Sel_Body 3%nat) 2451545
           (BodyMeanEquatorFrame (Sel_Body 3%nat) (Sel_Body 3%nat) 2451545 true)
           7).
  unfold isUnit, qsquaredNorm, turningStars, Identity;
    cbn [BodyMeanEquatorFrame_getOrientation getEclipticToEquatorial
         qw qx qy qz].
  ring.
Defined.

End AngularVelocityFacts.

(** ** A caching frame that is only asked for angular velocities *)

Module CachingVelocityFacts.
Import Frame CachingFrameFacts.

Section VelocityOnly.

Variable computeOrientation : double -> Quaterniond.

Local Abbreviation getW := (CachingFrame_getAngularVelocity computeOrientation).

(** What [ReferenceFrame::getAngularVelocity] differentiates from
    [computeOrientation]; the frame itself is not read. *)
Definition differentiatedAt (t : double) : Vector3d :=
  getAngularVelocity (fun _ => computeOrientation) (J2000EclipticFrame Sel_None) t.

(** The cache of a frame that has only been asked for angular
    velocities, at times other than the one a new frame starts with. *)
Definition velocityOnly (c : Cache) : Prop :=
  orientationCacheValid c = false
  /\ (angularVelocityCacheValid c = true ->
      lastAngularVelocity c = differentiatedAt (lastTime c))
  /\ (angularVelocityCacheValid c = false ->
      lastTime c = lastTime CachingFrame_new).

Lemma velocityOnly_new : velocityOnly CachingFrame_new.
Proof.
  split; [reflexivity |]. split; [intros H; discriminate H | reflexivity].
Qed.

Lemma computeAngularVelocity_fresh (tjd : double) (c : Cache) :
  lastTime c = tjd -> orientationCacheValid c = false ->
  let r := CachingFrame_computeAngularVelocity computeOrientation tjd c in
  fst r = differentiatedAt tjd
  /\ lastTime (snd r) = tjd
  /\ angularVelocityCacheValid (snd r) = angularVelocityCacheValid c
  /\ computed (snd r) = (tjd + ANGULAR_VELOCITY_DIFF_DELTA) :: tjd :: computed c.
Proof.
  intros Ht Hv r. subst r.
  unfold CachingFrame_computeAngularVelocity, CachingFrame_getOrientation.
  rewrite (proj2 (double_neb_false tjd (lastTime c))) by congruence.
  rewrite Hv. cbn [negb call_computeOrientation lastOrientation
                   set_lastOrientation set_orientationCacheValid
                   lastTime lastAngularVelocity orientationCacheValid
                   angularVelocityCacheValid computed].
  unfold differentiatedAt, getAngularVelocity.
  destruct (Rlt_dec _ _); cbn [fst snd lastTime angularVelocityCacheValid
                                computed]; auto.
Qed.

(** What one call of [getAngularVelocity] returns and leaves behind. *)
Lemma getAngularVelocity_step (tjd : double) (c : Cache) :
  velocityOnly c ->
  fst (getW tjd c) = differentiatedAt tjd
  /\ lastTime (snd (getW tjd c)) = tjd
  /\ angularVelocityCacheValid (snd (getW tjd c)) = true
  /\ (angularVelocityCacheValid (snd (getW tjd c)) = true ->
      lastAngularVelocity (snd (getW tjd c)) = differentiatedAt tjd)
  /\ (tjd <> lastTime CachingFrame_new ->
      orientationCacheValid (snd (getW tjd c)) = false)
  /\ computed (snd (getW tjd c))
     = if double_neb tjd (lastTime c) || negb (angularVelocityCacheValid c)
       then (tjd + ANGULAR_VELOCITY_DIFF_DELTA) :: tjd :: computed c
       else computed c.
Proof.
  intros (Ho & Hw & Hnew). unfold CachingFrame_getAngularVelocity.
  destruct (double_neb tjd (lastTime c)) eqn:Hne.
  - pose proof (computeAngularVelocity_fresh tjd (set_lastTime tjd c)
                  eq_refl Ho) as (Hr & Ht & _ & Hn).
    destruct (CachingFrame_computeAngularVelocity _ _ _) as [w c1].
    cbn [fst snd] in Hr, Ht, Hn.
    cbn [fst snd set_lastAngularVelocity set_orientationCacheValid
         set_angularVelocityCacheValid lastAngularVelocity computed
         lastTime orientationCacheValid angularVelocityCacheValid orb].
    subst w. repeat split; auto.
  - apply double_neb_false in Hne.
    destruct (angularVelocityCacheValid c) eqn:Hvalid; cbn [negb orb].
    + cbn [fst snd]. rewrite Hne.
      repeat split; auto.
    + pose proof (computeAngularVelocity_fresh tjd c (eq_sym Hne) Ho)
        as (Hr & Ht & _ & Hn).
      destruct (CachingFrame_computeAngularVelocity _ _ _) as [w c1].
      cbn [fst snd] in Hr, Ht, Hn.
      cbn [fst snd set_lastAngularVelocity set_angularVelocityCacheValid
           lastAngularVelocity computed lastTime orientationCacheValid
           angularVelocityCacheValid].
      subst w. repeat split; auto.
      intros Hother. exfalso. apply Hother.
      rewrite Hne. apply Hnew. reflexivity.
Qed.

Lemma velocityOnly_step (tjd : double) (c : Cache) :
  velocityOnly c -> tjd <> lastTime CachingFrame_new ->
  velocityOnly (snd (getW tjd c)).
Proof.
  intros Hc Hother.
  destruct (getAngularVelocity_step tjd c Hc) as (_ & Ht & Hv & Hw & Ho & _).
  split; [exact (Ho Hother) |]. split.
  - intros _. rewrite Ht. apply Hw, Hv.
  - intros H. rewrite Hv in H. discriminate H.
Qed.

Lemma velocityOnly_after (ts : list double) :
  Forall (fun s => s <> lastTime CachingFrame_new) ts ->
  velocityOnly (after computeOrientation (map GetAngularVelocity ts)).
Proof.
  intros Hts. unfold after.
  generalize CachingFrame_new, velocityOnly_new.
  induction Hts as [| s ts Hs _ IH]; intros c Hc; [exact Hc |].
  cbn [map fold_left perform]. apply IH, velocityOnly_step; assumption.
Qed.

(** A caching frame that has only been asked for angular velocities, at
    times other than the time -1.0e50 that a new frame starts with,
    answers [getAngularVelocity] at any time with what the base class
    differentiates from [computeOrientation]; the call makes two calls of
    [computeOrientation], at [t] and at [t + 1/1440], unless the frame
    holds the angular velocity at [t], and then none; a second call with
    the same time makes none and returns the same. *)
Theorem CachingFrame_getAngularVelocity_velocity_only
    (ts : list double) (t : double) (this : ReferenceFrame) :
  Forall (fun s => s <> lastTime CachingFrame_new) ts ->
  let c := after computeOrientation (map GetAngularVelocity ts) in
  let r1 := CachingFrame_getAngularVelocity computeOrientation t c in
  let r2 := CachingFrame_getAngularVelocity computeOrientation t (snd r1) in
  fst r1 = getAngularVelocity (fun _ => computeOrientation) this t
  /\ fst r2 = fst r1
  /\ computed (snd r2) = computed (snd r1)
  /\ computed (snd r1)
     = if double_neb t (lastTime c) || negb (angularVelocityCacheValid c)
       then (t + ANGULAR_VELOCITY_DIFF_DELTA) :: t :: computed c
       else computed c.
Proof.
  intros Hts c r1 r2.
  pose proof (velocityOnly_after ts Hts) as Hc. fold c in Hc.
  pose proof (getAngularVelocity_step t c Hc) as (Hw & Ht & Hv & _ & _ & Hn).
  fold r1 in Hw, Ht, Hv, Hn.
  assert (Hhit : r2 = (lastAngularVelocity (snd r1), snd r1)).
  { subst r2. unfold CachingFrame_getAngularVelocity.
    rewrite (proj2 (double_neb_false t (lastTime (snd r1)))) by congruence.
    rewrite Hv. reflexivity. }
  split; [exact Hw |]. split; [| split; [| exact Hn]].
  - rewrite Hhit. cbn [fst]. subst r1.
    unfold CachingFrame_getAngularVelocity.
    destruct (double_neb t (lastTime c)).
    + destruct (CachingFrame_computeAngularVelocity _ _ _); reflexivity.
    + destruct (negb (angularVelocityCacheValid c)); [| reflexivity].
      destruct (CachingFrame_computeAngularVelocity _ _ _); reflexivity.
  - rewrite Hhit. reflexivity.
Qed.

End VelocityOnly.

Lemma CachingFrame_getAngularVelocity_velocity_only_witness :
  let c := after AngleAxisY (map GetAngularVelocity [0; 1; 1; 2]) in
  let r1 := CachingFrame_getAngularVelocity AngleAxisY 3 c in
  let r2 := CachingFrame_getAngularVelocity AngleAxisY 3 (snd r1) in
  fst r1 = getAngularVelocity (fun _ => AngleAxisY) (J2000EquatorFrame Sel_None) 3
  /\ fst r2 = fst r1
  /\ computed (snd r2) = computed (snd r1)
  /\ computed (snd r1)
     = if double_neb 3 (lastTime c) || negb (angularVelocityCacheValid c)
       then (3 + ANGULAR_VELOCITY_DIFF_DELTA) :: 3 :: computed c
       else computed c.
Proof.
  apply (CachingFrame_getAngularVelocity_velocity_only
           AngleAxisY [0; 1; 1; 2] 3 (J2000EquatorFrame Sel_None)).
  unfold CachingFrame_new; cbn [lastTime].
  repeat constructor; lra.
Defined.

End CachingVelocityFacts.

(** ** The depth limit only matters when it is exceeded *)

Module NestingDepthCapFacts.
Import Frame NestingDepthFacts.

Lemma andThen_Depth (o : Outcome) (k : N -> Outcome) (r : N) :
  andThen o k = Depth r -> exists n, o = Depth n /\ k n = Depth r.
Proof.
  destruct o as [n | |]; cbn [andThen]; intros H;
    [exists n; auto | discriminate H | discriminate H].
Qed.

Section Cap.

Variable catalog : Catalog.
Variables maxDepth maxDepth' : N.
Hypothesis larger : (maxDepth <= maxDepth')%N.

(** Every depth within the smaller limit that [rec] finds, [rec'] finds
    under the larger limit. *)
Definition within (rec rec' : Selection -> N -> N -> FrameType -> Outcome)
  : Prop :=
  forall sel d ft n,
    rec sel d maxDepth ft = Depth n -> (n <= maxDepth)%N ->
    rec' sel d maxDepth' ft = Depth n.

Ltac open_depth H :=
  repeat (cbv beta zeta in H;
          match type of H with
          | andThen _ _ = Depth _ =>
              let n := fresh "n" in
              let E := fresh "E" in
              apply andThen_Depth in H; destruct H as (n & E & H)
          | (if (?a <? ?b)%N then _ else _) = Depth _ =>
              let L := fresh "L" in
              revert H; destruct (N.ltb_spec a b) as [L | L]; intros H
          | Depth _ = Depth _ => injection H as H; subst
          end).

Lemma nesting_within rec rec' :
  within rec rec' ->
  (forall f depth ft n,
     frameNestingDepth rec f depth maxDepth ft = Depth n ->
     (n <= maxDepth)%N ->
     frameNestingDepth rec' f depth maxDepth' ft = Depth n)
  /\ (forall fv depth n,
     vectorNestingDepth rec fv depth maxDepth = Depth n ->
     (n <= maxDepth)%N ->
     vectorNestingDepth rec' fv depth maxDepth' = Depth n).
Proof using larger.
  intros Hw.
  pose (P := fun f => forall depth ft n,
     frameNestingDepth rec f depth maxDepth ft = Depth n ->
     (n <= maxDepth)%N ->
     frameNestingDepth rec' f depth maxDepth' ft = Depth n).
  pose (Q := fun fv => forall depth n,
     vectorNestingDepth rec fv depth maxDepth = Depth n ->
     (n <= maxDepth)%N ->
     vectorNestingDepth rec' fv depth maxDepth' = Depth n).
  assert (Hsel : forall sel d ft n m k,
            rec sel d maxDepth ft = Depth n -> (n <= maxDepth)%N ->
            k n = Depth m ->
            andThen (rec' sel d maxDepth' ft) k = Depth m).
  { intros sel d ft n m k E Hn Hk. rewrite (Hw sel d ft n E Hn). exact Hk. }
  assert (Hpair : forall a b depth n,
            andThen (rec a depth maxDepth PositionFrame) (fun n =>
              if (maxDepth <? n)%N then Depth n
              else andThen (rec b depth maxDepth OrientationFrame) (fun m =>
                   Depth (N.max m n))) = Depth n ->
            (n <= maxDepth)%N ->
            andThen (rec' a depth maxDepth' PositionFrame) (fun n =>
              if (maxDepth' <? n)%N then Depth n
              else andThen (rec' b depth maxDepth' OrientationFrame) (fun m =>
                   Depth (N.max m n))) = Depth n).
  { intros a b depth n H Hn. open_depth H; try lia.
    eapply Hsel; [eassumption | lia |].
    destruct (N.ltb_spec maxDepth' n0); [lia |].
    eapply Hsel; [eassumption | lia | reflexivity]. }
  assert (Hrel : forall a b depth n,
            andThen (rec a depth maxDepth PositionFrame) (fun n =>
              if (maxDepth <? n)%N then Depth n
              else andThen (rec b depth maxDepth PositionFrame) (fun m =>
                   Depth (N.max m n))) = Depth n ->
            (n <= maxDepth)%N ->
            andThen (rec' a depth maxDepth' PositionFrame) (fun n =>
              if (maxDepth' <? n)%N then Depth n
              else andThen (rec' b depth maxDepth' PositionFrame) (fun m =>
                   Depth (N.max m n))) = Depth n).
  { intros a b depth n H Hn. open_depth H; try lia.
    eapply Hsel; [eassumption | lia |].
    destruct (N.ltb_spec maxDepth' n0); [lia |].
    eapply Hsel; [eassumption | lia | reflexivity]. }
  assert (Hvec : forall vt o t v fr,
            (forall f, fr = Some f -> P f) -> Q (mkFrameVector vt o t v fr)).
  { intros vt o t v fr IH depth n H Hn. cbn [vectorNestingDepth] in H |- *.
    destruct vt.
    1, 2: apply Hrel; assumption.
    revert H. destruct (N.ltb_spec maxDepth depth) as [L | L]; intros H.
    { injection H as <-. lia. }
    destruct (N.ltb_spec maxDepth' depth); [lia |].
    destruct fr as [f |]; [| discriminate H].
    apply (IH f eq_refl); assumption. }
  assert (HP : forall f, P f).
  { apply (frame_induction P Q); unfold P, Q.
    - intros c depth ft n H Hn. cbn [frameNestingDepth] in H |- *.
      apply Hw; assumption.
    - intros c depth ft n H Hn. cbn [frameNestingDepth] in H |- *.
      apply Hw; assumption.
    - intros c o depth ft n H Hn. cbn [frameNestingDepth] in H |- *.
      apply Hpair; assumption.
    - intros c o e z depth ft n H Hn. cbn [frameNestingDepth] in H |- *.
      apply Hpair; assumption.
    - intros c p pa s sa ta IHp IHs depth ft n H Hn.
      cbn [frameNestingDepth] in H |- *.
      open_depth H; try lia.
      eapply Hsel; [eassumption | lia |].
      destruct (N.ltb_spec maxDepth' n0); [lia |].
      rewrite (IHp depth n1) by (assumption || lia). cbn [andThen].
      destruct (N.ltb_spec maxDepth' (N.max n1 n0)); [lia |].
      rewrite (IHs depth n2) by (assumption || lia). reflexivity.
    - intros vt o t v. apply Hvec. discriminate.
    - intros vt o t v f IHf. apply Hvec. intros f' [= <-]. exact IHf. }
  split; [exact HP |].
  intros [vt o t v fr]. apply Hvec. intros f _. apply HP.
Qed.

Lemma within_out_of_fuel rec' : within (fun _ _ _ _ => OutOfFuel) rec'.
Proof. intros sel d ft n H. discriminate H. Qed.

Lemma getFrameDepth_within (fuel : nat) :
  forall fuel', (fuel <= fuel')%nat ->
    within (getFrameDepth catalog fuel) (getFrameDepth catalog fuel').
Proof using larger.
  induction fuel as [| fuel IH]; intros fuel' Hfuel.
  - assert (Hnested : within (fun _ _ _ _ => OutOfFuel)
                        match fuel' with
                        | O => fun _ _ _ _ => OutOfFuel
                        | S k => getFrameDepth catalog k
                        end) by apply within_out_of_fuel.
    destruct (nesting_within _ _ Hnested) as [Hframe _].
    intros sel depth ft n H Hn.
    destruct fuel' as [| k]; cbn [getFrameDepth] in H |- *;
      revert H; destruct (N.ltb_spec maxDepth depth) as [L | L]; intros H;
      try (injection H as <-; lia);
      (destruct (N.ltb_spec maxDepth' depth); [lia |]);
      (destruct (match location sel with
                 | Some l => getParentBody catalog l
                 | None => body sel
                 end) as [b |]; [| exact H]);
      destruct (getOrbitFrame catalog b 0) as [orbitFrame |],
               (getBodyFrame catalog b 0) as [bodyFrame |], ft;
      open_depth H; try lia; try reflexivity;
      repeat (erewrite Hframe by (eassumption || lia); cbn [andThen]);
      repeat (match goal with
              | |- context [(?a <? ?b)%N] =>
                  destruct (N.ltb_spec a b); [lia |]
              end);
      reflexivity.
  - destruct fuel' as [| k]; [lia |].
    assert (Hnested : within (getFrameDepth catalog fuel)
                             (getFrameDepth catalog k))
      by (apply IH; lia).
    destruct (nesting_within _ _ Hnested) as [Hframe _].
    intros sel depth ft n H Hn.
    cbn [getFrameDepth] in H |- *.
    revert H. destruct (N.ltb_spec maxDepth depth) as [L | L]; intros H.
    { injection H as <-. lia. }
    destruct (N.ltb_spec maxDepth' depth); [lia |].
    destruct (match location sel with
              | Some l => getParentBody catalog l
              | None => body sel
              end) as [b |]; [| exact H].
    destruct (getOrbitFrame catalog b 0) as [orbitFrame |],
             (getBodyFrame catalog b 0) as [bodyFrame |], ft;
      open_depth H; try lia; try reflexivity;
      repeat (erewrite Hframe by (eassumption || lia); cbn [andThen]);
      repeat (match goal with
              | |- context [(?a <? ?b)%N] =>
                  destruct (N.ltb_spec a b); [lia |]
              end);
      reflexivity.
Qed.

(** The depth limit does not change a depth that is within it: when
    [nestingDepth] with the limit [maxDepth] finds a depth of at most
    [maxDepth], it finds the same depth with every larger limit. *)
Theorem nestingDepth_cap_independent
    (this : ReferenceFrame) (ft : FrameType) (n : N) :
  nestingDepth catalog this maxDepth ft = Depth n ->
  (n <= maxDepth)%N ->
  nestingDepth catalog this maxDepth' ft = Depth n.
Proof using larger.
  unfold nestingDepth. intros H Hn.
  refine (proj1 (nesting_within _ _ _) this 0%N ft n H Hn).
  apply getFrameDepth_within. lia.
Qed.

End Cap.

(** No frame class reads the frame type that [nestingDepth] is called
    with: the depth found for a position frame is the depth found for an
    orientation frame. *)
Theorem nestingDepth_ignores_frameType
    (catalog : Catalog) (this : ReferenceFrame) (maxDepth : N) :
  nestingDepth catalog this maxDepth PositionFrame
  = nestingDepth catalog this maxDepth OrientationFrame.
Proof. unfold nestingDepth. destruct this; reflexivity. Qed.

Lemma nestingDepth_cap_independent_witness :
  nestingDepth (chainCatalog 3) (J2000EclipticFrame (Sel_Body 0%nat)) 50
               PositionFrame
  = Depth 3.
Proof.
  apply (nestingDepth_cap_independent
           (chainCatalog 3) 10 50 ltac:(lia)
           (J2000EclipticFrame (Sel_Body 0%nat)) PositionFrame 3).
  - vm_compute. reflexivity.
  - lia.
Defined.

End NestingDepthCapFacts.

(** ** The phases of a universe built by [CreateTimelinePhase] *)

Module TimelineInvariantFacts.
Import Frame Timeline TimelineFacts.

(** The arguments of one call of [CreateTimelinePhase]. *)
Record Request := mkRequest {
  r_body : Body;
  r_startTime : double;
  r_endTime : double;
  r_orbitFrame : ReferenceFrame;
  r_orbit : Orbit;
  r_bodyFrame : ReferenceFrame;
  r_rotationModel : RotationModelPtr
}.

Definition call (universe : Universe) (r : Request)
  : option TimelinePhase * Universe :=
  CreateTimelinePhase universe (r_body r) (r_startTime r) (r_endTime r)
                      (r_orbitFrame r) (r_orbit r) (r_bodyFrame r)
                      (r_rotationModel r).

(** A universe without frame trees, and the universe after a sequence of
    calls, the first call first. *)
Definition emptyUniverse : Universe := mkUniverse ∅ ∅.

Definition built (requests : list Request) : Universe :=
  fold_left (fun universe r => snd (call universe r)) requests emptyUniverse.

(** The frame tree of the center of a frame: the one of the body, or the
    one of the solar system of the star. *)
Definition treeOfCenter (center : Selection) : option FrameTreePtr :=
  match Selection.body center with
  | Some b => Some (BodyFrameTree b)
  | None =>
      match Selection.star center with
      | Some s => Some (SolarSystemFrameTree s)
      | None => None
      end
  end.

(** What holds of a phase that is a child of [tree]. *)
Definition validChild (tree : FrameTreePtr) (phase : TimelinePhase) : Prop :=
  m_startTime phase < m_endTime phase
  /\ m_owner phase = tree
  /\ treeOfCenter (getCenter (m_orbitFrame phase)) = Some tree.

Lemma FrameTreePtr_eq_dec (a b : FrameTreePtr) : {a = b} + {a <> b}.
Proof. decide equality; apply Nat.eq_dec. Qed.

Lemma call_spec (universe : Universe) (r : Request) :
  match fst (call universe r) with
  | None => snd (call universe r) = universe
  | Some phase =>
      validChild (m_owner phase) phase
      /\ registered universe (snd (call universe r)) (m_owner phase) phase
  end.
Proof.
  unfold call, CreateTimelinePhase.
  destruct (Rle_dec (r_endTime r) (r_startTime r)) as [Hle | Hlt];
    [reflexivity |].
  assert (Htime : r_startTime r < r_endTime r) by lra.
  destruct (getCenter (r_orbitFrame r)) as [| s | b | d | l] eqn:Hcenter;
    cbn [Selection.body Selection.star]; try reflexivity.
  - pose proof (registered_star s
      (mkTimelinePhase (r_body r) (r_startTime r) (r_endTime r)
         (r_orbitFrame r) (r_orbit r) (r_bodyFrame r) (r_rotationModel r)
         (SolarSystemFrameTree s)) universe) as Hreg.
    unfold getOrCreateSolarSystem, getFrameTree in *.
    destruct (solarSystems universe !! s); cbn [fst snd m_owner] in *;
      (split; [| exact Hreg]);
      unfold validChild; cbn [m_startTime m_endTime m_owner m_orbitFrame];
      rewrite Hcenter; auto.
  - pose proof (registered_body b
      (mkTimelinePhase (r_body r) (r_startTime r) (r_endTime r)
         (r_orbitFrame r) (r_orbit r) (r_bodyFrame r) (r_rotationModel r)
         (BodyFrameTree b)) universe) as Hreg.
    unfold getOrCreateFrameTree in *.
    destruct (bodyFrameTrees universe !! b); cbn [fst snd m_owner] in *;
      (split; [| exact Hreg]);
      unfold validChild; cbn [m_startTime m_endTime m_owner m_orbitFrame];
      rewrite Hcenter; auto.
Qed.

(** Every child of every frame tree is valid there. *)
Definition wellFormed (universe : Universe) : Prop :=
  forall tree phase,
    In phase (childrenOf tree universe) -> validChild tree phase.

Lemma wellFormed_call (universe : Universe) (r : Request) :
  wellFormed universe -> wellFormed (snd (call universe r)).
Proof.
  intros Hwf. pose proof (call_spec universe r) as Hspec.
  destruct (fst (call universe r)) as [phase |]; [| rewrite Hspec; exact Hwf].
  destruct Hspec as (Hvalid & Hlast & Hothers).
  intros tree p Hin.
  destruct (FrameTreePtr_eq_dec tree (m_owner phase)) as [-> | Hne].
  - rewrite Hlast in Hin. apply in_app_or in Hin as [Hold | [<- | []]].
    + apply Hwf, Hold.
    + exact Hvalid.
  - rewrite (Hothers tree Hne) in Hin. apply Hwf, Hin.
Qed.

Lemma kept_call (universe : Universe) (r : Request)
    (tree : FrameTreePtr) (phase : TimelinePhase) :
  In phase (childrenOf tree universe) ->
  In phase (childrenOf tree (snd (call universe r))).
Proof.
  intros Hin. pose proof (call_spec universe r) as Hspec.
  destruct (fst (call universe r)) as [p |]; [| rewrite Hspec; exact Hin].
  destruct Hspec as (_ & Hlast & Hothers).
  destruct (FrameTreePtr_eq_dec tree (m_owner p)) as [-> | Hne].
  - rewrite Hlast. apply in_or_app. left. exact Hin.
  - rewrite (Hothers tree Hne). exact Hin.
Qed.

Lemma kept_fold (requests : list Request) (universe : Universe)
    (tree : FrameTreePtr) (phase : TimelinePhase) :
  In phase (childrenOf tree universe) ->
  In phase (childrenOf tree
              (fold_left (fun universe r => snd (call universe r))
                         requests universe)).
Proof.
  revert universe.
  induction requests as [| r requests IH]; intros universe Hin; [exact Hin |].
  cbn [fold_left]. apply IH, kept_call, Hin.
Qed.

Lemma wellFormed_built (requests : list Request) :
  wellFormed (built requests).
Proof.
  unfold built.
  assert (Hempty : wellFormed emptyUniverse).
  { intros [b | s] phase Hin;
      unfold childrenOf, emptyUniverse in Hin;
      cbn [bodyFrameTrees solarSystems] in Hin;
      rewrite lookup_empty in Hin; destruct Hin. }
  revert Hempty. generalize emptyUniverse.
  induction requests as [| r requests IH]; intros universe Hwf; [exact Hwf |].
  cbn [fold_left]. apply IH, wellFormed_call, Hwf.
Qed.

(** In a universe built by calls of [CreateTimelinePhase] alone, every
    phase that is a child of a frame tree starts before it ends, is owned
    by that tree, and has an orbit frame centered on the body, or on the
    star, whose tree it is; and a phase that a call has returned stays a
    child of its owner through all later calls. *)
Theorem CreateTimelinePhase_universe_well_formed
    (requests later : list Request) (r : Request) :
  (forall tree phase,
     In phase (childrenOf tree (built requests)) ->
     m_startTime phase < m_endTime phase
     /\ m_owner phase = tree
     /\ treeOfCenter (getCenter (m_orbitFrame phase)) = Some tree)
  /\ (forall phase,
        fst (call (built requests) r) = Some phase ->
        In phase (childrenOf (m_owner phase)
                             (built (requests ++ r :: later)))).
Proof.
  split.
  - intros tree phase Hin. apply (wellFormed_built requests tree phase Hin).
  - intros phase Hcall. unfold built. rewrite fold_left_app.
    cbn [fold_left]. apply kept_fold.
    fold (built requests).
    pose proof (call_spec (built requests) r) as Hspec.
    rewrite Hcall in Hspec. destruct Hspec as (_ & Hlast & _).
    rewrite Hlast. apply in_or_app. right. left. reflexivity.
Qed.

End TimelineInvariantFacts.

(** ** The sense of a uniform rotation *)

Module RotationSenseFacts.
Import Rotation.

Lemma cos_double_half (a : double) :
  cos a = cos (- a / 2) * cos (- a / 2) - sin (- a / 2) * sin (- a / 2).
Proof.
  rewrite <- cos_2a. rewrite <- (cos_neg a). f_equal. field.
Qed.

(** The y component of the angular velocity of a uniform rotation model
    is [cos inclination * (2 pi / period)], whatever the ascending node
    and the time: it is not negative for a positive period and an
    inclination of at most a quarter turn either way. *)
Theorem UniformRotationModel_angularVelocity_y
    (u : UniformRotationModel) (t : double) :
  vy (UniformRotationModel_angularVelocityAtTime u t)
  = cos (inclination u) * (2 * PI / period u)
  /\ (0 < period u -> - PI / 2 <= inclination u <= PI / 2 ->
      0 <= vy (UniformRotationModel_angularVelocityAtTime u t)).
Proof.
  assert (Hy : vy (UniformRotationModel_angularVelocityAtTime u t)
               = cos (inclination u) * (2 * PI / period u)).
  { rewrite (cos_double_half (inclination u)).
    pose proof (sin2_cos2 (- ascendingNode u / 2)) as Hn. unfold Rsqr in Hn.
    pose proof (sin2_cos2 (- inclination u / 2)) as Hi. unfold Rsqr in Hi.
    unfold UniformRotationModel_angularVelocityAtTime,
      UniformRotationModel_equatorOrientationAtTime,
      math.XRotation, math.YRotation, AngleAxisX, AngleAxisY.
    set (ci := cos (- inclination u / 2)) in *.
    set (si := sin (- inclination u / 2)) in *.
    set (cn := cos (- ascendingNode u / 2)) in *.
    set (sn := sin (- ascendingNode u / 2)) in *.
    set (w := 2 * PI / period u).
    cbv [vscale rotate conjugate qmul cross vadd qvec UnitY
         vx vy vz qw qx qy qz].
    nsatz. }
  split; [exact Hy |].
  intros HP Hi. rewrite Hy.
  pose proof PI_RGT_0 as Hpi.
  apply Rmult_le_pos.
  - apply cos_ge_0; lra.
  - apply Rlt_le, Rdiv_lt_0_compat; lra.
Qed.

Lemma UniformRotationModel_angularVelocity_y_witness :
  0 <= vy (UniformRotationModel_angularVelocityAtTime
             (mkUniformRotationModel 1 0 10 0.4 4) 7).
Proof.
  apply (UniformRotationModel_angularVelocity_y
           (mkUniformRotationModel 1 0 10 0.4 4) 7).
  - cbn [period]. lra.
  - cbn [inclination]. pose proof PI2_3_2. lra.
Defined.

End RotationSenseFacts.

(** ** What the orientation of a two-vector frame does not depend on *)

Module TwoVectorInvarianceFacts.
Import Frame TwoVectorFacts.

Section Invariance.

Variable catalog : Catalog.
Variable getOrientation : ReferenceFrame -> double -> Quaterniond.

Local Abbreviation orientationOf :=
  (TwoVectorFrame_computeOrientation catalog getOrientation).
Local Abbreviation directionsOf :=
  (TwoVectorFrame_directions catalog getOrientation).
Local Abbreviation directionOf := (direction catalog getOrientation).

(** The orientation is a function of the two sign corrected directions
    and of the magnitudes of the axes. *)
Lemma computeOrientation_directions
    (prim prim' : FrameVector) (primAxis primAxis' : Z)
    (sec sec' : FrameVector) (secAxis secAxis' : Z)
    (tertAxis : Z) (tjd : double) :
  directionsOf prim primAxis sec secAxis tjd
  = directionsOf prim' primAxis' sec' secAxis' tjd ->
  Z.abs primAxis = Z.abs primAxis' ->
  Z.abs secAxis = Z.abs secAxis' ->
  orientationOf prim primAxis sec secAxis tertAxis tjd
  = orientationOf prim' primAxis' sec' secAxis' tertAxis tjd.
Proof.
  intros Hd Hp Hs. rewrite !computeOrientation_of_matrix.
  unfold TwoVectorFrame_matrix. rewrite Hd, Hp, Hs. reflexivity.
Qed.

Lemma rotate_vscale (q : Quaterniond) (v : Vector3d) (s : double) :
  rotate q (vscale v s) = vscale (rotate q v) s.
Proof.
  cbv [rotate vscale cross vadd qvec vx vy vz]. f_equal; ring.
Qed.

Lemma rotate_vneg (q : Quaterniond) (v : Vector3d) :
  rotate q (vneg v) = vneg (rotate q v).
Proof.
  cbv [rotate vneg vscale cross vadd qvec vx vy vz]. f_equal; ring.
Qed.

Lemma vscale_Zero_l (s : double) : vscale Eigen.Zero s = Eigen.Zero.
Proof. unfold vscale, Eigen.Zero; cbn [vx vy vz]. f_equal; ring. Qed.

Lemma normalized_vscale (v : Vector3d) (s : double) :
  0 < s -> normalized (vscale v s) = normalized v.
Proof.
  intros Hs. unfold normalized.
  assert (Hsq : squaredNorm (vscale v s) = s * s * squaredNorm v)
    by (unfold squaredNorm, vscale; cbn [vx vy vz]; ring).
  pose proof (squaredNorm_nonneg v) as Hnn.
  destruct (Rlt_dec 0 (squaredNorm v)) as [Hpos | Hzero].
  - destruct (Rlt_dec 0 (squaredNorm (vscale v s))) as [_ | Hno];
      [| exfalso; apply Hno; rewrite Hsq;
         repeat apply Rmult_lt_0_compat; assumption].
    assert (Hroot : sqrt (squaredNorm (vscale v s)) = s * sqrt (squaredNorm v)).
    { rewrite Hsq, sqrt_mult by nra. rewrite sqrt_square by lra. reflexivity. }
    rewrite Hroot.
    assert (Hn : 0 < sqrt (squaredNorm v)) by (apply sqrt_lt_R0; exact Hpos).
    unfold vdiv, vscale; cbn [vx vy vz]. f_equal; field; lra.
  - assert (Hv : v = Eigen.Zero) by (apply squaredNorm_zero; lra).
    subst v. rewrite vscale_Zero_l.
    destruct (Rlt_dec 0 (squaredNorm Eigen.Zero)); [contradiction | reflexivity].
Qed.

Lemma direction_constant_vscale
    (v : Vector3d) (s : double) (fr : option ReferenceFrame) (tjd : double) :
  directionOf (createConstantVector (vscale v s) fr) tjd
  = vscale (directionOf (createConstantVector v fr) tjd) s.
Proof.
  unfold direction, createConstantVector.
  destruct fr as [f |]; [apply rotate_vscale | reflexivity].
Qed.

(** Only the directions of the constant vectors of a two-vector frame
    matter, not their lengths: scaling the primary and the secondary
    constant vector by positive factors leaves the orientation as it
    is. *)
Theorem TwoVectorFrame_computeOrientation_scale_invariant
    (v v' : Vector3d) (fr fr' : option ReferenceFrame) (s s' : double)
    (primAxis secAxis tertAxis : Z) (tjd : double) :
  0 < s -> 0 < s' ->
  orientationOf (createConstantVector (vscale v s) fr) primAxis
                (createConstantVector (vscale v' s') fr') secAxis tertAxis tjd
  = orientationOf (createConstantVector v fr) primAxis
                  (createConstantVector v' fr') secAxis tertAxis tjd.
Proof.
  intros Hs Hs'. apply computeOrientation_directions; try reflexivity.
  unfold TwoVectorFrame_directions.
  rewrite !direction_constant_vscale, !normalized_vscale by assumption.
  reflexivity.
Qed.

Lemma direction_velocity_swap (a b : Selection) (tjd : double) :
  directionOf (createRelativeVelocityVector b a) tjd
  = vneg (directionOf (createRelativeVelocityVector a b) tjd).
Proof.
  unfold direction, createRelativeVelocityVector, vsub, vneg; cbn [vx vy vz].
  f_equal; ring.
Qed.

Lemma direction_constant_vneg
    (v : Vector3d) (fr : option ReferenceFrame) (tjd : double) :
  directionOf (createConstantVector (vneg v) fr) tjd
  = vneg (directionOf (createConstantVector v fr) tjd).
Proof.
  unfold direction, createConstantVector.
  destruct fr as [f |]; [apply rotate_vneg | reflexivity].
Qed.

(** A negative primary axis stands for the opposite direction: a frame
    whose axis [-k] points along the velocity of [b] relative to [a] is
    the frame whose axis [k] points along the velocity of [a] relative to
    [b], and a frame whose axis [-k] points along a constant vector is
    the frame whose axis [k] points along the negated vector. *)
Theorem TwoVectorFrame_negative_axis
    (k : Z) (a b : Selection) (v : Vector3d) (fr : option ReferenceFrame)
    (sec : FrameVector) (secAxis tertAxis : Z) (tjd : double) :
  (0 < k)%Z ->
  orientationOf (createRelativeVelocityVector a b) (- k) sec secAxis
                tertAxis tjd
  = orientationOf (createRelativeVelocityVector b a) k sec secAxis
                  tertAxis tjd
  /\ orientationOf (createConstantVector v fr) (- k) sec secAxis tertAxis tjd
     = orientationOf (createConstantVector (vneg v) fr) k sec secAxis
                     tertAxis tjd.
Proof.
  intros Hk.
  assert (Hneg : (- k <? 0)%Z = true) by (apply Z.ltb_lt; lia).
  assert (Hpos : (k <? 0)%Z = false) by (apply Z.ltb_ge; lia).
  split; apply computeOrientation_directions;
    try reflexivity; try (apply Z.abs_opp);
    unfold TwoVectorFrame_directions; rewrite Hneg, Hpos.
  - rewrite (direction_velocity_swap a b), AngularVelocityFacts.normalized_vneg.
    reflexivity.
  - rewrite direction_constant_vneg, AngularVelocityFacts.normalized_vneg.
    reflexivity.
Qed.

End Invariance.

Lemma TwoVectorFrame_computeOrientation_scale_invariant_witness :
  TwoVectorFrame_computeOrientation fixedCatalog (fun _ _ => Identity)
    (createConstantVector (vscale UnitX 3) None) 1
    (createConstantVector (vscale UnitY 0.5) None) 2 3 0
  = TwoVectorFrame_computeOrientation fixedCatalog (fun _ _ => Identity)
      (createConstantVector UnitX None) 1
      (createConstantVector UnitY None) 2 3 0.
Proof.
  apply (TwoVectorFrame_computeOrientation_scale_invariant
           fixedCatalog (fun _ _ => Identity) UnitX UnitY None None 3 0.5
           1 2 3 0); lra.
Defined.

Lemma TwoVectorFrame_negative_axis_witness :
  TwoVectorFrame_computeOrientation fixedCatalog (fun _ _ => Identity)
    (createRelativeVelocityVector (Sel_Body 1%nat) (Sel_Body 2%nat)) (- 1)
    (createConstantVector UnitY None) 2 3 0
  = TwoVectorFrame_computeOrientation fixedCatalog (fun _ _ => Identity)
      (createRelativeVelocityVector (Sel_Body 2%nat) (Sel_Body 1%nat)) 1
      (createConstantVector UnitY None) 2 3 0
  /\ TwoVectorFrame_computeOrientation fixedCatalog (fun _ _ => Identity)
       (createConstantVector UnitX None) (- 1)
       (createConstantVector UnitY None) 2 3 0
     = TwoVectorFrame_computeOrientation fixedCatalog (fun _ _ => Identity)
         (createConstantVector (vneg UnitX) None) 1
         (createConstantVector UnitY None) 2 3 0.
Proof.
  apply (TwoVectorFrame_negative_axis
           fixedCatalog (fun _ _ => Identity) 1
           (Sel_Body 1%nat) (Sel_Body 2%nat) UnitX None
           (createConstantVector UnitY None) 2 3 0).
  lia.
Defined.

End TwoVectorInvarianceFacts.
